(** * GitHub1sFS: the lazily populated virtual file tree of github1s

    A shallow embedding of [src/extensions/github1s/src/github1sfs.ts].

    The provider keeps a tree of [File] and [Directory] objects that is
    filled in on demand.  The objects are mutable and are reached through
    references ([parent.entries = ...], [file.data = ...]), so the model keeps
    them in a store indexed by locations; a [Map<string, Entry>] is an
    association list in insertion order whose values are locations.
    Asynchronous code is run to completion, one call after the other: an
    operation is a function from the provider state to a completion
    (a returned value or a thrown error) and a new state. *)

From Stdlib Require Import ZArith String Ascii List Lia.
From stdpp Require Import base option list strings gmap.

Open Scope string_scope.
Open Scope list_scope.

(** ** Values of the host platform *)

Inductive FileType : Type :=
| FileType_File
| FileType_Directory.

(** [vscode.Uri]: its five components. *)
Record Uri : Type := mkUri {
  uri_scheme : string;
  uri_authority : string;
  uri_path : string;
  uri_query : string;
  uri_fragment : string
}.

(** [uri.with({ path })]. *)
Definition Uri_with_path (u : Uri) (p : string) : Uri :=
  {| uri_scheme := uri_scheme u; uri_authority := uri_authority u;
     uri_path := p; uri_query := uri_query u; uri_fragment := uri_fragment u |}.

(** [UriState] of [./api]: what [parseUri] resolves to. *)
Record UriState : Type := mkUriState {
  st_owner : string;
  st_repo : string;
  st_branch : string;
  st_path : string;
  st_uri : Uri
}.

(** A string valued property that may be missing ([undefined]) or [null]. *)
Inductive JsString : Type :=
| js_undefined
| js_null
| js_string (s : string).

(** A promise of a collaborator, once settled. *)
Inductive Settled (A : Type) : Type :=
| Resolved (a : A)
| Rejected (reason : string).
Arguments Resolved {A} a.
Arguments Rejected {A} reason.

(** ** Remote responses *)

(** The [object] of a GraphQL tree entry: a tree carries [entries], a blob
    carries [byteSize], [isBinary] and [text].  A property that is missing or
    [null] is [None]. *)
Record GqlObject (I : Type) : Type := mkGqlObject {
  obj_entries : option (list I);
  obj_byteSize : option Z;
  obj_isBinary : option bool;
  obj_text : JsString
}.
Arguments mkGqlObject {I} _ _ _ _.
Arguments obj_entries {I} _.
Arguments obj_byteSize {I} _.
Arguments obj_isBinary {I} _.
Arguments obj_text {I} _.

#[warnings="-register-all"]
Inductive GqlItem : Type :=
| mkGqlItem (type name oid : string) (object : option (GqlObject GqlItem)).

Definition item_type (i : GqlItem) : string := let 'mkGqlItem t _ _ _ := i in t.
Definition item_name (i : GqlItem) : string := let 'mkGqlItem _ n _ _ := i in n.
Definition item_oid (i : GqlItem) : string := let 'mkGqlItem _ _ o _ := i in o.
Definition item_object (i : GqlItem) : option (GqlObject GqlItem) :=
  let 'mkGqlItem _ _ _ o := i in o.

(** [item.object?.entries], [item.object?.byteSize], the truth value of
    [item.object?.isBinary], and [item?.object?.text]. *)
Definition item_entries (i : GqlItem) : option (list GqlItem) :=
  match item_object i with Some o => obj_entries o | None => None end.
Definition item_byteSize (i : GqlItem) : option Z :=
  match item_object i with Some o => obj_byteSize o | None => None end.
Definition item_isBinary (i : GqlItem) : bool :=
  match item_object i with Some o => default false (obj_isBinary o) | None => false end.
Definition item_text (i : GqlItem) : JsString :=
  match item_object i with Some o => obj_text o | None => js_undefined end.

(** [response.data?.repository?.object]. *)
Record GqlRepository : Type := { repository_object : option (GqlObject GqlItem) }.
Record GqlData : Type := { data_repository : option GqlRepository }.
Record GqlResponse : Type := { response_data : option GqlData }.

(** One element of [data.tree] in the REST answer. *)
Record RestItem : Type := mkRestItem {
  rest_type : string;
  rest_path : string;
  rest_sha : string;
  rest_size : option Z
}.
Record RestTree : Type := { rest_tree : list RestItem }.
Record RestBlob : Type := { blob_content : string }.

(** ** Nodes *)

Abbreviation loc := nat (only parsing).

(** [Map<string, Entry>]: keys in insertion order, values are references. *)
Abbreviation JsMap := (list (string * loc)) (only parsing).

Fixpoint map_get (k : string) (m : JsMap) : option loc :=
  match m with
  | [] => None
  | (k', v) :: m' => if String.eqb k k' then Some v else map_get k m'
  end.

(** [map.set]: an existing key keeps its position. *)
Fixpoint map_set (k : string) (v : loc) (m : JsMap) : JsMap :=
  match m with
  | [] => [(k, v)]
  | (k', v') :: m' =>
      if String.eqb k k' then (k, v) :: m' else (k', v') :: map_set k v m'
  end.

Definition map_values (m : JsMap) : list loc := map snd m.

Record File : Type := mkFile {
  file_uri : Uri;
  file_name : string;
  file_ctime : Z;
  file_mtime : Z;
  file_sha : string;
  file_size : option Z;
  file_data : option (list Byte.byte)
}.

Record Directory : Type := mkDirectory {
  dir_uri : Uri;
  dir_name : string;
  dir_ctime : Z;
  dir_mtime : Z;
  dir_sha : string;
  dir_size : option Z;
  dir_entries : option JsMap
}.

Inductive Entry : Type :=
| EFile (f : File)
| EDirectory (d : Directory).

Definition entry_name (e : Entry) : string :=
  match e with EFile f => file_name f | EDirectory d => dir_name d end.

(** [item instanceof Directory ? FileType.Directory : FileType.File]. *)
Definition entry_type (e : Entry) : FileType :=
  match e with EFile _ => FileType_File | EDirectory _ => FileType_Directory end.

(** The [options] argument of the constructors.  A field is [None] when the
    key is not in the object; the size under a present key may itself be
    [undefined], the data may be [null]. *)
Record Options : Type := mkOptions {
  opt_sha : option string;
  opt_size : option (option Z);
  opt_data : option (option (list Byte.byte))
}.

(** [new File(uri, name, options)]; [now] is [Date.now()]. *)
Definition new_File (now : Z) (uri : Uri) (name : string) (options : option Options) : File :=
  {| file_uri := uri;
     file_name := name;
     file_ctime := now;
     file_mtime := now;
     file_sha := match options with
                 | Some o => match opt_sha o with Some v => v | None => "" end
                 | None => ""
                 end;
     file_size := match options with
                  | Some o => match opt_size o with Some v => v | None => Some 0%Z end
                  | None => Some 0%Z
                  end;
     file_data := match options with
                  | Some o => match opt_data o with Some v => v | None => None end
                  | None => None
                  end |}.

(** [new Directory(uri, name, options)]: [entries] starts as [null]. *)
Definition new_Directory (now : Z) (uri : Uri) (name : string) (options : option Options)
  : Directory :=
  {| dir_uri := uri;
     dir_name := name;
     dir_ctime := now;
     dir_mtime := now;
     dir_sha := match options with
                | Some o => match opt_sha o with Some v => v | None => "" end
                | None => ""
                end;
     dir_size := match options with
                 | Some o => match opt_size o with Some v => v | None => Some 0%Z end
                 | None => Some 0%Z
                 end;
     dir_entries := None |}.

Definition with_entries (d : Directory) (m : option JsMap) : Directory :=
  {| dir_uri := dir_uri d; dir_name := dir_name d; dir_ctime := dir_ctime d;
     dir_mtime := dir_mtime d; dir_sha := dir_sha d; dir_size := dir_size d;
     dir_entries := m |}.

Definition with_data (f : File) (b : option (list Byte.byte)) : File :=
  {| file_uri := file_uri f; file_name := file_name f; file_ctime := file_ctime f;
     file_mtime := file_mtime f; file_sha := file_sha f; file_size := file_size f;
     file_data := b |}.

(** [entry.entries = m] and [file.data = b] on the object behind a reference.
    The references that are assigned through are typed: the first is always a
    [Directory], the second a [File]. *)
Definition set_entries (m : option JsMap) (e : Entry) : Entry :=
  match e with
  | EDirectory d => EDirectory (with_entries d m)
  | EFile f => EFile f
  end.

Definition set_data (b : option (list Byte.byte)) (e : Entry) : Entry :=
  match e with
  | EFile f => EFile (with_data f b)
  | EDirectory d => EDirectory d
  end.

(** [textEncoder.encode(input)].  A string of the model is the UTF-8 byte
    sequence of the text it stands for.  The parameter defaults to the empty
    string when it is [undefined]; [null] is converted to the string "null". *)
Definition textEncoder_encode (input : JsString) : list Byte.byte :=
  match input with
  | js_undefined => list_byte_of_string ""
  | js_null => list_byte_of_string "null"
  | js_string s => list_byte_of_string s
  end.

(** [s.split('/')]. *)
Fixpoint split_slash (s : string) : list string :=
  match s with
  | EmptyString => [EmptyString]
  | String c s' =>
      if Ascii.eqb c "/" then EmptyString :: split_slash s'
      else match split_slash s' with
           | [] => [String c EmptyString]
           | p :: ps => String c p :: ps
           end
  end.

(** [Boolean] applied to a string. *)
Definition Boolean_string (s : string) : bool := negb (String.eqb s "").

(** [s.substring(1)]. *)
Definition substring1 (s : string) : string :=
  match s with EmptyString => EmptyString | String _ s' => s' end.

(** ** Collaborators

    What the file imports from [./api], [./client], [js-base64] and [vscode].
    A call reads and advances the state of the outside world, so that the
    same request may be answered differently the next time. *)
Class Collaborators : Type := {
  World : Type;
  Date_now : World -> Z;
  Uri_joinPath : Uri -> string -> Uri;
  Uri_toString : Uri -> string;
  parseUri : Uri -> World -> Settled UriState * World;
  isGraphQLEnabled : World -> bool;
  apolloClient_query : string -> string -> string -> World -> Settled GqlResponse * World;
  readGitHubDirectory : UriState -> World -> Settled RestTree * World;
  readGitHubFile : UriState -> string -> World -> Settled RestBlob * World;
  decodeBase64 : string -> list Byte.byte
}.

(** The requests that reach the remote service. *)
Inductive RemoteCall : Type :=
| CallQuery (owner repo expression : string)
| CallDirectory (state : UriState)
| CallFile (state : UriState) (sha : string).

(** ** Provider state and the monad of operations *)

Inductive Error : Type :=
| FileNotFound (uri : Uri)
| FileNotADirectory (uri : Uri)
| FileIsADirectory (uri : Uri)
| TypeError
| RemoteFailure (reason : string).

Inductive Completion (A : Type) : Type :=
| Return (a : A)
| Throw (e : Error).
Arguments Return {A} a.
Arguments Throw {A} e.

Record St `{Collaborators} : Type := mkSt {
  heap : list Entry;
  root : option loc;
  world : World;
  calls : list RemoteCall;
  inflight_readDirectory : list string;
  inflight_readFile : list string
}.

Section Provider.
Context `{C : Collaborators}.

Definition with_heap (h : list Entry) (s : St) : St :=
  {| heap := h; root := root s; world := world s; calls := calls s;
     inflight_readDirectory := inflight_readDirectory s;
     inflight_readFile := inflight_readFile s |}.

Definition with_root (r : option loc) (s : St) : St :=
  {| heap := heap s; root := r; world := world s; calls := calls s;
     inflight_readDirectory := inflight_readDirectory s;
     inflight_readFile := inflight_readFile s |}.

Definition with_world (w : World) (s : St) : St :=
  {| heap := heap s; root := root s; world := w; calls := calls s;
     inflight_readDirectory := inflight_readDirectory s;
     inflight_readFile := inflight_readFile s |}.

Definition with_calls (l : list RemoteCall) (s : St) : St :=
  {| heap := heap s; root := root s; world := world s; calls := l;
     inflight_readDirectory := inflight_readDirectory s;
     inflight_readFile := inflight_readFile s |}.

(** An operation started in a state either settles, with a completion and
    the state it leaves, or never settles ([None]). *)
Definition M (A : Type) : Type := St -> option (Completion A * St).

Definition ret {A} (a : A) : M A := fun s => Some (Return a, s).

Definition throw {A} (e : Error) : M A := fun s => Some (Throw e, s).

Definition never {A} : M A := fun _ => None.

Definition bind {A B} (m : M A) (k : A -> M B) : M B := fun s =>
  match m s with
  | None => None
  | Some (Return a, s') => k a s'
  | Some (Throw e, s') => Some (Throw e, s')
  end.

Notation "'let*' x ':=' m 'in' k" := (bind m (fun x => k))
  (at level 10, x name, m at level 100, k at level 200).
Notation "m ';;' k" := (bind m (fun _ => k))
  (at level 100, k at level 200, right associativity).

Definition get : M St := fun s => Some (Return s, s).

Definition modify (f : St -> St) : M unit := fun s => Some (Return tt, f s).

(** Reading the object behind a reference.  A reference of the program
    always denotes an object; a location outside the store has no reading. *)
Definition deref (l : loc) : M Entry := fun s =>
  match heap s !! l with
  | Some e => Some (Return e, s)
  | None => None
  end.

(** [new ...]: the object gets the next free location. *)
Definition alloc (e : Entry) : M loc := fun s =>
  Some (Return (length (heap s)), with_heap (heap s ++ [e]) s).

Definition update (l : loc) (f : Entry -> Entry) : M unit :=
  modify (fun s => with_heap (alter f l (heap s)) s).

Definition now : M Z := fun s => Some (Return (Date_now (world s)), s).

Definition settle {A} (r : Settled A) : Completion A :=
  match r with
  | Resolved a => Return a
  | Rejected reason => Throw (RemoteFailure reason)
  end.

(** Awaiting [parseUri(uri)]. *)
Definition await_parseUri (uri : Uri) : M UriState := fun s =>
  let '(r, w) := parseUri uri (world s) in
  Some (settle r, with_world w s).

(** Awaiting a request to the remote service; the request is recorded. *)
Definition await_remote {A} (c : RemoteCall) (request : World -> Settled A * World)
  : M A := fun s =>
  let '(r, w) := request (world s) in
  Some (settle r, with_calls (calls s ++ [c]) (with_world w s)).

(** ** [Directory.getNameTypePairs] *)

Definition nameTypePairs (h : list Entry) (m : JsMap) : option (list (string * FileType)) :=
  mapM (fun l => match h !! l with
                 | Some item => Some (entry_name item, entry_type item)
                 | None => None
                 end) (map_values m).

Definition getNameTypePairs (this : loc) : M (list (string * FileType)) := fun s =>
  match heap s !! this with
  | Some (EDirectory d) =>
      match nameTypePairs (heap s) (default [] (dir_entries d)) with
      | Some pairs => Some (Return pairs, s)
      | None => None
      end
  | _ => None
  end.

(** ** [entriesToMap] *)

(** The callback of [entries.forEach] in [entriesToMap], with the map under
    construction and the store passed along.  [now] is [Date.now()]. *)
Fixpoint entriesToMap_forEach (now : Z) (uri : Uri) (item : GqlItem)
  (acc : JsMap * list Entry) {struct item} : JsMap * list Entry :=
  let '(map, h) := acc in
  match item with
  | mkGqlItem type name oid object =>
      if String.eqb type "tree" then
        let entry := length h in
        let h1 := h ++ [EDirectory (new_Directory now uri name
                          (Some (mkOptions (Some oid) None None)))] in
        let unpopulated := (map_set name entry map, h1) in
        match object with
        | Some o =>
            match obj_entries o with
            | Some entries =>
                let '(sub, h2) :=
                  (fix forEach (items : list GqlItem) (acc : JsMap * list Entry) :=
                     match items with
                     | [] => acc
                     | i :: items' =>
                         forEach items'
                           (entriesToMap_forEach now (Uri_joinPath uri name) i acc)
                     end) entries ([], h1) in
                (map_set name entry map, alter (set_entries (Some sub)) entry h2)
            | None => unpopulated
            end
        | None => unpopulated
        end
      else
        let entry := length h in
        let data :=
          if item_isBinary item then None
          else Some (textEncoder_encode (item_text item)) in
        (map_set name entry map,
         h ++ [EFile (new_File now uri name
                  (Some (mkOptions (Some oid) (Some (item_byteSize item)) (Some data))))])
  end.

(** [entries.forEach(callback)] of [entriesToMap]. *)
Definition forEach (now : Z) (uri : Uri) (items : list GqlItem)
  (acc : JsMap * list Entry) : JsMap * list Entry :=
  fold_left (fun acc item => entriesToMap_forEach now uri item acc) items acc.

(** [entriesToMap(entries, uri)] on the store [h]: the map, or [null], and
    the store with the new nodes. *)
Definition entriesToMap (now : Z) (entries : option (list GqlItem)) (uri : Uri)
  (h : list Entry) : option JsMap * list Entry :=
  match entries with
  | None => (None, h)
  | Some items =>
      let '(map, h') := forEach now uri items ([], h) in
      (Some map, h')
  end.

(** ** [reuseable]

    [readDirectory] and [readFile] are wrapped by [reuseable] of [./util],
    each with a registry of its own, keyed by [uri.toString()]. *)
Inductive Registry : Type :=
| registry_readDirectory
| registry_readFile.

Definition inflight (r : Registry) (s : St) : list string :=
  match r with
  | registry_readDirectory => inflight_readDirectory s
  | registry_readFile => inflight_readFile s
  end.

Definition with_inflight (r : Registry) (keys : list string) (s : St) : St :=
  match r with
  | registry_readDirectory =>
      {| heap := heap s; root := root s; world := world s; calls := calls s;
         inflight_readDirectory := keys; inflight_readFile := inflight_readFile s |}
  | registry_readFile =>
      {| heap := heap s; root := root s; world := world s; calls := calls s;
         inflight_readDirectory := inflight_readDirectory s; inflight_readFile := keys |}
  end.

Definition remove_key (key : string) (keys : list string) : list string :=
  List.filter (fun k => negb (String.eqb k key)) keys.

(** Modelled from the spec: [reuseable] of [./util] is not among the sources.
    The spec describes it as a registry of the operations in flight, by key: a
    caller that finds its key registered attaches to the operation in flight
    instead of starting one, and the entry is cleared when the operation
    settles, with a value or with a failure.  When calls run one after the
    other, a key can only be found registered by a call made from inside the
    operation that registered it; that operation cannot settle before the
    call does, so the call never settles. *)
Definition reuseable {A} (r : Registry) (func : M A) (key : string) : M A := fun s =>
  if existsb (String.eqb key) (inflight r s) then None
  else
    match func (with_inflight r (key :: inflight r s) s) with
    | None => None
    | Some (c, s') => Some (c, with_inflight r (remove_key key (inflight r s')) s')
    end.

(** ** Lookup *)

Section Lookup.
(** [this.readDirectory], as [_lookup] calls it. *)
Variable readDirectory : Uri -> M (list (string * FileType)).

(** The [for (const part of parts)] loop of [_lookup], from [entry] on. *)
Fixpoint _lookup_for (state : UriState) (silent : bool) (entry : loc)
  (parts : list string) : M (option loc) :=
  match parts with
  | [] => ret (Some entry)
  | part :: parts' =>
      let* e := deref entry in
      let* child :=
        match e with
        | EDirectory d =>
            match dir_entries d with
            | None => (readDirectory (Uri_joinPath (dir_uri d) (dir_name d)) ;; ret tt)
            | Some _ => ret tt
            end ;;
            let* e' := deref entry in
            match e' with
            | EDirectory d' =>
                match dir_entries d' with
                | Some map => ret (map_get part map)
                | None => throw TypeError
                end
            | EFile _ => throw TypeError
            end
        | EFile _ => ret None
        end in
      match child with
      | None => if silent then ret None else throw (FileNotFound (st_uri state))
      | Some c => _lookup_for state silent c parts'
      end
  end.

(** [state.path.split('/').filter(Boolean)]. *)
Definition parts_of (path : string) : list string :=
  List.filter Boolean_string (split_slash path).

(** [undefined] is [None]. *)
Definition _lookup (state : UriState) (silent : bool) : M (option loc) :=
  let* s := get in
  let* entry :=
    match root s with
    | None =>
        let* t := now in
        let* r := alloc (EDirectory
                    (new_Directory t (Uri_with_path (st_uri state) "/") "" None)) in
        modify (with_root (Some r)) ;;
        ret r
    | Some r => ret r
    end in
  _lookup_for state silent entry (parts_of (st_path state)).

Definition instanceof_Directory (entry : option loc) : M bool :=
  match entry with
  | Some l => let* e := deref l in
              ret (match e with EDirectory _ => true | EFile _ => false end)
  | None => ret false
  end.

Definition instanceof_File (entry : option loc) : M bool :=
  match entry with
  | Some l => let* e := deref l in
              ret (match e with EFile _ => true | EDirectory _ => false end)
  | None => ret false
  end.

Definition _lookupAsDirectory (state : UriState) (silent : bool) : M (option loc) :=
  let* entry := _lookup state silent in
  let* is_directory := instanceof_Directory entry in
  if is_directory then ret entry
  else if silent then ret None
  else throw (FileNotADirectory (st_uri state)).

Definition _lookupAsFile (state : UriState) (silent : bool) : M (option loc) :=
  let* entry := _lookup state silent in
  let* is_file := instanceof_File entry in
  if is_file then ret entry
  else if silent then ret None
  else throw (FileIsADirectory (st_uri state)).

End Lookup.

(** ** [readDirectory], [readFile] and [stat] *)

(** [response.data?.repository?.object?.entries]. *)
Definition response_entries (response : GqlResponse) : option (list GqlItem) :=
  match response_data response with
  | Some data =>
      match data_repository data with
      | Some repository =>
          match repository_object repository with
          | Some object => obj_entries object
          | None => None
          end
      | None => None
      end
  | None => None
  end.

(** [parent.entries.set(key, value)]. *)
Definition entries_set (key : string) (value : loc) (e : Entry) : Entry :=
  match e with
  | EDirectory d => EDirectory (with_entries d (map_set key value <$> dir_entries d))
  | EFile f => EFile f
  end.

(** [data.tree.map(...)] of the REST branch of [readDirectory]. *)
Fixpoint readDirectory_map (uri : Uri) (parent : loc) (tree : list RestItem)
  : M (list (string * FileType)) :=
  match tree with
  | [] => ret []
  | item :: tree' =>
      let fileType := if String.eqb (rest_type item) "tree"
                      then FileType_Directory else FileType_File in
      let* t := now in
      let* child :=
        alloc (match fileType with
               | FileType_Directory =>
                   EDirectory (new_Directory t uri (rest_path item)
                                 (Some (mkOptions (Some (rest_sha item)) None None)))
               | FileType_File =>
                   EFile (new_File t uri (rest_path item)
                            (Some (mkOptions (Some (rest_sha item))
                                     (Some (rest_size item)) None)))
               end) in
      update parent (entries_set (rest_path item) child) ;;
      let* pairs := readDirectory_map uri parent tree' in
      ret ((rest_path item, fileType) :: pairs)
  end.

(** [readDirectory] from the point where [parent.entries] was found to be
    [null]: the request to the remote service, by the strategy that the flag
    selects, and the population of [parent] from the answer. *)
Definition readDirectory_fetch (uri : Uri) (state : UriState) (parent : loc)
  : M (list (string * FileType)) :=
  let* s := get in
  if isGraphQLEnabled (world s) then
    let directory := substring1 (st_path state) in
    let expression := st_branch state +:+ ":" +:+ directory in
    let* response :=
      await_remote (CallQuery (st_owner state) (st_repo state) expression)
        (apolloClient_query (st_owner state) (st_repo state) expression) in
    match response_entries response with
    | None => throw (FileNotADirectory uri)
    | Some entries =>
        let* t := now in
        let* s := get in
        let '(map, h) := entriesToMap t (Some entries) uri (heap s) in
        modify (with_heap h) ;;
        update parent (set_entries map) ;;
        getNameTypePairs parent
    end
  else
    let* data := await_remote (CallDirectory state) (readGitHubDirectory state) in
    update parent (set_entries (Some [])) ;;
    readDirectory_map uri parent (rest_tree data).

(** The function that [readDirectory] hands to [reuseable];
    [readDirectory] is the wrapped function, called back by [_lookup]. *)
Definition readDirectory_func (readDirectory : Uri -> M (list (string * FileType)))
  (uri : Uri) : M (list (string * FileType)) :=
  if String.eqb (uri_authority uri) "" then throw (FileNotFound uri)
  else
    let* state := await_parseUri uri in
    let* found := _lookupAsDirectory readDirectory state false in
    match found with
    | None => throw TypeError
    | Some parent =>
        let* e := deref parent in
        match e with
        | EFile _ => throw TypeError
        | EDirectory d =>
            match dir_entries d with
            | Some _ => getNameTypePairs parent
            | None => readDirectory_fetch uri state parent
            end
        end
    end.

(** [fuel] bounds how deep calls of [readDirectory] nest through [_lookup]. *)
Fixpoint readDirectory (fuel : nat) (uri : Uri) : M (list (string * FileType)) :=
  match fuel with
  | O => never
  | S fuel' =>
      reuseable registry_readDirectory
        (readDirectory_func (readDirectory fuel') uri) (Uri_toString uri)
  end.

Definition readFile_func (readDirectory : Uri -> M (list (string * FileType)))
  (uri : Uri) : M (list Byte.byte) :=
  if String.eqb (uri_authority uri) "" then throw (FileNotFound uri)
  else
    let* state := await_parseUri uri in
    let* found := _lookupAsFile readDirectory state false in
    match found with
    | None => throw TypeError
    | Some file =>
        let* e := deref file in
        match e with
        | EDirectory _ => throw TypeError
        | EFile f =>
            match file_data f with
            | Some data => ret data
            | None =>
                let* blob := await_remote (CallFile state (file_sha f))
                               (readGitHubFile state (file_sha f)) in
                let data := decodeBase64 (blob_content blob) in
                update file (set_data (Some data)) ;;
                ret data
            end
        end
    end.

Definition readFile (fuel : nat) (uri : Uri) : M (list Byte.byte) :=
  reuseable registry_readFile (readFile_func (readDirectory fuel) uri) (Uri_toString uri).

Definition stat (fuel : nat) (uri : Uri) : M (option loc) :=
  let* state := await_parseUri uri in
  _lookup (readDirectory fuel) state false.

(** A new provider: [root] is [null], nothing is in flight. *)
Definition new_GitHub1sFS (w : World) : St :=
  {| heap := []; root := None; world := w; calls := [];
     inflight_readDirectory := []; inflight_readFile := [] |}.

(** ** Vocabulary of the statements

    What the properties below speak of: the node that a path denotes in the
    tree as far as it is populated, the request that a listing sends and how
    it may fail, and what a store keeps of another. *)

(** The node reached from [entry] by following [parts], one lookup among the
    children per segment; every directory on the way has its entries. *)
Fixpoint follow (h : list Entry) (entry : loc) (parts : list string) : option loc :=
  match parts with
  | [] => Some entry
  | part :: parts' =>
      match h !! entry with
      | Some (EDirectory d) =>
          match dir_entries d with
          | Some map =>
              match map_get part map with
              | Some child => follow h child parts'
              | None => None
              end
          | None => None
          end
      | _ => None
      end
  end.

(** The node a path denotes in the tree as it is populated so far. *)
Definition resolve (s : St) (path : string) : option loc :=
  match root s with
  | Some r => follow (heap s) r (parts_of path)
  | None => None
  end.

(** Whatever [m] settles with, [m'] settles with. *)
Definition refines {A} (m m' : M A) : Prop :=
  forall s r, m s = Some r -> m' s = Some r.

(** The provider once [_lookup] has made sure of the root: what the first
    statement of [_lookup] leaves, for the URI of [state]. *)
Definition ensure_root (state : UriState) (s : St) : St :=
  match root s with
  | Some _ => s
  | None =>
      with_root (Some (length (heap s)))
        (with_heap
           (heap s ++
            [EDirectory (new_Directory (Date_now (world s))
                           (Uri_with_path (st_uri state) "/") "" None)]) s)
  end.

(** What stops a lookup short of its last segment: the segments [walked] lead
    to [entry], and the next one, [part], is not a child of [entry], which is a
    populated directory, or [entry] is a file. *)
Definition stops_at (s : St) (path : string) (entry : loc) : Prop :=
  exists r walked part rest,
    root s = Some r /\
    parts_of path = walked ++ part :: rest /\
    follow (heap s) r walked = Some entry /\
    match heap s !! entry with
    | Some (EDirectory d) =>
        match dir_entries d with
        | Some map => map_get part map = None
        | None => False
        end
    | Some (EFile _) => True
    | None => False
    end.

(** No operation of the registry [r] is in flight under [key]. *)
Definition idle (r : Registry) (key : string) (s : St) : Prop :=
  existsb (String.eqb key) (inflight r s) = false.

(** The [File] that [entriesToMap] makes of an item that is not a tree. *)
Definition File_of_item (now : Z) (uri : Uri) (item : GqlItem) : File :=
  new_File now uri (item_name item)
    (Some (mkOptions (Some (item_oid item)) (Some (item_byteSize item))
       (Some (if item_isBinary item then None
              else Some (textEncoder_encode (item_text item)))))).

(** The request that populating a directory sends, in the world [w]. *)
Definition population_request (state : UriState) (w : World) : RemoteCall :=
  if isGraphQLEnabled w then
    CallQuery (st_owner state) (st_repo state)
      (st_branch state +:+ ":" +:+ substring1 (st_path state))
  else CallDirectory state.

(** The failure of that request, if it fails: the service rejects it, or the
    answer of the deep strategy has no entries. *)
Definition population_failure (uri : Uri) (state : UriState) (w : World)
  : option (Error * World) :=
  if isGraphQLEnabled w then
    match apolloClient_query (st_owner state) (st_repo state)
            (st_branch state +:+ ":" +:+ substring1 (st_path state)) w with
    | (Rejected reason, w') => Some (RemoteFailure reason, w')
    | (Resolved response, w') =>
        match response_entries response with
        | None => Some (FileNotADirectory uri, w')
        | Some _ => None
        end
    end
  else
    match readGitHubDirectory state w with
    | (Rejected reason, w') => Some (RemoteFailure reason, w')
    | (Resolved _, _) => None
    end.

(** The number of children that the remote service reports for a directory,
    when the request succeeds. *)
Definition population_children (state : UriState) (w : World) : option (nat * World) :=
  if isGraphQLEnabled w then
    match apolloClient_query (st_owner state) (st_repo state)
            (st_branch state +:+ ":" +:+ substring1 (st_path state)) w with
    | (Resolved response, w') =>
        match response_entries response with
        | Some entries => Some (length entries, w')
        | None => None
        end
    | (Rejected _, _) => None
    end
  else
    match readGitHubDirectory state w with
    | (Resolved data, w') => Some (length (rest_tree data), w')
    | (Rejected _, _) => None
    end.

(** The populated directories of [h] are in [h'], with the same entries. *)
Definition keeps_populated (h h' : list Entry) : Prop :=
  forall l d map,
    h !! l = Some (EDirectory d) -> dir_entries d = Some map ->
    exists d', h' !! l = Some (EDirectory d') /\ dir_entries d' = Some map.

(** ** The entry points that change nothing

    [createDirectory], [writeFile], [delete], [rename] and [copy] return
    [Promise.resolve()]. *)
Definition createDirectory (uri : Uri) : M unit := ret tt.

Definition writeFile (uri : Uri) (content : list Byte.byte) (create overwrite : bool)
  : M unit := ret tt.

Definition delete_ (uri : Uri) (recursive : bool) : M unit := ret tt.

Definition rename (oldUri newUri : Uri) (overwrite : bool) : M unit := ret tt.

Definition copy (source destination : Uri) (overwrite : bool) : M unit := ret tt.

(** ** Vocabulary of the further statements *)

(** The string has a slash. *)
Fixpoint has_slash (s : string) : bool :=
  match s with
  | EmptyString => false
  | String c s' => Ascii.eqb c "/" || has_slash s'
  end.

(** A segment: not empty and without a slash. *)
Definition segment (p : string) : bool := Boolean_string p && negb (has_slash p).

(** The path made of the segments, each after a slash. *)
Fixpoint path_of (parts : list string) : string :=
  match parts with
  | [] => EmptyString
  | p :: parts' => "/" +:+ p +:+ path_of parts'
  end.

(** [e'] is [e], but for entries or data that were [null] and are present. *)
Definition entry_le (e e' : Entry) : Prop :=
  match e, e' with
  | EFile f, EFile f' =>
      with_data f' None = with_data f None /\
      (forall b, file_data f = Some b -> file_data f' = Some b)
  | EDirectory d, EDirectory d' =>
      with_entries d' None = with_entries d None /\
      (forall m, dir_entries d = Some m -> dir_entries d' = Some m)
  | _, _ => False
  end.

(** Every node of [h] is in [h'], at its place, with at most more filled in. *)
Definition heap_le (h h' : list Entry) : Prop :=
  forall l e, h !! l = Some e -> exists e', h' !! l = Some e' /\ entry_le e e'.

(** What a call that has settled leaves of the provider it started in: the
    nodes, the root if there was one, the requests sent so far, and the
    registries. *)
Definition grows (s s' : St) : Prop :=
  heap_le (heap s) (heap s') /\
  (forall r, root s = Some r -> root s' = Some r) /\
  calls s `prefix_of` calls s' /\
  (forall r, inflight r s' = inflight r s).

(** No key is twice in the map, and every value is a node of the store,
    named by its key. *)
Definition map_ok (h : list Entry) (m : JsMap) : Prop :=
  NoDup m.*1 /\
  forall k v, (k, v) ∈ m -> exists e, h !! v = Some e /\ entry_name e = k.

(** The entries of every populated directory are nodes of the store. *)
Definition wf_heap (h : list Entry) : Prop :=
  forall l d m, h !! l = Some (EDirectory d) -> dir_entries d = Some m -> map_ok h m.

(** The provider is well formed: the root, if there is one, is a directory
    of the store, and the store is closed under the entries. *)
Definition wf (s : St) : Prop :=
  (forall r, root s = Some r -> exists d, heap s !! r = Some (EDirectory d)) /\
  wf_heap (heap s).

(** The provider that [s'] is, is [s] grown, and well formed if [s] is. *)
Definition sound_step (s s' : St) : Prop := grows s s' /\ (wf s -> wf s').

(** Every settled run of [m] is a sound step. *)
Definition sound {A} (m : M A) : Prop :=
  forall s c s', m s = Some (c, s') -> sound_step s s'.

(** A call of an entry point that runs alone: no other call is made between
    the moment it is made and the moment it settles.  The provider before and
    after it. *)
Inductive call : St -> St -> Prop :=
| call_readDirectory fuel uri c s s' :
    readDirectory fuel uri s = Some (c, s') -> call s s'
| call_readFile fuel uri c s s' :
    readFile fuel uri s = Some (c, s') -> call s s'
| call_stat fuel uri c s s' :
    stat fuel uri s = Some (c, s') -> call s s'
| call_createDirectory uri c s s' :
    createDirectory uri s = Some (c, s') -> call s s'
| call_writeFile uri content create overwrite c s s' :
    writeFile uri content create overwrite s = Some (c, s') -> call s s'
| call_delete uri recursive c s s' :
    delete_ uri recursive s = Some (c, s') -> call s s'
| call_rename oldUri newUri overwrite c s s' :
    rename oldUri newUri overwrite s = Some (c, s') -> call s s'
| call_copy source destination overwrite c s s' :
    copy source destination overwrite s = Some (c, s') -> call s s'.

(** No call is in flight: nothing is registered. *)
Definition quiet (s : St) : Prop := forall r, inflight r s = [].

(** The providers that calls made in turn lead to.  No call is in flight in
    [s]; every call is made when the call before it has settled, and settles
    before another is made; the world may go its way between the calls.
    Calls that overlap, one made while another waits for the remote service,
    are not among these: what is said of calls in turn is not said of
    them. *)
Inductive in_turn : St -> St -> Prop :=
| in_turn_start s : quiet s -> in_turn s s
| in_turn_world s s' w : in_turn s s' -> in_turn s (with_world w s')
| in_turn_call s s1 s' : in_turn s s1 -> call s1 s' -> in_turn s s'.

(** The providers that calls made in turn lead to from a new provider. *)
Definition reachable (s : St) : Prop := exists w, in_turn (new_GitHub1sFS w) s.

(** The node that the REST branch of [readDirectory] makes of an item. *)
Definition rest_entry (now : Z) (uri : Uri) (item : RestItem) : Entry :=
  if String.eqb (rest_type item) "tree"
  then EDirectory (new_Directory now uri (rest_path item)
                     (Some (mkOptions (Some (rest_sha item)) None None)))
  else EFile (new_File now uri (rest_path item)
                (Some (mkOptions (Some (rest_sha item)) (Some (rest_size item)) None))).

(** The pair that the REST branch returns for an item. *)
Definition rest_pair (item : RestItem) : string * FileType :=
  (rest_path item,
   if String.eqb (rest_type item) "tree" then FileType_Directory else FileType_File).

(** The map after the items were set in turn, the first at location [base]. *)
Fixpoint rest_fill (base : loc) (tree : list RestItem) (m : JsMap) : JsMap :=
  match tree with
  | [] => m
  | item :: tree' => rest_fill (S base) tree' (map_set (rest_path item) base m)
  end.


(** ** Entries at any depth of a deep answer *)

(** The last item of the name among the items: the one whose node the name
    is bound to once [map.set] has run for every item. *)
Fixpoint last_named (name : string) (items : list GqlItem) : option GqlItem :=
  match items with
  | [] => None
  | item :: items' =>
      match last_named name items' with
      | Some later => Some later
      | None => if String.eqb (item_name item) name then Some item else None
      end
  end.

(** The entry of the answer that the names lead to: the last item of the
    first name, and from there on through the entries that the answer inlines
    for an item of type tree. *)
Fixpoint item_at (entries : list GqlItem) (names : list string) : option GqlItem :=
  match names with
  | [] => None
  | name :: names' =>
      match last_named name entries with
      | None => None
      | Some item =>
          match names' with
          | [] => Some item
          | _ :: _ =>
              if String.eqb (item_type item) "tree" then
                match item_entries item with
                | Some inlined => item_at inlined names'
                | None => None
                end
              else None
          end
      end
  end.

(** [Uri.joinPath] applied once for every directory on the way down: the URI
    that [entriesToMap] is called with for the entries below [dirs]. *)
Definition uri_below (uri : Uri) (dirs : list string) : Uri :=
  fold_left Uri_joinPath dirs uri.

End Provider.

(** ** A scripted remote

    A small repository served by both strategies, used to run the provider on
    concrete requests:
<<
      /README.md   text, 12 bytes
      /logo.png    binary
      /src/        empty
>>
    The world holds the feature flag and the number of requests that the
    service still rejects before it answers. *)
Module Mock.

Record script : Type := mkScript { graphql : bool; failures : nat }.

Definition joinPath (u : Uri) (name : string) : Uri :=
  Uri_with_path u
    (if String.eqb name "" then uri_path u
     else if String.eqb (uri_path u) "/" then "/" +:+ name
     else uri_path u +:+ "/" +:+ name).

Definition toString (u : Uri) : string :=
  uri_scheme u +:+ "://" +:+ uri_authority u +:+ uri_path u.

Definition parse (u : Uri) (w : script) : Settled UriState * script :=
  (Resolved {| st_owner := "conwnet"; st_repo := "github1s"; st_branch := "master";
               st_path := uri_path u; st_uri := u |}, w).

Definition answer {A} (a : Settled A) (w : script) : Settled A * script :=
  match failures w with
  | O => (a, w)
  | S n => (Rejected "503", {| graphql := graphql w; failures := n |})
  end.

Definition listing (state : UriState) : Settled RestTree :=
  if String.eqb (st_path state) "/" then
    Resolved {| rest_tree := [ mkRestItem "tree" "src" "sha-src" None;
                               mkRestItem "blob" "README.md" "sha-readme" (Some 12%Z);
                               mkRestItem "blob" "logo.png" "sha-logo" (Some 4%Z) ] |}
  else if String.eqb (st_path state) "/src" then Resolved {| rest_tree := [] |}
  else Rejected "404".

Definition respond (entries : option (list GqlItem)) : GqlResponse :=
  {| response_data := Some {| data_repository := Some {| repository_object :=
       Some (mkGqlObject entries None None js_undefined) |} |} |}.

Definition query (owner repo expression : string) : Settled GqlResponse :=
  if String.eqb expression "master:" then
    Resolved (respond (Some
      [ mkGqlItem "tree" "src" "sha-src" (Some (mkGqlObject (Some []) None None js_undefined));
        mkGqlItem "blob" "README.md" "sha-readme"
          (Some (mkGqlObject None (Some 12%Z) (Some false) (js_string "Hello, World")));
        mkGqlItem "blob" "logo.png" "sha-logo"
          (Some (mkGqlObject None (Some 4%Z) (Some true) js_null)) ]))
  else if String.eqb expression "master:src" then Resolved (respond (Some []))
  else Resolved (respond None).

Definition content (state : UriState) (sha : string) : Settled RestBlob :=
  if String.eqb sha "sha-readme" then Resolved {| blob_content := "Hello, World" |}
  else if String.eqb sha "sha-logo" then Resolved {| blob_content := "PNG!" |}
  else Rejected "404".

#[export] Instance collaborators : Collaborators := {|
  World := script;
  Date_now := fun _ => 0%Z;
  Uri_joinPath := joinPath;
  Uri_toString := toString;
  parseUri := parse;
  isGraphQLEnabled := graphql;
  apolloClient_query := fun owner repo expression => answer (query owner repo expression);
  readGitHubDirectory := fun state => answer (listing state);
  readGitHubFile := fun state sha => answer (content state sha);
  decodeBase64 := list_byte_of_string
|}.

Definition at_path (p : string) : Uri :=
  {| uri_scheme := "github1s"; uri_authority := "conwnet+github1s+master";
     uri_path := p; uri_query := ""; uri_fragment := "" |}.

(** The state an operation leaves, whatever its completion. *)
Definition after {A} (m : M A) (s : St) : St :=
  match m s with
  | Some (_, s') => s'
  | None => s
  end.

Definition shallow : St := new_GitHub1sFS {| graphql := false; failures := 0 |}.
Definition deep : St := new_GitHub1sFS {| graphql := true; failures := 0 |}.

(** The provider after the root was listed, by either strategy. *)
Definition listed_shallow : St :=
  Eval vm_compute in after (readDirectory 2 (at_path "/")) shallow.
Definition listed_deep : St :=
  Eval vm_compute in after (readDirectory 2 (at_path "/")) deep.

(** A new provider, when the service rejects the next request. *)
Definition failing : St := new_GitHub1sFS {| graphql := false; failures := 1 |}.

(** What [parse] makes of [at_path p]. *)
Definition state_of (p : string) : UriState :=
  {| st_owner := "conwnet"; st_repo := "github1s"; st_branch := "master";
     st_path := p; st_uri := at_path p |}.

End Mock.

(** ** A host without repositories

    [parseUri] rejects every URI, whatever the world. *)
Module Offline.

Definition collaborators : Collaborators := {|
  World := unit;
  Date_now := fun _ => 0%Z;
  Uri_joinPath := Mock.joinPath;
  Uri_toString := Mock.toString;
  parseUri := fun _ w => (Rejected "no repository", w);
  isGraphQLEnabled := fun _ => false;
  apolloClient_query := fun _ _ _ w => (Rejected "offline", w);
  readGitHubDirectory := fun _ w => (Rejected "offline", w);
  readGitHubFile := fun _ _ w => (Rejected "offline", w);
  decodeBase64 := list_byte_of_string
|}.

End Offline.

(** ** A remote that inlines below the listed directory

    The deep strategy asks for the root of this repository and is answered
    with everything below it:
<<
      /docs/            tree, entries inlined
      /docs/guide.md      text, 5 bytes
      /docs/logo.png      binary
      /docs/api/          tree, entries inlined
      /docs/api/index.md    text, 3 bytes
      /docs/api/icon.ico    binary
      /vendor/          tree, nothing inlined
>>
    The rest is as in [Mock]. *)
Module Inlining.

Definition icon : GqlItem :=
  mkGqlItem "blob" "icon.ico" "sha-logo"
    (Some (mkGqlObject None (Some 4%Z) (Some true) js_null)).

Definition index : GqlItem :=
  mkGqlItem "blob" "index.md" "sha-index"
    (Some (mkGqlObject None (Some 3%Z) (Some false) (js_string "API"))).

Definition api : GqlItem :=
  mkGqlItem "tree" "api" "sha-api"
    (Some (mkGqlObject (Some [index; icon]) None None js_undefined)).

Definition guide : GqlItem :=
  mkGqlItem "blob" "guide.md" "sha-guide"
    (Some (mkGqlObject None (Some 5%Z) (Some false) (js_string "Guide"))).

Definition logo : GqlItem :=
  mkGqlItem "blob" "logo.png" "sha-logo"
    (Some (mkGqlObject None (Some 4%Z) (Some true) js_null)).

Definition docs : GqlItem :=
  mkGqlItem "tree" "docs" "sha-docs"
    (Some (mkGqlObject (Some [guide; logo; api]) None None js_undefined)).

Definition vendor : GqlItem := mkGqlItem "tree" "vendor" "sha-vendor" None.

Definition answer_root : list GqlItem := [docs; vendor].

Definition query (owner repo expression : string) : Settled GqlResponse :=
  if String.eqb expression "master:" then Resolved (Mock.respond (Some answer_root))
  else Resolved (Mock.respond None).

Definition collaborators : Collaborators := {|
  World := Mock.script;
  Date_now := fun _ => 0%Z;
  Uri_joinPath := Mock.joinPath;
  Uri_toString := Mock.toString;
  parseUri := Mock.parse;
  isGraphQLEnabled := Mock.graphql;
  apolloClient_query := fun owner repo expression =>
    Mock.answer (query owner repo expression);
  readGitHubDirectory := fun state => Mock.answer (Mock.listing state);
  readGitHubFile := fun state sha => Mock.answer (Mock.content state sha);
  decodeBase64 := list_byte_of_string
|}.

(** A new provider under the deep strategy, and the provider after the root
    was listed. *)
Definition deep : @St collaborators :=
  @new_GitHub1sFS collaborators {| Mock.graphql := true; Mock.failures := 0 |}.

Definition listed : @St collaborators :=
  Eval vm_compute in
    match @readDirectory collaborators 1 (Mock.at_path "/") deep with
    | Some (_, s') => s'
    | None => deep
    end.

End Inlining.

(** ** Calls in flight at the same time

    All operations run on one thread and are suspended only at the remote
    calls, so the calls in flight interleave as a sequence of events: a caller
    calls the wrapped function with a key, or the operation in flight under a
    key settles with an outcome. *)
Module InFlight.
Section Registry.
Context {V : Type}.

Inductive Outcome : Type :=
| Fulfilled (v : V)
| Failed (reason : string).

Inductive Event : Type :=
| Call (caller : nat) (key : string)
| Settle (key : string) (outcome : Outcome).

Record Reg : Type := mkReg {
  (** the callers that wait for the operation in flight, by key *)
  waiting : gmap string (list nat);
  (** the keys under which the wrapped function was started, in order *)
  started : list string;
  (** what the callers have received *)
  received : list (nat * Outcome)
}.

(** Modelled from the spec: [reuseable] of [./util] is not among the sources.
    The spec describes a registry from the canonical key to the operation in
    flight, entered before the remote call starts and removed when it settles;
    a caller that finds its key registered attaches to the outcome of the
    operation in flight instead of starting one, and all callers receive the
    same success value or the same failure. *)
Definition step (r : Reg) (e : Event) : Reg :=
  match e with
  | Call caller key =>
      match waiting r !! key with
      | Some callers =>
          {| waiting := <[key := callers ++ [caller]]> (waiting r);
             started := started r;
             received := received r |}
      | None =>
          {| waiting := <[key := [caller]]> (waiting r);
             started := started r ++ [key];
             received := received r |}
      end
  | Settle key outcome =>
      match waiting r !! key with
      | Some callers =>
          {| waiting := delete key (waiting r);
             started := started r;
             received := received r ++ map (fun caller => (caller, outcome)) callers |}
      | None => r
      end
  end.

Definition run (r : Reg) (events : list Event) : Reg := fold_left step events r.

(** The callers of [key] among the events, in order. *)
Fixpoint callers_of (key : string) (events : list Event) : list nat :=
  match events with
  | [] => []
  | Call caller k :: events' =>
      if String.eqb k key then caller :: callers_of key events'
      else callers_of key events'
  | Settle _ _ :: events' => callers_of key events'
  end.

(** No event settles the operation under [key]. *)
Fixpoint unsettled (key : string) (events : list Event) : bool :=
  match events with
  | [] => true
  | Call _ _ :: events' => unsettled key events'
  | Settle k _ :: events' => negb (String.eqb k key) && unsettled key events'
  end.

(** How often the wrapped function was started under [key]. *)
Definition starts (key : string) (r : Reg) : nat :=
  length (List.filter (String.eqb key) (started r)).

End Registry.
Arguments Outcome V : clear implicits.
Arguments Event V : clear implicits.
Arguments Reg V : clear implicits.
End InFlight.

(** * Properties *)

Section Facts.
Context `{C : Collaborators}.

(** ** The registry *)

Lemma remove_key_absent key keys :
  existsb (String.eqb key) keys = false -> remove_key key keys = keys.
Proof.
  induction keys as [|k keys IH]; simpl; [done|].
  intros H. apply orb_false_iff in H as [Hk Hks].
  rewrite String.eqb_sym, Hk. simpl. by rewrite IH.
Qed.

(** An operation that leaves the registry alone runs under [reuseable] as it
    runs by itself, when its key is not in flight. *)
Lemma reuseable_run {A} r (func : M A) key s c s' :
  existsb (String.eqb key) (inflight r s) = false ->
  func (with_inflight r (key :: inflight r s) s)
    = Some (c, with_inflight r (key :: inflight r s) s') ->
  inflight r s' = inflight r s ->
  reuseable r func key s = Some (c, s').
Proof.
  intros Hkey Hrun Hsame. unfold reuseable. rewrite Hkey, Hrun.
  do 2 f_equal.
  destruct r, s'; simpl in *; rewrite String.eqb_refl; simpl;
    rewrite Hsame, (remove_key_absent _ _ Hkey), <- Hsame; reflexivity.
Qed.

(** ** Lookup through populated directories *)

Lemma lookup_for_follow rd state silent h parts : forall entry l s,
  heap s = h ->
  follow h entry parts = Some l ->
  _lookup_for rd state silent entry parts s = Some (Return (Some l), s).
Proof.
  induction parts as [|part parts IH]; intros entry l s Hh Hf; simpl in *.
  - by inversion Hf.
  - unfold bind, deref. rewrite Hh.
    destruct (h !! entry) as [[f|d]|] eqn:He; try done.
    destruct (dir_entries d) as [map|] eqn:Hd; try done.
    destruct (map_get part map) as [child|] eqn:Hm; try done.
    simpl. rewrite Hh, He, Hd. simpl. rewrite Hm. by apply IH.
Qed.

Lemma follow_app h parts parts' : forall entry l,
  follow h entry parts = Some l ->
  follow h entry (parts ++ parts') = follow h l parts'.
Proof.
  induction parts as [|part parts IH]; intros entry l Hf; simpl in *.
  - by inversion Hf.
  - destruct (h !! entry) as [[f|d]|]; try done.
    destruct (dir_entries d) as [map|]; try done.
    destruct (map_get part map) as [child|]; try done.
    by apply IH.
Qed.

(** The loop, once the segments [parts] have led to [l]. *)
Lemma lookup_for_app rd state silent h parts parts' : forall entry l s,
  heap s = h ->
  follow h entry parts = Some l ->
  _lookup_for rd state silent entry (parts ++ parts') s
    = _lookup_for rd state silent l parts' s.
Proof.
  induction parts as [|part parts IH]; intros entry l s Hh Hf; simpl in *.
  - by inversion Hf.
  - destruct (h !! entry) as [[f|d]|] eqn:He; try done.
    destruct (dir_entries d) as [map|] eqn:Hd; try done.
    destruct (map_get part map) as [child|] eqn:Hm; try done.
    unfold bind, deref. rewrite Hh, He, Hd. simpl.
    rewrite Hh, He, Hd. simpl. rewrite Hm. by apply IH.
Qed.

Lemma lookup_root rd state silent s r :
  root s = Some r ->
  _lookup rd state silent s
    = _lookup_for rd state silent r (parts_of (st_path state)) s.
Proof. intros Hr. unfold _lookup, bind, get. rewrite Hr. reflexivity. Qed.

Lemma lookup_resolve rd state silent s l :
  resolve s (st_path state) = Some l ->
  _lookup rd state silent s = Some (Return (Some l), s).
Proof.
  unfold resolve. destruct (root s) as [r|] eqn:Hr; [|done]. intros Hf.
  rewrite (lookup_root _ _ _ _ _ Hr). by eapply lookup_for_follow.
Qed.

(** A segment that is not among the children of a populated directory. *)
Lemma lookup_for_absent rd state silent s entry d map part rest :
  heap s !! entry = Some (EDirectory d) ->
  dir_entries d = Some map ->
  map_get part map = None ->
  _lookup_for rd state silent entry (part :: rest) s
    = Some (if silent then Return None else Throw (FileNotFound (st_uri state)), s).
Proof.
  intros He Hd Hm. simpl. unfold bind, deref. rewrite He, Hd. simpl.
  rewrite He, Hd. simpl. rewrite Hm. by destruct silent.
Qed.

(** A segment below a file. *)
Lemma lookup_for_file rd state silent s entry f part rest :
  heap s !! entry = Some (EFile f) ->
  _lookup_for rd state silent entry (part :: rest) s
    = Some (if silent then Return None else Throw (FileNotFound (st_uri state)), s).
Proof.
  intros He. simpl. unfold bind, deref. rewrite He. simpl. by destruct silent.
Qed.

Lemma lookup_stops rd state silent s entry :
  stops_at s (st_path state) entry ->
  _lookup rd state silent s
    = Some (if silent then Return None else Throw (FileNotFound (st_uri state)), s).
Proof.
  intros (r & walked & part & rest & Hr & Hparts & Hf & He).
  rewrite (lookup_root _ _ _ _ _ Hr), Hparts.
  rewrite (lookup_for_app _ _ _ (heap s) walked _ r entry s eq_refl Hf).
  destruct (heap s !! entry) as [[f|d]|] eqn:Hentry; [| |done].
  - by eapply lookup_for_file.
  - destruct (dir_entries d) as [map|] eqn:Hd; [|done].
    by eapply lookup_for_absent.
Qed.

(** ** The wrappers *)

Lemma lookupAsDirectory_directory rd state silent s l d :
  resolve s (st_path state) = Some l ->
  heap s !! l = Some (EDirectory d) ->
  _lookupAsDirectory rd state silent s = Some (Return (Some l), s).
Proof.
  intros Hl He. unfold _lookupAsDirectory, bind.
  rewrite (lookup_resolve _ _ _ _ _ Hl). simpl. unfold bind, deref.
  by rewrite He.
Qed.

Lemma lookupAsDirectory_file rd state silent s l f :
  resolve s (st_path state) = Some l ->
  heap s !! l = Some (EFile f) ->
  _lookupAsDirectory rd state silent s
    = Some (if silent then Return None
            else Throw (FileNotADirectory (st_uri state)), s).
Proof.
  intros Hl He. unfold _lookupAsDirectory, bind.
  rewrite (lookup_resolve _ _ _ _ _ Hl). simpl. unfold bind, deref.
  rewrite He. by destruct silent.
Qed.

Lemma lookupAsFile_file rd state silent s l f :
  resolve s (st_path state) = Some l ->
  heap s !! l = Some (EFile f) ->
  _lookupAsFile rd state silent s = Some (Return (Some l), s).
Proof.
  intros Hl He. unfold _lookupAsFile, bind.
  rewrite (lookup_resolve _ _ _ _ _ Hl). simpl. unfold bind, deref.
  by rewrite He.
Qed.

Lemma lookupAsFile_directory rd state silent s l d :
  resolve s (st_path state) = Some l ->
  heap s !! l = Some (EDirectory d) ->
  _lookupAsFile rd state silent s
    = Some (if silent then Return None
            else Throw (FileIsADirectory (st_uri state)), s).
Proof.
  intros Hl He. unfold _lookupAsFile, bind.
  rewrite (lookup_resolve _ _ _ _ _ Hl). simpl. unfold bind, deref.
  rewrite He. by destruct silent.
Qed.

Lemma lookupAsDirectory_stops rd state silent s entry :
  stops_at s (st_path state) entry ->
  _lookupAsDirectory rd state silent s
    = Some (if silent then Return None else Throw (FileNotFound (st_uri state)), s).
Proof.
  intros H. unfold _lookupAsDirectory, bind.
  rewrite (lookup_stops _ _ _ _ _ H). by destruct silent.
Qed.

Lemma lookupAsFile_stops rd state silent s entry :
  stops_at s (st_path state) entry ->
  _lookupAsFile rd state silent s
    = Some (if silent then Return None else Throw (FileNotFound (st_uri state)), s).
Proof.
  intros H. unfold _lookupAsFile, bind.
  rewrite (lookup_stops _ _ _ _ _ H). by destruct silent.
Qed.

(** ** [readFile] *)

Lemma readFile_func_present rd uri s state w l f data :
  String.eqb (uri_authority uri) "" = false ->
  parseUri uri (world s) = (Resolved state, w) ->
  resolve s (st_path state) = Some l ->
  heap s !! l = Some (EFile f) ->
  file_data f = Some data ->
  readFile_func rd uri s = Some (Return data, with_world w s).
Proof.
  intros Ha Hp Hl He Hd. unfold readFile_func.
  rewrite Ha. unfold bind at 1, await_parseUri.
  rewrite Hp. simpl. unfold bind at 1.
  erewrite lookupAsFile_file; [|exact Hl|exact He].
  unfold bind, deref. simpl. by rewrite He, Hd.
Qed.

Lemma readFile_func_absent rd uri s state w l f :
  String.eqb (uri_authority uri) "" = false ->
  parseUri uri (world s) = (Resolved state, w) ->
  resolve s (st_path state) = Some l ->
  heap s !! l = Some (EFile f) ->
  file_data f = None ->
  readFile_func rd uri s =
    let '(blob, w') := readGitHubFile state (file_sha f) w in
    let s' := with_calls (calls s ++ [CallFile state (file_sha f)]) (with_world w' s) in
    match blob with
    | Resolved b =>
        Some (Return (decodeBase64 (blob_content b)),
              with_heap (alter (set_data (Some (decodeBase64 (blob_content b)))) l (heap s)) s')
    | Rejected reason => Some (Throw (RemoteFailure reason), s')
    end.
Proof.
  intros Ha Hp Hl He Hd. unfold readFile_func.
  rewrite Ha. unfold bind at 1, await_parseUri.
  rewrite Hp. simpl. unfold bind at 1.
  erewrite lookupAsFile_file; [|exact Hl|exact He].
  unfold bind, deref, await_remote. simpl. rewrite He, Hd. simpl.
  destruct (readGitHubFile state (file_sha f) w) as [[b|reason] w']; reflexivity.
Qed.

Lemma readFile_present fuel uri s state w l f data :
  String.eqb (uri_authority uri) "" = false ->
  idle registry_readFile (Uri_toString uri) s ->
  parseUri uri (world s) = (Resolved state, w) ->
  resolve s (st_path state) = Some l ->
  heap s !! l = Some (EFile f) ->
  file_data f = Some data ->
  readFile fuel uri s = Some (Return data, with_world w s).
Proof.
  intros Ha Hi Hp Hl He Hd. unfold readFile.
  apply reuseable_run; [exact Hi| |reflexivity].
  by erewrite readFile_func_present.
Qed.

Lemma readFile_absent fuel uri s state w l f :
  String.eqb (uri_authority uri) "" = false ->
  idle registry_readFile (Uri_toString uri) s ->
  parseUri uri (world s) = (Resolved state, w) ->
  resolve s (st_path state) = Some l ->
  heap s !! l = Some (EFile f) ->
  file_data f = None ->
  readFile fuel uri s =
    let '(blob, w') := readGitHubFile state (file_sha f) w in
    let s' := with_calls (calls s ++ [CallFile state (file_sha f)]) (with_world w' s) in
    match blob with
    | Resolved b =>
        Some (Return (decodeBase64 (blob_content b)),
              with_heap (alter (set_data (Some (decodeBase64 (blob_content b)))) l (heap s)) s')
    | Rejected reason => Some (Throw (RemoteFailure reason), s')
    end.
Proof.
  intros Ha Hi Hp Hl He Hd. unfold readFile.
  pose proof (readFile_func_absent (readDirectory fuel) uri
                (with_inflight registry_readFile
                   (Uri_toString uri :: inflight registry_readFile s) s)
                state w l f Ha Hp Hl He Hd) as Hrun.
  destruct (readGitHubFile state (file_sha f) w) as [[b|reason] w'];
    (apply reuseable_run; [exact Hi|exact Hrun|reflexivity]).
Qed.

(** ** Maps *)

Lemma map_get_set_eq k v m : map_get k (map_set k v m) = Some v.
Proof.
  induction m as [|[k' v'] m IH]; simpl.
  - by rewrite String.eqb_refl.
  - destruct (String.eqb k k') eqn:E; simpl; rewrite ?String.eqb_refl, ?E; done.
Qed.

Lemma map_get_set_ne k k' v m : k <> k' -> map_get k' (map_set k v m) = map_get k' m.
Proof.
  intros Hne. induction m as [|[k0 v0] m IH]; simpl.
  - apply String.eqb_neq in Hne. by rewrite String.eqb_sym, Hne.
  - destruct (String.eqb k k0) eqn:E; simpl.
    + apply String.eqb_eq in E as <-.
      apply String.eqb_neq in Hne. by rewrite String.eqb_sym, Hne.
    + by rewrite IH.
Qed.

Lemma map_values_set k v m x :
  x ∈ map_values (map_set k v m) -> x = v \/ x ∈ map_values m.
Proof.
  unfold map_values. induction m as [|[k' v'] m IH]; simpl.
  - intros H. apply list_elem_of_singleton in H. by left.
  - destruct (String.eqb k k'); simpl; intros H;
      apply elem_of_cons in H as [H|H]; auto.
    + right. by apply elem_of_cons; right.
    + right. by apply elem_of_cons; left.
    + destruct (IH H) as [?|?]; auto. right. by apply elem_of_cons; right.
Qed.

(** ** [entriesToMap] *)

Lemma forEach_fix now uri items : forall acc,
  (fix forEach (items : list GqlItem) (acc : JsMap * list Entry) :=
     match items with
     | [] => acc
     | i :: items' => forEach items' (entriesToMap_forEach now uri i acc)
     end) items acc = forEach now uri items acc.
Proof. induction items as [|i items IH]; intros acc; simpl; [done|apply IH]. Qed.

(** The callback in the shape of the source: a directory gets the result of
    [entriesToMap] on its inlined entries, a file its inlined text unless the
    blob is binary. *)
Lemma entriesToMap_forEach_eq now uri item map h :
  entriesToMap_forEach now uri item (map, h) =
    let entry := length h in
    if String.eqb (item_type item) "tree" then
      let '(sub, h2) :=
        entriesToMap now (item_entries item) (Uri_joinPath uri (item_name item))
          (h ++ [EDirectory (new_Directory now uri (item_name item)
                   (Some (mkOptions (Some (item_oid item)) None None)))]) in
      (map_set (item_name item) entry map, alter (set_entries sub) entry h2)
    else
      (map_set (item_name item) entry map, h ++ [EFile (File_of_item now uri item)]).
Proof.
  destruct item as [type name oid object]. unfold item_entries. simpl.
  destruct (String.eqb type "tree"); [|reflexivity].
  assert (Hfresh : forall o,
    alter (set_entries None) (length h)
      (h ++ [EDirectory (new_Directory now uri name o)])
    = h ++ [EDirectory (new_Directory now uri name o)]).
  { intros o. rewrite alter_app_r_alt by lia.
    by replace (length h - length h) with 0 by lia. }
  destruct object as [o|]; simpl; [|by rewrite Hfresh].
  destruct (obj_entries o) as [entries|]; simpl; [|by rewrite Hfresh].
  rewrite forEach_fix. unfold forEach.
  by destruct (fold_left _ entries _).
Qed.

(** The callback allocates above the store it is given and leaves that store
    as it is. *)
Lemma entriesToMap_forEach_prefix now : forall item uri map h,
  h `prefix_of` (entriesToMap_forEach now uri item (map, h)).2 /\
  length h < length (entriesToMap_forEach now uri item (map, h)).2.
Proof.
  fix IH 1. intros [type name oid object] uri map h. simpl.
  destruct (String.eqb type "tree").
  2: { simpl. split; [by apply prefix_app_r|rewrite length_app; simpl; lia]. }
  match goal with |- context [h ++ [?e]] => set (h1 := h ++ [e]) end.
  assert (Hh1 : h `prefix_of` h1 /\ length h < length h1).
  { subst h1. split; [by apply prefix_app_r|rewrite length_app; simpl; lia]. }
  destruct object as [[entries bs ib tx]|]; [|exact Hh1]. simpl.
  destruct entries as [entries|]; [|exact Hh1].
  match goal with |- context [?F entries ([], h1)] =>
    assert (Hsub : forall acc : JsMap * list Entry,
              acc.2 `prefix_of` (F entries acc).2 /\
              length acc.2 <= length (F entries acc).2)
  end.
  { induction entries as [|i entries IHe]; intros acc; simpl; [done|].
    destruct acc as [m' h'].
    destruct (IH i (Uri_joinPath uri name) m' h') as [Hp Hl].
    destruct (IHe (entriesToMap_forEach now (Uri_joinPath uri name) i (m', h')))
      as [Hp' Hl'].
    simpl in *. split; [by etrans|lia]. }
  specialize (Hsub ([], h1)).
  match goal with |- context [?F entries ([], h1)] =>
    destruct (F entries ([], h1)) as [sub h2] end.
  simpl in *. destruct Hh1 as [[k ->] Hlen], Hsub as [[k' ->] Hlen'].
  rewrite length_alter. split; [|rewrite !length_app in *; simpl in *; lia].
  rewrite <- app_assoc, alter_app_r_alt by lia. by apply prefix_app_r.
Qed.

Lemma entriesToMap_forEach_map now uri item map h :
  (entriesToMap_forEach now uri item (map, h)).1
    = map_set (item_name item) (length h) map.
Proof.
  rewrite entriesToMap_forEach_eq. simpl.
  destruct (String.eqb (item_type item) "tree"); [|reflexivity].
  by destruct (entriesToMap _ _ _ _).
Qed.

Lemma forEach_prefix now uri items : forall map h,
  h `prefix_of` (forEach now uri items (map, h)).2.
Proof.
  induction items as [|i items IH]; intros map h; simpl; [done|].
  destruct (entriesToMap_forEach now uri i (map, h)) as [m' h'] eqn:E.
  etrans; [|apply IH].
  pose proof (entriesToMap_forEach_prefix now i uri map h) as [Hp _].
  by rewrite E in Hp.
Qed.

(** Every value of the map that is built is an object of the store that is
    built. *)
Lemma forEach_values now uri items : forall map h,
  (forall v, v ∈ map_values map -> v < length h) ->
  forall v, v ∈ map_values (forEach now uri items (map, h)).1 ->
            v < length (forEach now uri items (map, h)).2.
Proof.
  induction items as [|i items IH]; intros map h Hmap; simpl; [exact Hmap|].
  pose proof (entriesToMap_forEach_prefix now i uri map h) as [_ Hlen].
  pose proof (entriesToMap_forEach_map now uri i map h) as Hm.
  destruct (entriesToMap_forEach now uri i (map, h)) as [m' h'].
  simpl in *. subst m'. apply IH. intros v Hv.
  destruct (map_values_set _ _ _ _ Hv) as [->|Hin]; [done|].
  specialize (Hmap v Hin). lia.
Qed.

(** A key that no later item carries keeps its value. *)
Lemma forEach_get now uri items k : forall m h,
  k ∉ map item_name items ->
  map_get k (forEach now uri items (m, h)).1 = map_get k m.
Proof.
  induction items as [|i items IH]; intros m h Hk; simpl; [done|].
  pose proof (entriesToMap_forEach_map now uri i m h) as Hm.
  destruct (entriesToMap_forEach now uri i (m, h)) as [m' h'].
  simpl in *. subst m'. rewrite IH.
  - apply map_get_set_ne. intros Heq. apply Hk. apply elem_of_cons. by left.
  - intros Hin. apply Hk. by apply elem_of_cons; right.
Qed.

Lemma forEach_app now uri items items' acc :
  forEach now uri (items ++ items') acc
    = forEach now uri items' (forEach now uri items acc).
Proof. unfold forEach. by rewrite fold_left_app. Qed.

(** The last item of a name that is not a tree is the file under that name. *)
Lemma forEach_file now uri before item after h :
  String.eqb (item_type item) "tree" = false ->
  item_name item ∉ map item_name after ->
  exists child,
    map_get (item_name item) (forEach now uri (before ++ item :: after) ([], h)).1
      = Some child /\
    (forEach now uri (before ++ item :: after) ([], h)).2 !! child
      = Some (EFile (File_of_item now uri item)) /\
    length h <= child.
Proof.
  intros Htype Hlast. rewrite forEach_app. simpl.
  destruct (forEach now uri before ([], h)) as [m1 h1] eqn:E.
  assert (Hpre : h `prefix_of` h1).
  { pose proof (forEach_prefix now uri before [] h) as H. by rewrite E in H. }
  exists (length h1).
  pose proof (forEach_get now uri after (item_name item)) as Hget.
  pose proof (forEach_prefix now uri after) as Hpost.
  rewrite entriesToMap_forEach_eq in *. simpl. rewrite Htype.
  rewrite (Hget _ _ Hlast), map_get_set_eq. split; [done|]. split.
  - eapply prefix_lookup_Some; [|apply Hpost].
    rewrite lookup_app_r by lia.
    by replace (length h1 - length h1) with 0 by lia.
  - exact (prefix_length _ _ Hpre).
Qed.

Lemma nameTypePairs_total h map :
  (forall v, v ∈ map_values map -> v < length h) ->
  is_Some (nameTypePairs h map).
Proof.
  intros Hv. unfold nameTypePairs. apply mapM_is_Some, Forall_forall.
  intros l Hl. destruct (lookup_lt_is_Some_2 h l (Hv l Hl)) as [e He].
  unfold compose. rewrite He. by eexists.
Qed.

(** ** Paths survive population *)

Lemma follow_keeps h h' :
  keeps_populated h h' ->
  forall parts entry l, follow h entry parts = Some l -> follow h' entry parts = Some l.
Proof.
  intros Hk. induction parts as [|part parts IH]; intros entry l; simpl; [done|].
  destruct (h !! entry) as [[f|d]|] eqn:He; try done.
  destruct (dir_entries d) as [m|] eqn:Hd; try done.
  destruct (Hk _ _ _ He Hd) as (d' & -> & ->).
  destruct (map_get part m); [apply IH|done].
Qed.

Lemma keeps_set_data h l b : keeps_populated h (alter (set_data b) l h).
Proof.
  intros x d m Hx Hd. destruct (decide (l = x)) as [->|Hne].
  - exists d. rewrite list_lookup_alter_eq, Hx. done.
  - exists d. by rewrite list_lookup_alter_ne.
Qed.

Lemma keeps_set_entries h l d m :
  h !! l = Some (EDirectory d) -> dir_entries d = None ->
  keeps_populated h (alter (set_entries m) l h).
Proof.
  intros Hl Hnone x d' m' Hx Hd. destruct (decide (l = x)) as [->|Hne].
  - congruence.
  - exists d'. by rewrite list_lookup_alter_ne.
Qed.

Lemma keeps_prefix h h' : h `prefix_of` h' -> keeps_populated h h'.
Proof.
  intros Hp x d m Hx Hd. exists d. split; [|done].
  by eapply prefix_lookup_Some.
Qed.

Lemma keeps_trans h1 h2 h3 :
  keeps_populated h1 h2 -> keeps_populated h2 h3 -> keeps_populated h1 h3.
Proof.
  intros H12 H23 x d m Hx Hd.
  destruct (H12 _ _ _ Hx Hd) as (d' & Hx' & Hd'). eauto.
Qed.

(** ** [readDirectory] *)

Lemma readDirectory_func_present rd uri s state w l d map pairs :
  String.eqb (uri_authority uri) "" = false ->
  parseUri uri (world s) = (Resolved state, w) ->
  resolve s (st_path state) = Some l ->
  heap s !! l = Some (EDirectory d) ->
  dir_entries d = Some map ->
  nameTypePairs (heap s) map = Some pairs ->
  readDirectory_func rd uri s = Some (Return pairs, with_world w s).
Proof.
  intros Ha Hp Hl He Hd Hpairs. unfold readDirectory_func.
  rewrite Ha. unfold bind at 1, await_parseUri.
  rewrite Hp. simpl. unfold bind at 1.
  erewrite lookupAsDirectory_directory; [|exact Hl|exact He].
  unfold bind, deref, getNameTypePairs. simpl. rewrite He, Hd. simpl.
  rewrite He, Hd. simpl. by rewrite Hpairs.
Qed.

(** *** The root *)

Lemma ensure_root_rooted state s r : root s = Some r -> ensure_root state s = s.
Proof. intros Hr. unfold ensure_root. by rewrite Hr. Qed.

Lemma ensure_root_calls state s : calls (ensure_root state s) = calls s.
Proof. unfold ensure_root. by destruct (root s). Qed.

Lemma ensure_root_world state s : world (ensure_root state s) = world s.
Proof. unfold ensure_root. by destruct (root s). Qed.

Lemma ensure_root_inflight state s r :
  inflight r (ensure_root state s) = inflight r s.
Proof. unfold ensure_root. by destruct r, (root s). Qed.

Lemma ensure_root_with_inflight state r keys s :
  ensure_root state (with_inflight r keys s)
    = with_inflight r keys (ensure_root state s).
Proof.
  unfold ensure_root.
  destruct r; simpl; destruct (root s) eqn:Hr; simpl; rewrite ?Hr; reflexivity.
Qed.

Lemma idle_after r key s s' : inflight r s' = inflight r s -> idle r key s -> idle r key s'.
Proof. unfold idle. by intros ->. Qed.

Lemma resolve_root s path l : resolve s path = Some l -> exists r, root s = Some r.
Proof. unfold resolve. destruct (root s); [eauto|done]. Qed.

Lemma lookup_ensure_root rd state silent s l :
  resolve (ensure_root state s) (st_path state) = Some l ->
  _lookup rd state silent s = Some (Return (Some l), ensure_root state s).
Proof.
  unfold ensure_root, resolve. destruct (root s) as [r|] eqn:Hr.
  - rewrite Hr. intros Hf. rewrite (lookup_root _ _ _ _ _ Hr).
    by eapply lookup_for_follow.
  - simpl. intros Hf. unfold _lookup, bind, get, now, alloc, modify.
    rewrite Hr. simpl. by eapply lookup_for_follow.
Qed.

Lemma lookupAsDirectory_ensure_root rd state silent s l d :
  resolve (ensure_root state s) (st_path state) = Some l ->
  heap (ensure_root state s) !! l = Some (EDirectory d) ->
  _lookupAsDirectory rd state silent s = Some (Return (Some l), ensure_root state s).
Proof.
  intros Hl He. unfold _lookupAsDirectory, bind.
  rewrite (lookup_ensure_root _ _ _ _ _ Hl). simpl. unfold bind, deref.
  by rewrite He.
Qed.

(** A listing that finds the entries of its directory to be [null] goes on
    to the request, in the provider that has its root. *)
Lemma readDirectory_func_unpopulated rd uri s state w l d :
  String.eqb (uri_authority uri) "" = false ->
  parseUri uri (world s) = (Resolved state, w) ->
  resolve (ensure_root state (with_world w s)) (st_path state) = Some l ->
  heap (ensure_root state (with_world w s)) !! l = Some (EDirectory d) ->
  dir_entries d = None ->
  readDirectory_func rd uri s
    = readDirectory_fetch uri state l (ensure_root state (with_world w s)).
Proof.
  intros Ha Hp Hl He Hd. unfold readDirectory_func.
  rewrite Ha. unfold bind at 1, await_parseUri.
  rewrite Hp. simpl. unfold bind at 1.
  erewrite lookupAsDirectory_ensure_root; [|exact Hl|exact He].
  unfold bind, deref. by rewrite He, Hd.
Qed.

Lemma readDirectory_fetch_failure uri state parent s e w' :
  population_failure uri state (world s) = Some (e, w') ->
  readDirectory_fetch uri state parent s =
    Some (Throw e, with_calls (calls s ++ [population_request state (world s)])
                     (with_world w' s)).
Proof.
  unfold population_failure, population_request, readDirectory_fetch.
  unfold bind, get, await_remote. simpl.
  destruct (isGraphQLEnabled (world s)).
  - destruct (apolloClient_query _ _ _ _) as [[response|reason] w1]; simpl.
    + destruct (response_entries response); [done|]. by intros [= <- <-].
    + by intros [= <- <-].
  - destruct (readGitHubDirectory _ _) as [[data|reason] w1]; simpl; [done|].
    by intros [= <- <-].
Qed.

Lemma forEach_parent now uri entries h parent d :
  h !! parent = Some (EDirectory d) ->
  alter (set_entries (Some (forEach now uri entries ([], h)).1)) parent
    (forEach now uri entries ([], h)).2 !! parent
  = Some (EDirectory (with_entries d (Some (forEach now uri entries ([], h)).1))).
Proof.
  intros Hp. rewrite list_lookup_alter_eq.
  by rewrite (prefix_lookup_Some _ _ _ _ Hp (forEach_prefix now uri entries [] h)).
Qed.

Lemma readDirectory_fetch_deep uri state parent s d response w' entries :
  heap s !! parent = Some (EDirectory d) ->
  isGraphQLEnabled (world s) = true ->
  apolloClient_query (st_owner state) (st_repo state)
    (st_branch state +:+ ":" +:+ substring1 (st_path state)) (world s)
    = (Resolved response, w') ->
  response_entries response = Some entries ->
  exists pairs,
    readDirectory_fetch uri state parent s =
      Some (Return pairs,
            with_heap
              (alter (set_entries (Some (forEach (Date_now w') uri entries ([], heap s)).1))
                 parent (forEach (Date_now w') uri entries ([], heap s)).2)
              (with_calls (calls s ++ [population_request state (world s)])
                 (with_world w' s))).
Proof.
  intros Hp Hflag Hq Hentries.
  unfold population_request, readDirectory_fetch.
  unfold bind, get, await_remote, now, modify, update, getNameTypePairs.
  simpl. rewrite Hflag, Hq. simpl. rewrite Hentries. simpl.
  fold (forEach (Date_now w') uri entries ([], heap s)).
  pose proof (forEach_parent (Date_now w') uri entries (heap s) parent d Hp) as Hparent.
  pose proof (forEach_values (Date_now w') uri entries [] (heap s)) as Hvalues.
  destruct (forEach (Date_now w') uri entries ([], heap s)) as [map h] eqn:E.
  simpl in *. rewrite Hparent. simpl.
  destruct (nameTypePairs_total (alter (set_entries (Some map)) parent h) map)
    as [pairs Hpairs].
  { intros v Hv. rewrite length_alter. apply Hvalues; [|done].
    intros v' Hv'. by apply elem_of_nil in Hv'. }
  exists pairs. by rewrite Hpairs.
Qed.

Lemma readDirectory_fetch_empty uri state parent s d w' :
  heap s !! parent = Some (EDirectory d) ->
  population_children state (world s) = Some (0, w') ->
  readDirectory_fetch uri state parent s =
    Some (Return [],
          with_heap (alter (set_entries (Some [])) parent (heap s))
            (with_calls (calls s ++ [population_request state (world s)])
               (with_world w' s))).
Proof.
  intros Hp. unfold population_children, population_request, readDirectory_fetch.
  unfold bind, get, await_remote, now, modify, update, getNameTypePairs.
  simpl. destruct (isGraphQLEnabled (world s)).
  - destruct (apolloClient_query _ _ _ _) as [[response|reason] w1]; simpl; [|done].
    destruct (response_entries response) as [[|i entries]|]; [|done..].
    intros [= <-]. simpl. rewrite list_lookup_alter_eq, Hp. reflexivity.
  - destruct (readGitHubDirectory _ _) as [[[tree] |reason] w1]; simpl; [|done].
    destruct tree; [|done]. by intros [= <-].
Qed.

Lemma readDirectory_map_settles uri parent tree : forall s,
  exists s',
    readDirectory_map uri parent tree s =
      Some (Return (map (fun item =>
                      (rest_path item,
                       if String.eqb (rest_type item) "tree"
                       then FileType_Directory else FileType_File)) tree), s') /\
    calls s' = calls s /\ root s' = root s /\ world s' = world s /\
    forall r, inflight r s' = inflight r s.
Proof.
  induction tree as [|item tree IH]; intros s; simpl.
  - exists s. by repeat split.
  - unfold bind at 1 2 3, now, alloc, update, modify. simpl.
    match goal with |- context [bind (readDirectory_map uri parent tree) _ ?s1] =>
      destruct (IH s1) as (s' & Hrun & Hc & Hr & Hw & Hi) end.
    exists s'. unfold bind. rewrite Hrun. split; [reflexivity|].
    simpl in *. repeat split; try done.
Qed.

(** Listing a directory whose entries are [null] settles, and sends exactly
    one request. *)
Lemma readDirectory_fetch_settles uri state parent s d :
  heap s !! parent = Some (EDirectory d) ->
  exists c s',
    readDirectory_fetch uri state parent s = Some (c, s') /\
    calls s' = calls s ++ [population_request state (world s)] /\
    root s' = root s /\
    forall r, inflight r s' = inflight r s.
Proof.
  intros Hp.
  destruct (population_failure uri state (world s)) as [[e w']|] eqn:Hfail.
  { eexists _, _. split; [by apply readDirectory_fetch_failure|].
    repeat split; try done; try (intros r; by destruct r). }
  unfold population_failure in Hfail.
  destruct (isGraphQLEnabled (world s)) eqn:Hflag.
  - destruct (apolloClient_query _ _ _ _) as [[response|reason] w'] eqn:Hq; [|done].
    destruct (response_entries response) as [entries|] eqn:He; [|done].
    destruct (readDirectory_fetch_deep uri state parent s d response w' entries
                Hp Hflag Hq He) as [pairs Hrun].
    eexists _, _. split; [exact Hrun|].
    repeat split; try done; try (intros r; by destruct r).
  - destruct (readGitHubDirectory state (world s)) as [[data|reason] w'] eqn:Hq; [|done].
    unfold readDirectory_fetch, population_request.
    unfold bind at 1, get. simpl. rewrite Hflag.
    unfold bind at 1, await_remote. simpl. rewrite Hq. simpl.
    unfold bind at 1, update, modify. simpl.
    match goal with |- context [readDirectory_map uri parent _ ?s1] =>
      destruct (readDirectory_map_settles uri parent (rest_tree data) s1)
        as (s' & Hrun & Hc & Hr & Hw & Hi) end.
    eexists _, s'. unfold bind. rewrite Hrun. split; [reflexivity|].
    simpl in *. repeat split; try done; try congruence.
Qed.

Lemma readDirectory_present fuel uri s state w l d map pairs :
  String.eqb (uri_authority uri) "" = false ->
  idle registry_readDirectory (Uri_toString uri) s ->
  parseUri uri (world s) = (Resolved state, w) ->
  resolve s (st_path state) = Some l ->
  heap s !! l = Some (EDirectory d) ->
  dir_entries d = Some map ->
  nameTypePairs (heap s) map = Some pairs ->
  readDirectory (S fuel) uri s = Some (Return pairs, with_world w s).
Proof.
  intros Ha Hi Hp Hl He Hd Hpairs. simpl.
  apply reuseable_run; [exact Hi| |reflexivity].
  by erewrite readDirectory_func_present.
Qed.

(** The request and the population do not look at the registries. *)
Lemma readDirectory_map_frame uri parent r keys tree : forall s,
  readDirectory_map uri parent tree (with_inflight r keys s) =
    match readDirectory_map uri parent tree s with
    | Some (c, s') => Some (c, with_inflight r keys s')
    | None => None
    end.
Proof.
  induction tree as [|item tree IH]; intros s; simpl; [reflexivity|].
  unfold bind, now, alloc, update, modify.
  destruct r; simpl.
  - match goal with
    | |- match readDirectory_map _ _ _ ?a with _ => _ end =
         match match readDirectory_map _ _ _ ?b with _ => _ end with _ => _ end =>
        change a with (with_inflight registry_readDirectory keys b);
        rewrite IH;
        destruct (readDirectory_map uri parent tree b) as [[[pairs|e] s']|]
    end; reflexivity.
  - match goal with
    | |- match readDirectory_map _ _ _ ?a with _ => _ end =
         match match readDirectory_map _ _ _ ?b with _ => _ end with _ => _ end =>
        change a with (with_inflight registry_readFile keys b);
        rewrite IH;
        destruct (readDirectory_map uri parent tree b) as [[[pairs|e] s']|]
    end; reflexivity.
Qed.

Lemma readDirectory_fetch_frame uri state parent r keys s :
  readDirectory_fetch uri state parent (with_inflight r keys s) =
    match readDirectory_fetch uri state parent s with
    | Some (c, s') => Some (c, with_inflight r keys s')
    | None => None
    end.
Proof.
  unfold readDirectory_fetch, bind, get, await_remote, now, modify, update,
    getNameTypePairs, entriesToMap.
  assert (Hworld : forall h r w c i1 i2, world (mkSt C h r w c i1 i2) = w)
    by reflexivity.
  assert (Hcalls : forall h r w c i1 i2, calls (mkSt C h r w c i1 i2) = c)
    by reflexivity.
  destruct r; simpl;
    (destruct (isGraphQLEnabled (world s)); rewrite ?Hworld, ?Hcalls;
     [ destruct (apolloClient_query _ _ _ (world s)) as [[response|reason] w'];
         simpl; [|reflexivity];
       destruct (response_entries response) as [entries|]; simpl; [|reflexivity];
       destruct (forEach (Date_now w') uri entries ([], heap s)) as [built h]; simpl;
       destruct (alter (set_entries (Some built)) parent h !! parent) as [[f|d]|];
         try reflexivity;
       destruct (nameTypePairs _ _); reflexivity
     | destruct (readGitHubDirectory state (world s)) as [[data|reason] w'];
         simpl; [|reflexivity];
       match goal with
       | |- readDirectory_map _ _ _ ?a =
            match readDirectory_map _ _ _ ?b with _ => _ end =>
           first [ change a with (with_inflight registry_readDirectory keys b)
                 | change a with (with_inflight registry_readFile keys b) ]
       end;
       apply readDirectory_map_frame ]).
Qed.

(** *** Under [reuseable] *)

(** A listing of a directory whose entries are [null] is the request and the
    population, in the provider that has its root. *)
Lemma readDirectory_unpopulated fuel uri s state w l d :
  String.eqb (uri_authority uri) "" = false ->
  idle registry_readDirectory (Uri_toString uri) s ->
  parseUri uri (world s) = (Resolved state, w) ->
  resolve (ensure_root state (with_world w s)) (st_path state) = Some l ->
  heap (ensure_root state (with_world w s)) !! l = Some (EDirectory d) ->
  dir_entries d = None ->
  readDirectory (S fuel) uri s
    = readDirectory_fetch uri state l (ensure_root state (with_world w s)).
Proof.
  intros Ha Hi Hp Hl He Hd. simpl. unfold reuseable. rewrite Hi.
  set (keys := Uri_toString uri :: inflight registry_readDirectory s).
  assert (Hs0 : ensure_root state (with_world w (with_inflight registry_readDirectory keys s))
                = with_inflight registry_readDirectory keys
                    (ensure_root state (with_world w s))).
  { by rewrite <- ensure_root_with_inflight. }
  rewrite (readDirectory_func_unpopulated (readDirectory fuel) uri
             (with_inflight registry_readDirectory keys s) state w l d Ha Hp);
    [|by rewrite Hs0|by rewrite Hs0|exact Hd].
  rewrite Hs0, readDirectory_fetch_frame.
  destruct (readDirectory_fetch_settles uri state l _ d He)
    as (c & s' & Hrun & _ & _ & Hinflight).
  rewrite Hrun. do 2 f_equal.
  specialize (Hinflight registry_readDirectory).
  rewrite ensure_root_inflight in Hinflight. simpl in Hinflight.
  subst keys. unfold idle in Hi. destruct s'. simpl in *.
  rewrite String.eqb_refl. simpl.
  by rewrite (remove_key_absent _ _ Hi), Hinflight.
Qed.

Lemma readDirectory_failure fuel uri s state w l d e w' :
  String.eqb (uri_authority uri) "" = false ->
  idle registry_readDirectory (Uri_toString uri) s ->
  parseUri uri (world s) = (Resolved state, w) ->
  resolve (ensure_root state (with_world w s)) (st_path state) = Some l ->
  heap (ensure_root state (with_world w s)) !! l = Some (EDirectory d) ->
  dir_entries d = None ->
  population_failure uri state w = Some (e, w') ->
  readDirectory (S fuel) uri s =
    Some (Throw e, with_calls (calls s ++ [population_request state w])
                     (with_world w' (ensure_root state (with_world w s)))).
Proof.
  intros Ha Hi Hp Hl He Hd Hfail.
  rewrite (readDirectory_unpopulated fuel uri s state w l d Ha Hi Hp Hl He Hd).
  rewrite (readDirectory_fetch_failure uri state l _ e w').
  - by rewrite ensure_root_calls, ensure_root_world.
  - by rewrite ensure_root_world.
Qed.

Lemma readDirectory_empty fuel uri s state w l d w' :
  String.eqb (uri_authority uri) "" = false ->
  idle registry_readDirectory (Uri_toString uri) s ->
  parseUri uri (world s) = (Resolved state, w) ->
  resolve (ensure_root state (with_world w s)) (st_path state) = Some l ->
  heap (ensure_root state (with_world w s)) !! l = Some (EDirectory d) ->
  dir_entries d = None ->
  population_children state w = Some (0, w') ->
  readDirectory (S fuel) uri s =
    Some (Return [],
          with_heap (alter (set_entries (Some [])) l
                       (heap (ensure_root state (with_world w s))))
            (with_calls (calls s ++ [population_request state w])
               (with_world w' (ensure_root state (with_world w s))))).
Proof.
  intros Ha Hi Hp Hl He Hd Hzero.
  rewrite (readDirectory_unpopulated fuel uri s state w l d Ha Hi Hp Hl He Hd).
  rewrite (readDirectory_fetch_empty uri state l _ d w' He).
  - by rewrite ensure_root_calls, ensure_root_world.
  - by rewrite ensure_root_world.
Qed.

Lemma readDirectory_deep fuel uri s state w l d response w' entries :
  String.eqb (uri_authority uri) "" = false ->
  idle registry_readDirectory (Uri_toString uri) s ->
  parseUri uri (world s) = (Resolved state, w) ->
  resolve (ensure_root state (with_world w s)) (st_path state) = Some l ->
  heap (ensure_root state (with_world w s)) !! l = Some (EDirectory d) ->
  dir_entries d = None ->
  isGraphQLEnabled w = true ->
  apolloClient_query (st_owner state) (st_repo state)
    (st_branch state +:+ ":" +:+ substring1 (st_path state)) w
    = (Resolved response, w') ->
  response_entries response = Some entries ->
  let s0 := ensure_root state (with_world w s) in
  exists pairs,
    readDirectory (S fuel) uri s =
      Some (Return pairs,
            with_heap
              (alter (set_entries (Some (forEach (Date_now w') uri entries ([], heap s0)).1))
                 l (forEach (Date_now w') uri entries ([], heap s0)).2)
              (with_calls (calls s ++ [population_request state w]) (with_world w' s0))).
Proof.
  intros Ha Hi Hp Hl He Hd Hflag Hq Hentries s0.
  rewrite (readDirectory_unpopulated fuel uri s state w l d Ha Hi Hp Hl He Hd).
  fold s0 in He |- *.
  assert (Hw : world s0 = w) by exact (ensure_root_world state (with_world w s)).
  assert (Hc : calls s0 = calls s) by exact (ensure_root_calls state (with_world w s)).
  rewrite <- Hw in Hflag, Hq.
  destruct (readDirectory_fetch_deep uri state l s0 d response w' entries
              He Hflag Hq Hentries) as [pairs Hrun].
  exists pairs. by rewrite Hrun, Hc, Hw.
Qed.

Lemma readDirectory_settles fuel uri s state w l d :
  String.eqb (uri_authority uri) "" = false ->
  idle registry_readDirectory (Uri_toString uri) s ->
  parseUri uri (world s) = (Resolved state, w) ->
  resolve (ensure_root state (with_world w s)) (st_path state) = Some l ->
  heap (ensure_root state (with_world w s)) !! l = Some (EDirectory d) ->
  dir_entries d = None ->
  exists c s',
    readDirectory (S fuel) uri s = Some (c, s') /\
    calls s' = calls s ++ [population_request state w].
Proof.
  intros Ha Hi Hp Hl He Hd.
  rewrite (readDirectory_unpopulated fuel uri s state w l d Ha Hi Hp Hl He Hd).
  destruct (readDirectory_fetch_settles uri state l _ d He)
    as (c & s' & Hrun & Hc & _).
  exists c, s'. split; [exact Hrun|].
  by rewrite Hc, ensure_root_calls, ensure_root_world.
Qed.

(** ** Files of the deep strategy *)

Lemma existsb_eqb_not_in (k : string) (ks : list string) :
  existsb (String.eqb k) ks = false -> k ∉ ks.
Proof.
  induction ks as [|k' ks IH]; simpl; intros H Hin.
  - by apply elem_of_nil in Hin.
  - apply orb_false_iff in H as [Hk Hks]. apply elem_of_cons in Hin as [->|Hin].
    + by rewrite String.eqb_refl in Hk.
    + by apply IH.
Qed.

(** After a listing by the deep strategy, the last item of its name that is
    not a tree is the file found under that name in the directory. *)
Lemma readDirectory_deep_file fuel uri s state w l d response w1 before item after :
  String.eqb (uri_authority uri) "" = false ->
  idle registry_readDirectory (Uri_toString uri) s ->
  parseUri uri (world s) = (Resolved state, w) ->
  resolve (ensure_root state (with_world w s)) (st_path state) = Some l ->
  heap (ensure_root state (with_world w s)) !! l = Some (EDirectory d) ->
  dir_entries d = None ->
  isGraphQLEnabled w = true ->
  apolloClient_query (st_owner state) (st_repo state)
    (st_branch state +:+ ":" +:+ substring1 (st_path state)) w
    = (Resolved response, w1) ->
  response_entries response = Some (before ++ item :: after) ->
  String.eqb (item_type item) "tree" = false ->
  existsb (String.eqb (item_name item)) (map item_name after) = false ->
  let s0 := ensure_root state (with_world w s) in
  let built := forEach (Date_now w1) uri (before ++ item :: after) ([], heap s0) in
  let s1 := with_heap (alter (set_entries (Some built.1)) l built.2)
              (with_calls (calls s ++ [population_request state w]) (with_world w1 s0)) in
  exists pairs child,
    readDirectory (S fuel) uri s = Some (Return pairs, s1) /\
    heap s1 !! child = Some (EFile (File_of_item (Date_now w1) uri item)) /\
    forall path, parts_of path = parts_of (st_path state) ++ [item_name item] ->
                 resolve s1 path = Some child.
Proof.
  intros Ha Hi Hp Hl He Hd Hflag Hq Hentries Htype Hlast s0 built s1.
  destruct (readDirectory_deep fuel uri s state w l d response w1 _
              Ha Hi Hp Hl He Hd Hflag Hq Hentries) as [pairs Hrun].
  fold s0 in Hl, He.
  destruct (forEach_file (Date_now w1) uri before item after (heap s0) Htype
              (existsb_eqb_not_in _ _ Hlast)) as (child & Hget & Hchild & Hge).
  fold built in Hget, Hchild.
  pose proof (forEach_prefix (Date_now w1) uri (before ++ item :: after) [] (heap s0))
    as Hprefix. fold built in Hprefix.
  pose proof (forEach_parent (Date_now w1) uri (before ++ item :: after) (heap s0) l d He)
    as Hparent. fold built in Hparent.
  assert (Hlt : l < length (heap s0)) by (apply lookup_lt_is_Some; eauto).
  exists pairs, child. split; [exact Hrun|]. split.
  - subst s1. simpl. rewrite list_lookup_alter_ne by lia. exact Hchild.
  - intros path Hparts. unfold resolve in *. subst s1. simpl.
    destruct (root s0) as [r|]; [|done]. rewrite Hparts.
    erewrite follow_app.
    + simpl. rewrite Hparent. simpl. by rewrite Hget.
    + eapply follow_keeps; [|exact Hl].
      eapply keeps_trans; [by apply keeps_prefix|].
      eapply keeps_set_entries; [|exact Hd].
      by eapply prefix_lookup_Some.
Qed.

Lemma resolve_keeps s s' path path' l :
  root s' = root s ->
  keeps_populated (heap s) (heap s') ->
  parts_of path' = parts_of path ->
  resolve s path = Some l ->
  resolve s' path' = Some l.
Proof.
  unfold resolve. intros -> Hk ->. destruct (root s); [|done].
  by apply follow_keeps.
Qed.

(** ** Fuel

    A call that settles with some fuel settles with more, and with the same
    completion and state. *)

Lemma refines_refl {A} (m : M A) : refines m m.
Proof. by intros s r. Qed.

Lemma refines_bind {A B} (m m' : M A) (k k' : A -> M B) :
  refines m m' -> (forall a, refines (k a) (k' a)) ->
  refines (bind m k) (bind m' k').
Proof.
  intros Hm Hk s r. unfold bind.
  destruct (m s) as [[[a|e] s1]|] eqn:Hrun; [| |done].
  - rewrite (Hm _ _ Hrun). apply Hk.
  - by rewrite (Hm _ _ Hrun).
Qed.

Lemma refines_reuseable {A} r (func func' : M A) key :
  refines func func' -> refines (reuseable r func key) (reuseable r func' key).
Proof.
  intros Hf s res. unfold reuseable.
  destruct (existsb _ _); [done|].
  destruct (func _) as [[c s1]|] eqn:Hrun; [|done].
  by rewrite (Hf _ _ Hrun).
Qed.

Section Monotone.
Variables rd rd' : Uri -> M (list (string * FileType)).
Hypothesis Hrd : forall uri, refines (rd uri) (rd' uri).

Lemma lookup_for_refines state silent parts : forall entry,
  refines (_lookup_for rd state silent entry parts)
          (_lookup_for rd' state silent entry parts).
Proof.
  induction parts as [|part parts IH]; intros entry; simpl.
  - apply refines_refl.
  - apply refines_bind; [apply refines_refl|]. intros e.
    apply refines_bind.
    + destruct e as [f|d]; [apply refines_refl|].
      apply refines_bind; [|intros; apply refines_refl].
      destruct (dir_entries d); [apply refines_refl|].
      apply refines_bind; [apply Hrd|intros; apply refines_refl].
    + intros [child|]; [apply IH|apply refines_refl].
Qed.

Lemma lookup_refines state silent :
  refines (_lookup rd state silent) (_lookup rd' state silent).
Proof.
  unfold _lookup. apply refines_bind; [apply refines_refl|]. intros s.
  apply refines_bind; [apply refines_refl|]. intros entry.
  apply lookup_for_refines.
Qed.

Lemma readDirectory_func_refines uri :
  refines (readDirectory_func rd uri) (readDirectory_func rd' uri).
Proof.
  unfold readDirectory_func. destruct (String.eqb _ _); [apply refines_refl|].
  apply refines_bind; [apply refines_refl|]. intros state.
  apply refines_bind; [|intros; apply refines_refl].
  unfold _lookupAsDirectory.
  apply refines_bind; [apply lookup_refines|intros; apply refines_refl].
Qed.

Lemma readFile_func_refines uri :
  refines (readFile_func rd uri) (readFile_func rd' uri).
Proof.
  unfold readFile_func. destruct (String.eqb _ _); [apply refines_refl|].
  apply refines_bind; [apply refines_refl|]. intros state.
  apply refines_bind; [|intros; apply refines_refl].
  unfold _lookupAsFile.
  apply refines_bind; [apply lookup_refines|intros; apply refines_refl].
Qed.

End Monotone.

Lemma readDirectory_more_fuel fuel : forall uri,
  refines (readDirectory fuel uri) (readDirectory (S fuel) uri).
Proof.
  induction fuel as [|fuel IH]; intros uri.
  - by intros s r.
  - change (refines
              (reuseable registry_readDirectory
                 (readDirectory_func (readDirectory fuel) uri) (Uri_toString uri))
              (reuseable registry_readDirectory
                 (readDirectory_func (readDirectory (S fuel)) uri) (Uri_toString uri))).
    apply refines_reuseable, readDirectory_func_refines, IH.
Qed.

Lemma readFile_more_fuel fuel uri :
  refines (readFile fuel uri) (readFile (S fuel) uri).
Proof.
  unfold readFile.
  apply refines_reuseable, readFile_func_refines, readDirectory_more_fuel.
Qed.

Lemma stat_more_fuel fuel uri : refines (stat fuel uri) (stat (S fuel) uri).
Proof.
  unfold stat. apply refines_bind; [apply refines_refl|]. intros state.
  apply lookup_refines, readDirectory_more_fuel.
Qed.

(** * The properties of the specification *)

(** C6. In a tree that is populated along the path, [_lookup] returns the node
    reached by following each non-empty segment of the path once from the
    root, and leaves the provider as it is.  For a path without non-empty
    segments, such as the empty path, it returns the root directory; on the
    first call it creates the root, a directory with the empty name and no
    entries yet. *)
Theorem lookup_follows_segments rd state silent s :
  (forall l, resolve s (st_path state) = Some l ->
     _lookup rd state silent s = Some (Return (Some l), s)) /\
  (parts_of (st_path state) = [] ->
     match root s with
     | Some r => _lookup rd state silent s = Some (Return (Some r), s)
     | None =>
         _lookup rd state silent s =
           Some (Return (Some (length (heap s))),
                 with_root (Some (length (heap s)))
                   (with_heap
                      (heap s ++
                       [EDirectory (new_Directory (Date_now (world s))
                                      (Uri_with_path (st_uri state) "/") "" None)]) s))
     end) /\
  parts_of "" = [].
Proof.
  split; [|split; [|reflexivity]].
  - intros l. apply lookup_resolve.
  - intros Hparts. destruct (root s) as [r|] eqn:Hr.
    + rewrite (lookup_root _ _ _ _ _ Hr), Hparts. reflexivity.
    + unfold _lookup, bind, get. rewrite Hr, Hparts. reflexivity.
Qed.

(** C7. When the next segment of the path is not among the children of the
    populated directory reached so far, [_lookup] with [silent = false] fails
    with [FileNotFound], and with [silent = true] it returns [undefined]. *)
Theorem lookup_missing_segment rd state s r walked part rest entry d map :
  root s = Some r ->
  parts_of (st_path state) = walked ++ part :: rest ->
  follow (heap s) r walked = Some entry ->
  heap s !! entry = Some (EDirectory d) ->
  dir_entries d = Some map ->
  map_get part map = None ->
  _lookup rd state false s = Some (Throw (FileNotFound (st_uri state)), s) /\
  _lookup rd state true s = Some (Return None, s).
Proof.
  intros Hr Hparts Hf He Hd Hm.
  assert (Hstop : stops_at s (st_path state) entry).
  { exists r, walked, part, rest. by rewrite He, Hd. }
  split; by rewrite (lookup_stops _ _ _ _ _ Hstop).
Qed.

(** C1, as the code has it.  When the node reached so far is a [File] and a
    further segment remains, [_lookup] with [silent = false] fails with
    [FileNotFound], the error it raises for a missing child, not with
    [FileNotADirectory]; with [silent = true] it returns [undefined]. *)
Theorem lookup_below_file rd state s r walked part rest entry f :
  root s = Some r ->
  parts_of (st_path state) = walked ++ part :: rest ->
  follow (heap s) r walked = Some entry ->
  heap s !! entry = Some (EFile f) ->
  _lookup rd state false s = Some (Throw (FileNotFound (st_uri state)), s) /\
  _lookup rd state true s = Some (Return None, s).
Proof.
  intros Hr Hparts Hf He.
  assert (Hstop : stops_at s (st_path state) entry).
  { exists r, walked, part, rest. by rewrite He. }
  split; by rewrite (lookup_stops _ _ _ _ _ Hstop).
Qed.

(** C9, as the code has it.  With [silent = true] a kind mismatch is not told
    apart from absence: [_lookupAsDirectory] on a path that leads to a [File],
    [_lookupAsFile] on a path that leads to a [Directory], and both on a path
    that leads nowhere, all return [undefined] and leave the provider as it
    is.  The cases differ with [silent = false] only: [FileNotADirectory] and
    [FileIsADirectory] for the mismatch, [FileNotFound] for absence. *)
Theorem lookupAs_silent_mismatch rd state absent s l stop :
  resolve s (st_path state) = Some l ->
  stops_at s (st_path absent) stop ->
  (forall f, heap s !! l = Some (EFile f) ->
     _lookupAsDirectory rd state true s = Some (Return None, s) /\
     _lookupAsDirectory rd absent true s = Some (Return None, s) /\
     _lookupAsDirectory rd state false s
       = Some (Throw (FileNotADirectory (st_uri state)), s) /\
     _lookupAsDirectory rd absent false s
       = Some (Throw (FileNotFound (st_uri absent)), s)) /\
  (forall d, heap s !! l = Some (EDirectory d) ->
     _lookupAsFile rd state true s = Some (Return None, s) /\
     _lookupAsFile rd absent true s = Some (Return None, s) /\
     _lookupAsFile rd state false s
       = Some (Throw (FileIsADirectory (st_uri state)), s) /\
     _lookupAsFile rd absent false s
       = Some (Throw (FileNotFound (st_uri absent)), s)).
Proof.
  intros Hl Hstop. split.
  - intros f He.
    rewrite !(lookupAsDirectory_file _ _ _ _ _ _ Hl He).
    by rewrite !(lookupAsDirectory_stops _ _ _ _ _ Hstop).
  - intros d He.
    rewrite !(lookupAsFile_directory _ _ _ _ _ _ Hl He).
    by rewrite !(lookupAsFile_stops _ _ _ _ _ Hstop).
Qed.

(** C2. A directory whose entries are present, be they empty, is not
    populated again.  [readDirectory] returns the name and type of its cached
    children and sends no request; a step of [_lookup] through it goes on to
    the child, or stops, in the same state and without a call of
    [readDirectory]; and of two listings of a directory for which the remote
    service reports no children, the first sends one request and the second
    none.  The first listing finds its directory in [s0], the provider with
    the world that [parseUri] leaves and with its root, which the call creates
    on a new provider. *)
Theorem populated_directory_not_repopulated :
  (forall fuel uri s state w l d map pairs,
     String.eqb (uri_authority uri) "" = false ->
     idle registry_readDirectory (Uri_toString uri) s ->
     parseUri uri (world s) = (Resolved state, w) ->
     resolve s (st_path state) = Some l ->
     heap s !! l = Some (EDirectory d) ->
     dir_entries d = Some map ->
     nameTypePairs (heap s) map = Some pairs ->
     readDirectory (S fuel) uri s = Some (Return pairs, with_world w s)) /\
  (forall rd state silent s entry d map part rest,
     heap s !! entry = Some (EDirectory d) ->
     dir_entries d = Some map ->
     _lookup_for rd state silent entry (part :: rest) s =
       match map_get part map with
       | Some child => _lookup_for rd state silent child rest s
       | None => Some (if silent then Return None
                       else Throw (FileNotFound (st_uri state)), s)
       end) /\
  (forall fuel fuel' uri s state w l d w1 state2 w2,
     String.eqb (uri_authority uri) "" = false ->
     idle registry_readDirectory (Uri_toString uri) s ->
     parseUri uri (world s) = (Resolved state, w) ->
     let s0 := ensure_root state (with_world w s) in
     resolve s0 (st_path state) = Some l ->
     heap s0 !! l = Some (EDirectory d) ->
     dir_entries d = None ->
     population_children state w = Some (0, w1) ->
     parseUri uri w1 = (Resolved state2, w2) ->
     parts_of (st_path state2) = parts_of (st_path state) ->
     let s1 := with_heap (alter (set_entries (Some [])) l (heap s0))
                 (with_calls (calls s ++ [population_request state w])
                    (with_world w1 s0)) in
     readDirectory (S fuel) uri s = Some (Return [], s1) /\
     readDirectory (S fuel') uri s1 = Some (Return [], with_world w2 s1) /\
     calls (with_world w2 s1) = calls s ++ [population_request state w]).
Proof.
  split; [|split].
  - intros. by eapply readDirectory_present.
  - intros rd state silent s entry d map part rest He Hd.
    destruct (map_get part map) as [child|] eqn:Hm.
    + simpl. unfold bind, deref. rewrite He, Hd. simpl.
      rewrite He, Hd. simpl. by rewrite Hm.
    + by eapply lookup_for_absent.
  - intros fuel fuel' uri s state w l d w1 state2 w2
      Ha Hi Hp s0 Hl He Hd Hzero Hp2 Hparts s1.
    split; [by eapply readDirectory_empty|]. split; [|reflexivity].
    eapply (readDirectory_present fuel' uri s1 state2 w2 l
              (with_entries d (Some [])) []); try done.
    + apply (idle_after _ _ s); [|exact Hi].
      exact (ensure_root_inflight state (with_world w s) registry_readDirectory).
    + eapply (resolve_keeps s0 s1); [reflexivity| |exact Hparts|exact Hl].
      by eapply keeps_set_entries.
    + subst s1. simpl. by rewrite list_lookup_alter_eq, He.
Qed.

(** C3. [readFile] of a [File] whose data is present, be it empty, returns the
    data and sends no request.  When the data is absent and the remote service
    answers, [readFile] sends one request, stores the decoded content on the
    node and returns it; a second [readFile] of the same file returns the
    stored bytes and sends no request. *)
Theorem readFile_fetches_once :
  (forall fuel uri s state w l f data,
     String.eqb (uri_authority uri) "" = false ->
     idle registry_readFile (Uri_toString uri) s ->
     parseUri uri (world s) = (Resolved state, w) ->
     resolve s (st_path state) = Some l ->
     heap s !! l = Some (EFile f) ->
     file_data f = Some data ->
     readFile fuel uri s = Some (Return data, with_world w s)) /\
  (forall fuel fuel' uri s state w l f blob w1 state2 w2,
     String.eqb (uri_authority uri) "" = false ->
     idle registry_readFile (Uri_toString uri) s ->
     parseUri uri (world s) = (Resolved state, w) ->
     resolve s (st_path state) = Some l ->
     heap s !! l = Some (EFile f) ->
     file_data f = None ->
     readGitHubFile state (file_sha f) w = (Resolved blob, w1) ->
     parseUri uri w1 = (Resolved state2, w2) ->
     parts_of (st_path state2) = parts_of (st_path state) ->
     let data := decodeBase64 (blob_content blob) in
     let s1 := with_heap (alter (set_data (Some data)) l (heap s))
                 (with_calls (calls s ++ [CallFile state (file_sha f)])
                    (with_world w1 s)) in
     readFile fuel uri s = Some (Return data, s1) /\
     heap s1 !! l = Some (EFile (with_data f (Some data))) /\
     readFile fuel' uri s1 = Some (Return data, with_world w2 s1) /\
     calls (with_world w2 s1) = calls s ++ [CallFile state (file_sha f)]).
Proof.
  split.
  - intros. by eapply readFile_present.
  - intros fuel fuel' uri s state w l f blob w1 state2 w2
      Ha Hi Hp Hl He Hd Hblob Hp2 Hparts data s1.
    assert (Hstored : heap s1 !! l = Some (EFile (with_data f (Some data)))).
    { subst s1. simpl. by rewrite list_lookup_alter_eq, He. }
    split; [|split; [exact Hstored|split; [|reflexivity]]].
    + rewrite (readFile_absent fuel uri s state w l f Ha Hi Hp Hl He Hd).
      by rewrite Hblob.
    + eapply (readFile_present fuel' uri s1 state2 w2 l); try done.
      eapply (resolve_keeps s s1); [reflexivity| |exact Hparts|exact Hl].
      apply keeps_set_data.
Qed.

(** C4. A fetch that fails leaves the node as it was.  When the request that
    populates a directory fails, [readDirectory] fails with that error, the
    store is the one in which the directory was found, so that the entries are
    still [null], and the next listing sends the request again; an answer of
    the deep strategy without entries is such a failure, with
    [FileNotADirectory].  When the content request fails, [readFile] fails,
    the store is unchanged, so that the data is still [null], and the next
    read sends the request again.  The directory is found in [s0], the
    provider with the world that [parseUri] leaves and with its root, which
    the call creates on a new provider. *)
Theorem failed_fetch_leaves_node :
  (forall fuel fuel' uri s state w l d e w1 state2 w2,
     String.eqb (uri_authority uri) "" = false ->
     idle registry_readDirectory (Uri_toString uri) s ->
     parseUri uri (world s) = (Resolved state, w) ->
     let s0 := ensure_root state (with_world w s) in
     resolve s0 (st_path state) = Some l ->
     heap s0 !! l = Some (EDirectory d) ->
     dir_entries d = None ->
     population_failure uri state w = Some (e, w1) ->
     parseUri uri w1 = (Resolved state2, w2) ->
     parts_of (st_path state2) = parts_of (st_path state) ->
     let s1 := with_calls (calls s ++ [population_request state w]) (with_world w1 s0) in
     readDirectory (S fuel) uri s = Some (Throw e, s1) /\
     heap s1 = heap s0 /\
     heap s1 !! l = Some (EDirectory d) /\
     exists c s2,
       readDirectory (S fuel') uri s1 = Some (c, s2) /\
       calls s2 = calls s ++ [population_request state w; population_request state2 w2]) /\
  (forall uri state w response w1,
     isGraphQLEnabled w = true ->
     apolloClient_query (st_owner state) (st_repo state)
       (st_branch state +:+ ":" +:+ substring1 (st_path state)) w
       = (Resolved response, w1) ->
     response_entries response = None ->
     population_failure uri state w = Some (FileNotADirectory uri, w1)) /\
  (forall fuel fuel' uri s state w l f reason w1 state2 w2,
     String.eqb (uri_authority uri) "" = false ->
     idle registry_readFile (Uri_toString uri) s ->
     parseUri uri (world s) = (Resolved state, w) ->
     resolve s (st_path state) = Some l ->
     heap s !! l = Some (EFile f) ->
     file_data f = None ->
     readGitHubFile state (file_sha f) w = (Rejected reason, w1) ->
     parseUri uri w1 = (Resolved state2, w2) ->
     parts_of (st_path state2) = parts_of (st_path state) ->
     let s1 := with_calls (calls s ++ [CallFile state (file_sha f)]) (with_world w1 s) in
     readFile fuel uri s = Some (Throw (RemoteFailure reason), s1) /\
     heap s1 = heap s /\
     exists c s2,
       readFile fuel' uri s1 = Some (c, s2) /\
       calls s2 = calls s ++ [CallFile state (file_sha f); CallFile state2 (file_sha f)]).
Proof.
  split; [|split].
  - intros fuel fuel' uri s state w l d e w1 state2 w2
      Ha Hi Hp s0 Hl He Hd Hfail Hp2 Hparts s1.
    split; [by eapply readDirectory_failure|]. split; [reflexivity|].
    split; [exact He|].
    destruct (resolve_root _ _ _ Hl) as [r Hr].
    assert (Hs1 : ensure_root state2 (with_world w2 s1) = with_world w2 s1)
      by (by apply (ensure_root_rooted _ _ r)).
    destruct (readDirectory_settles fuel' uri s1 state2 w2 l d) as (c & s2 & Hrun & Hc);
      try done.
    { apply (idle_after _ _ s); [|exact Hi].
      exact (ensure_root_inflight state (with_world w s) registry_readDirectory). }
    { rewrite Hs1.
      eapply (resolve_keeps s0 (with_world w2 s1)); [reflexivity| |exact Hparts|exact Hl].
      by apply keeps_prefix. }
    { by rewrite Hs1. }
    exists c, s2. split; [exact Hrun|]. rewrite Hc. subst s1. simpl.
    by rewrite <- app_assoc.
  - intros uri state w response w1 Hflag Hq Hnone.
    unfold population_failure. by rewrite Hflag, Hq, Hnone.
  - intros fuel fuel' uri s state w l f reason w1 state2 w2
      Ha Hi Hp Hl He Hd Hblob Hp2 Hparts s1.
    split; [|split; [reflexivity|]].
    + rewrite (readFile_absent fuel uri s state w l f Ha Hi Hp Hl He Hd).
      by rewrite Hblob.
    + assert (Hl2 : resolve s1 (st_path state2) = Some l).
      { eapply (resolve_keeps s s1); [reflexivity| |exact Hparts|exact Hl].
        by apply keeps_prefix. }
      pose proof (readFile_absent fuel' uri s1 state2 w2 l f Ha Hi Hp2 Hl2 He Hd) as Hrun.
      destruct (readGitHubFile state2 (file_sha f) w2) as [[b|reason2] w3];
        eexists _, _; (split; [exact Hrun|]); simpl; by rewrite <- app_assoc.
Qed.

End Facts.

(** * Calls in flight *)

Section InFlightFacts.
Import InFlight.
Context {V : Type}.

Lemma starts_app key (r : Reg V) k w (rc : list (nat * Outcome V)) :
  starts key (mkReg w (started r ++ [k]) rc)
    = starts key r + (if String.eqb key k then 1 else 0).
Proof.
  unfold starts. simpl. rewrite List.filter_app, length_app. simpl.
  by destruct (String.eqb key k).
Qed.

(** What a run of events without settlement under [key] does to the entry of
    [key]: the callers of [key] are attached in order, and the wrapped
    function is started once if the key was free and somebody called. *)
Lemma run_unsettled key events : forall r : Reg V,
  unsettled key events = true ->
  waiting (run r events) !! key =
    match callers_of key events with
    | [] => waiting r !! key
    | c :: cs => Some (default [] (waiting r !! key) ++ c :: cs)
    end /\
  starts key (run r events) =
    starts key r +
    match waiting r !! key, callers_of key events with
    | None, _ :: _ => 1
    | _, _ => 0
    end.
Proof.
  induction events as [|[caller k|k outcome] events IH]; intros r Hu.
  - simpl. split; [done|]. destruct (waiting r !! key); lia.
  - change (run r (Call caller k :: events))
      with (run (step r (Call caller k)) events).
    destruct (IH (step r (Call caller k)) Hu) as [-> ->]. clear IH. simpl.
    destruct (String.eqb k key) eqn:Hk.
    + apply String.eqb_eq in Hk as ->.
      destruct (waiting r !! key) as [callers|] eqn:Hkey; simpl;
        rewrite lookup_insert_eq; simpl.
      * split.
        -- destruct (callers_of key events); [done|]. by rewrite <- app_assoc.
        -- unfold starts. simpl. destruct (callers_of key events); lia.
      * split.
        -- by destruct (callers_of key events).
        -- rewrite starts_app, String.eqb_refl.
           destruct (callers_of key events); lia.
    + apply String.eqb_neq in Hk.
      destruct (waiting r !! k) as [callers|] eqn:Hother; simpl;
        rewrite lookup_insert_ne by done.
      * split; [done|]. unfold starts. simpl. lia.
      * split; [done|]. rewrite starts_app.
        assert (String.eqb key k = false) as -> by (apply String.eqb_neq; congruence).
        lia.
  - simpl in Hu. apply andb_true_iff in Hu as [Hk Hu]. apply negb_true_iff in Hk.
    apply String.eqb_neq in Hk.
    change (run r (Settle k outcome :: events))
      with (run (step r (Settle k outcome)) events).
    destruct (IH (step r (Settle k outcome)) Hu) as [-> ->]. clear IH. simpl.
    destruct (waiting r !! k) as [callers|] eqn:Hother; simpl; [|done].
    rewrite lookup_delete_ne by done. split; [done|].
    unfold starts. simpl. lia.
Qed.

(** C8. However many callers call the wrapped function under one key while the
    operation under that key has not settled, and whatever happens under other
    keys meanwhile, the function is started once under the key; when the
    operation settles, with a value or with a failure, every one of these
    callers receives that same outcome and the entry of the key is cleared, so
    that the next call under the key starts the function again. *)
Theorem calls_in_flight_share_one_fetch (r : Reg V) key events first others outcome later :
  waiting r !! key = None ->
  unsettled key events = true ->
  callers_of key events = first :: others ->
  let r1 := run r events in
  let r2 := step r1 (Settle key outcome) in
  starts key r1 = S (starts key r) /\
  received r2 = received r1 ++ map (fun caller => (caller, outcome)) (first :: others) /\
  waiting r2 !! key = None /\
  starts key r2 = starts key r1 /\
  starts key (step r2 (Call later key)) = S (starts key r2).
Proof.
  intros Hfree Hu Hcallers r1 r2.
  destruct (run_unsettled key events r Hu) as [Hw Hs].
  rewrite Hfree, Hcallers in Hw, Hs. fold r1 in Hw, Hs. simpl in Hw.
  assert (Hr2 : r2 = mkReg (delete key (waiting r1)) (started r1)
                       (received r1 ++ map (fun caller => (caller, outcome))
                                         (first :: others))).
  { subst r2. simpl. by rewrite Hw. }
  assert (Hcleared : waiting r2 !! key = None).
  { rewrite Hr2. simpl. apply lookup_delete_eq. }
  split; [lia|]. split; [by rewrite Hr2|]. split; [exact Hcleared|].
  split; [by rewrite Hr2|].
  simpl. rewrite Hcleared. rewrite starts_app, String.eqb_refl. lia.
Qed.

End InFlightFacts.

(** * The properties on the scripted remote *)

Section Concrete.
Import Mock.

Lemma lookup_follows_segments_witness :
  _lookup (readDirectory 2) (state_of "/README.md") false listed_shallow
    = Some (Return (Some 2), listed_shallow) /\
  _lookup (readDirectory 2) (state_of "") false shallow
    = Some (Return (Some 0),
            with_root (Some 0)
              (with_heap
                 [EDirectory (new_Directory 0 (at_path "/") "" None)] shallow)).
Proof.
  destruct (lookup_follows_segments (readDirectory 2) (state_of "/README.md")
              false listed_shallow) as (Hpath & _ & _).
  destruct (lookup_follows_segments (readDirectory 2) (state_of "")
              false shallow) as (_ & Hroot & _).
  split; [apply Hpath|apply Hroot]; vm_compute; reflexivity.
Defined.

Lemma lookup_missing_segment_witness :
  _lookup (readDirectory 2) (state_of "/missing") false listed_shallow
    = Some (Throw (FileNotFound (at_path "/missing")), listed_shallow) /\
  _lookup (readDirectory 2) (state_of "/missing") true listed_shallow
    = Some (Return None, listed_shallow).
Proof.
  eapply (lookup_missing_segment (readDirectory 2) (state_of "/missing")
            listed_shallow 0 [] "missing" [] 0
            (with_entries (new_Directory 0 (at_path "/") "" None)
               (Some [("src", 1); ("README.md", 2); ("logo.png", 3)]))
            [("src", 1); ("README.md", 2); ("logo.png", 3)]);
    vm_compute; reflexivity.
Defined.

Lemma lookup_below_file_witness :
  _lookup (readDirectory 2) (state_of "/README.md/x") false listed_shallow
    = Some (Throw (FileNotFound (at_path "/README.md/x")), listed_shallow) /\
  _lookup (readDirectory 2) (state_of "/README.md/x") true listed_shallow
    = Some (Return None, listed_shallow).
Proof.
  eapply (lookup_below_file (readDirectory 2) (state_of "/README.md/x")
            listed_shallow 0 ["README.md"] "x" [] 2
            (new_File 0 (at_path "/") "README.md"
               (Some (mkOptions (Some "sha-readme") (Some (Some 12%Z)) None))));
    vm_compute; reflexivity.
Defined.

(** C1 as the spec states it fails: README.md is a file, a further segment
    remains, and the error is not [FileNotADirectory]. *)
Lemma lookup_below_file_counterexample :
  resolve listed_shallow "/README.md" = Some 2 /\
  (exists f, heap listed_shallow !! 2 = Some (EFile f)) /\
  parts_of "/README.md/x" = ["README.md"; "x"] /\
  ~ exists uri s',
      _lookup (readDirectory 2) (state_of "/README.md/x") false listed_shallow
        = Some (Throw (FileNotADirectory uri), s').
Proof.
  split; [vm_compute; reflexivity|]. split; [by eexists|].
  split; [vm_compute; reflexivity|].
  intros (uri & s' & H). vm_compute in H. discriminate H.
Qed.

Lemma populated_directory_not_repopulated_witness :
  readDirectory 1 (at_path "/") listed_shallow
    = Some (Return [("src", FileType_Directory); ("README.md", FileType_File);
                    ("logo.png", FileType_File)], listed_shallow) /\
  let s1 := after (readDirectory 1 (at_path "/src")) listed_shallow in
  readDirectory 1 (at_path "/src") listed_shallow = Some (Return [], s1) /\
  readDirectory 1 (at_path "/src") s1 = Some (Return [], s1) /\
  calls s1 = [CallDirectory (state_of "/"); CallDirectory (state_of "/src")].
Proof.
  destruct (@populated_directory_not_repopulated collaborators)
    as (Hcached & _ & Htwice).
  split.
  - apply (Hcached 0 (at_path "/") listed_shallow (state_of "/")
             (world listed_shallow) 0
             (with_entries (new_Directory 0 (at_path "/") "" None)
                (Some [("src", 1); ("README.md", 2); ("logo.png", 3)]))
             [("src", 1); ("README.md", 2); ("logo.png", 3)]);
      vm_compute; reflexivity.
  - pose proof (Htwice 0 0 (at_path "/src") listed_shallow (state_of "/src")
                  (world listed_shallow) 1
                  (new_Directory 0 (at_path "/") "src"
                     (Some (mkOptions (Some "sha-src") None None)))
                  (world listed_shallow) (state_of "/src") (world listed_shallow))
      as H.
    vm_compute in H |- *. apply H; reflexivity.
Defined.

Lemma readFile_fetches_once_witness :
  readFile 0 (at_path "/README.md") listed_deep
    = Some (Return (list_byte_of_string "Hello, World"), listed_deep) /\
  let s1 := after (readFile 0 (at_path "/README.md")) listed_shallow in
  readFile 0 (at_path "/README.md") listed_shallow
    = Some (Return (list_byte_of_string "Hello, World"), s1) /\
  readFile 0 (at_path "/README.md") s1
    = Some (Return (list_byte_of_string "Hello, World"), s1) /\
  calls s1 = [CallDirectory (state_of "/");
              CallFile (state_of "/README.md") "sha-readme"].
Proof.
  destruct (@readFile_fetches_once collaborators) as (Hpresent & Habsent).
  split.
  - apply (Hpresent 0 (at_path "/README.md") listed_deep (state_of "/README.md")
             (world listed_deep) 2
             (File_of_item 0 (at_path "/")
                (mkGqlItem "blob" "README.md" "sha-readme"
                   (Some (mkGqlObject None (Some 12%Z) (Some false)
                            (js_string "Hello, World"))))));
      vm_compute; reflexivity.
  - pose proof (Habsent 0 0 (at_path "/README.md") listed_shallow
                  (state_of "/README.md") (world listed_shallow) 2
                  (new_File 0 (at_path "/") "README.md"
                     (Some (mkOptions (Some "sha-readme") (Some (Some 12%Z)) None)))
                  {| blob_content := "Hello, World" |} (world listed_shallow)
                  (state_of "/README.md") (world listed_shallow)) as H.
    vm_compute in H |- *.
    destruct H as (Hfirst & _ & Hsecond & Hcalls); try reflexivity.
    split; [exact Hfirst|]. split; [exact Hsecond|exact Hcalls].
Defined.

Lemma failed_fetch_leaves_node_witness :
  let s1 := after (readDirectory 1 (at_path "/")) failing in
  readDirectory 1 (at_path "/") failing = Some (Throw (RemoteFailure "503"), s1) /\
  heap s1 = [EDirectory (new_Directory 0 (at_path "/") "" None)] /\
  exists c s2,
    readDirectory 1 (at_path "/") s1 = Some (c, s2) /\
    calls s2 = [CallDirectory (state_of "/"); CallDirectory (state_of "/")].
Proof.
  destruct (@failed_fetch_leaves_node collaborators) as (Hdirectory & _ & _).
  pose proof (Hdirectory 0 0 (at_path "/") failing (state_of "/")
                (world failing) 0
                (new_Directory 0 (at_path "/") "" None)
                (RemoteFailure "503") (world shallow)
                (state_of "/") (world shallow)) as H.
  vm_compute in H |- *.
  destruct H as (Hfirst & Hheap & _ & Hretry); try reflexivity.
  split; [exact Hfirst|]. split; [exact Hheap|exact Hretry].
Defined.

Lemma lookupAs_silent_mismatch_witness :
  _lookupAsDirectory (readDirectory 2) (state_of "/README.md") true listed_shallow
    = Some (Return None, listed_shallow) /\
  _lookupAsDirectory (readDirectory 2) (state_of "/missing") true listed_shallow
    = Some (Return None, listed_shallow) /\
  _lookupAsDirectory (readDirectory 2) (state_of "/README.md") false listed_shallow
    = Some (Throw (FileNotADirectory (at_path "/README.md")), listed_shallow) /\
  _lookupAsDirectory (readDirectory 2) (state_of "/missing") false listed_shallow
    = Some (Throw (FileNotFound (at_path "/missing")), listed_shallow).
Proof.
  assert (Hstop : stops_at listed_shallow (st_path (state_of "/missing")) 0).
  { exists 0, [], "missing", []. vm_compute. by repeat split. }
  destruct (lookupAs_silent_mismatch (readDirectory 2) (state_of "/README.md")
              (state_of "/missing") listed_shallow 2 0 eq_refl Hstop) as (Hfile & _).
  eapply Hfile. vm_compute. reflexivity.
Defined.

(** C9 as the spec states it fails: /README.md is a file and /src a
    directory, /missing does not exist, and the silent wrappers answer the
    same for the mismatch as for the absent path. *)
Lemma lookupAs_silent_counterexample :
  resolve listed_shallow "/README.md" = Some 2 /\
  (exists f, heap listed_shallow !! 2 = Some (EFile f)) /\
  resolve listed_shallow "/src" = Some 1 /\
  (exists d, heap listed_shallow !! 1 = Some (EDirectory d)) /\
  resolve listed_shallow "/missing" = None /\
  _lookupAsDirectory (readDirectory 2) (state_of "/README.md") true listed_shallow
    = _lookupAsDirectory (readDirectory 2) (state_of "/missing") true listed_shallow /\
  _lookupAsFile (readDirectory 2) (state_of "/src") true listed_shallow
    = _lookupAsFile (readDirectory 2) (state_of "/missing") true listed_shallow.
Proof.
  vm_compute. repeat split; by eexists.
Qed.

Lemma calls_in_flight_share_one_fetch_witness :
  let r : InFlight.Reg (list Byte.byte) := InFlight.mkReg ∅ [] [] in
  let events := [InFlight.Call 1 "github1s://o+r+b/src";
                 InFlight.Call 2 "github1s://o+r+b/lib";
                 InFlight.Call 3 "github1s://o+r+b/src"] in
  let r1 := InFlight.run r events in
  let r2 := InFlight.step r1 (InFlight.Settle "github1s://o+r+b/src"
                                (InFlight.Failed "503")) in
  InFlight.starts "github1s://o+r+b/src" r1 = 1 /\
  InFlight.received r2 = [(1, InFlight.Failed "503"); (3, InFlight.Failed "503")] /\
  InFlight.waiting r2 !! "github1s://o+r+b/src" = None /\
  InFlight.starts "github1s://o+r+b/src" r2 = 1 /\
  InFlight.starts "github1s://o+r+b/src"
    (InFlight.step r2 (InFlight.Call 4 "github1s://o+r+b/src")) = 2.
Proof.
  intros r events r1 r2.
  exact (calls_in_flight_share_one_fetch r "github1s://o+r+b/src" events 1 [3]
           (InFlight.Failed "503") 4 eq_refl eq_refl eq_refl).
Defined.

(** The scenario of the spec, on the shallow strategy: the root is listed with
    one request, README.md is read with one request and then from the node,
    and a listing of a path that does not exist fails with [FileNotFound]. *)
Example scenario_shallow :
  let s1 := after (readDirectory 2 (at_path "/")) shallow in
  let s2 := after (readFile 2 (at_path "/README.md")) s1 in
  readDirectory 2 (at_path "/") shallow
    = Some (Return [("src", FileType_Directory); ("README.md", FileType_File);
                    ("logo.png", FileType_File)], s1) /\
  calls s1 = [CallDirectory (state_of "/")] /\
  readFile 2 (at_path "/README.md") s1
    = Some (Return (list_byte_of_string "Hello, World"), s2) /\
  calls s2 = [CallDirectory (state_of "/");
              CallFile (state_of "/README.md") "sha-readme"] /\
  readFile 2 (at_path "/README.md") s2
    = Some (Return (list_byte_of_string "Hello, World"), s2) /\
  readDirectory 2 (at_path "/missing") s2
    = Some (Throw (FileNotFound (at_path "/missing")), s2).
Proof. vm_compute. by repeat split. Qed.

(** A listing below a root that is not populated yet populates the root on
    the way, by a call of [readDirectory] from [_lookup]: two requests, and
    fuel for the two levels. *)
Example nested_population :
  exists s',
    readDirectory 2 (at_path "/src") shallow = Some (Return [], s') /\
    calls s' = [CallDirectory (state_of "/"); CallDirectory (state_of "/src")] /\
    readDirectory 1 (at_path "/src") shallow = None.
Proof. eexists. vm_compute. by repeat split. Qed.

End Concrete.

(** * Further properties of the code *)

Section Further.
Context `{C : Collaborators}.

(** ** Paths and their segments *)

Lemma split_slash_nonempty s : split_slash s <> [].
Proof. destruct s as [|c s]; simpl; [done|]. destruct (Ascii.eqb c "/"); [done|].
  by destruct (split_slash s). Qed.

Lemma split_slash_app a b :
  split_slash (a +:+ "/" +:+ b) = split_slash a ++ split_slash b.
Proof.
  induction a as [|c a IH]; simpl.
  - reflexivity.
  - rewrite IH. destruct (Ascii.eqb c "/"); [reflexivity|].
    pose proof (split_slash_nonempty a) as Hne.
    by destruct (split_slash a).
Qed.

Lemma split_slash_segment p : has_slash p = false -> split_slash p = [p].
Proof.
  induction p as [|c p IH]; simpl; [done|].
  intros H. apply orb_false_iff in H as [-> Hp]. by rewrite (IH Hp).
Qed.

Lemma split_slash_no_slash s : Forall (fun p => has_slash p = false) (split_slash s).
Proof.
  induction s as [|c s IH]; simpl.
  - by constructor.
  - destruct (Ascii.eqb c "/") eqn:Hc; [by constructor|].
    pose proof (split_slash_nonempty s) as Hne.
    destruct (split_slash s) as [|p ps]; [done|].
    inversion IH; subst. constructor; [|done]. simpl. by rewrite Hc.
Qed.

Lemma parts_of_app a b : parts_of (a +:+ "/" +:+ b) = parts_of a ++ parts_of b.
Proof. unfold parts_of. by rewrite split_slash_app, List.filter_app. Qed.

Lemma append_empty_r (p : string) : p +:+ "" = p.
Proof.
  induction p as [|c p IH]; [done|].
  change (String c (p +:+ "") = String c p). by rewrite IH.
Qed.

Lemma parts_of_segment p : segment p = true -> parts_of p = [p].
Proof.
  unfold segment. intros H. apply andb_true_iff in H as [Hne Hslash].
  apply negb_true_iff in Hslash.
  unfold parts_of. rewrite (split_slash_segment p Hslash). simpl. by rewrite Hne.
Qed.

Lemma parts_of_before_path p parts :
  parts_of (p +:+ path_of parts) = parts_of p ++ parts_of (path_of parts).
Proof.
  destruct parts as [|q parts].
  - simpl. by rewrite append_empty_r, app_nil_r.
  - change (path_of (q :: parts)) with ("" +:+ "/" +:+ (q +:+ path_of parts)).
    rewrite (parts_of_app "" (q +:+ path_of parts)).
    change (p +:+ "" +:+ "/" +:+ (q +:+ path_of parts))
      with (p +:+ "/" +:+ (q +:+ path_of parts)).
    by rewrite (parts_of_app p (q +:+ path_of parts)).
Qed.

Lemma has_slash_split p :
  has_slash p = true ->
  exists a b, p = a +:+ "/" +:+ b /\ has_slash a = false /\
              String.length b < String.length p.
Proof.
  induction p as [|c p IH]; simpl; [done|].
  destruct (Ascii.eqb c "/") eqn:Hc; simpl.
  - intros _. apply Ascii.eqb_eq in Hc as ->. exists "", p.
    split; [reflexivity|]. split; [reflexivity|lia].
  - intros Hp. destruct (IH Hp) as (a & b & -> & Ha & Hlen).
    exists (String c a), b. split; [reflexivity|]. split.
    + simpl. by rewrite Hc.
    + lia.
Qed.

Lemma parts_of_determined (f : string -> list string) :
  f "" = [] ->
  (forall p, segment p = true -> f p = [p]) ->
  (forall a b, f (a +:+ "/" +:+ b) = f a ++ f b) ->
  forall p, f p = parts_of p.
Proof.
  intros Hempty Hsegment Hjoin.
  assert (Hfree : forall a, has_slash a = false -> f a = parts_of a).
  { intros [|c a] Ha; [by rewrite Hempty|].
    assert (Hseg : segment (String c a) = true) by (unfold segment; by rewrite Ha).
    by rewrite (Hsegment _ Hseg), (parts_of_segment _ Hseg). }
  assert (Hall : forall n p, String.length p <= n -> f p = parts_of p).
  { induction n as [|n IH]; intros p Hlen.
    - destruct p; [by rewrite Hempty|simpl in Hlen; lia].
    - destruct (has_slash p) eqn:Hp; [|by apply Hfree].
      destruct (has_slash_split p Hp) as (a & b & -> & Ha & Hb).
      rewrite Hjoin, parts_of_app, (Hfree a Ha), (IH b); [done|lia]. }
  intros p. by apply (Hall (String.length p)).
Qed.

(** X1. [state.path.split('/').filter(Boolean)] cuts the path at every slash,
    keeps the pieces that are not empty and drops the empty ones.  The empty
    path has no parts; a segment, not empty and without a slash, is its own
    and only part; the parts of two paths joined by a slash are the parts of
    the one followed by the parts of the other.  These three say what the
    parts of every path are: a function of which they hold is this one.  So a
    slash in front, behind, or doubled, changes nothing; and every part is a
    segment. *)
Theorem parts_of_slashes :
  parts_of "" = [] /\
  (forall p, segment p = true -> parts_of p = [p]) /\
  (forall a b, parts_of (a +:+ "/" +:+ b) = parts_of a ++ parts_of b) /\
  (forall p, parts_of ("/" +:+ p) = parts_of p) /\
  (forall p, parts_of (p +:+ "/") = parts_of p) /\
  (forall a b, parts_of (a +:+ "//" +:+ b) = parts_of (a +:+ "/" +:+ b)) /\
  (forall path, Forall (fun p => segment p = true) (parts_of path)) /\
  (forall f : string -> list string,
     f "" = [] ->
     (forall p, segment p = true -> f p = [p]) ->
     (forall a b, f (a +:+ "/" +:+ b) = f a ++ f b) ->
     forall path, f path = parts_of path).
Proof.
  split; [reflexivity|]. split; [exact parts_of_segment|].
  split; [exact parts_of_app|]. split; [|split; [|split; [|split]]];
    [| | | |exact parts_of_determined].
  - intros p. apply (parts_of_app "" p).
  - intros p. change (p +:+ "/") with (p +:+ "/" +:+ "").
    rewrite (parts_of_app p ""). apply app_nil_r.
  - intros a b. change (a +:+ "//" +:+ b) with (a +:+ "/" +:+ ("" +:+ "/" +:+ b)).
    by rewrite !parts_of_app.
  - intros path. unfold parts_of. apply Forall_forall. intros p Hp.
    apply list_elem_of_In, List.filter_In in Hp as [Hin Hb].
    unfold segment. rewrite Hb. simpl.
    pose proof (split_slash_no_slash path) as Hall.
    rewrite Forall_forall in Hall. rewrite (Hall p); [done|].
    by apply list_elem_of_In.
Qed.

(** X2. Splitting undoes joining: the parts of the path made of segments,
    each after a slash, are these segments. *)
Theorem parts_of_path_of parts :
  forallb segment parts = true -> parts_of (path_of parts) = parts.
Proof.
  induction parts as [|p parts IH]; simpl; [done|].
  intros H. apply andb_true_iff in H as [Hp Hparts].
  change ("/" +:+ p +:+ path_of parts) with ("" +:+ "/" +:+ (p +:+ path_of parts)).
  rewrite (parts_of_app "" (p +:+ path_of parts)), parts_of_before_path.
  by rewrite (parts_of_segment p Hp), (IH Hparts).
Qed.

(** ** The entry of [readDirectory] and [readFile] *)

(** X3. Without an authority in the URI, [readDirectory] and [readFile] fail
    with [FileNotFound] on that URI at once: [parseUri] is not asked, no
    request is sent and the provider is as before. *)
Theorem no_authority_not_found fuel uri s :
  String.eqb (uri_authority uri) "" = true ->
  idle registry_readDirectory (Uri_toString uri) s ->
  idle registry_readFile (Uri_toString uri) s ->
  readDirectory (S fuel) uri s = Some (Throw (FileNotFound uri), s) /\
  readFile fuel uri s = Some (Throw (FileNotFound uri), s).
Proof.
  intros Ha Hd Hf. split.
  - simpl. apply reuseable_run; [exact Hd| |reflexivity].
    unfold readDirectory_func. by rewrite Ha.
  - unfold readFile. apply reuseable_run; [exact Hf| |reflexivity].
    unfold readFile_func. by rewrite Ha.
Qed.

(** X4. When [parseUri] rejects, [readDirectory], [readFile] and [stat] fail
    with that rejection before anything is looked up: the root is not
    created, no request is sent, and only the world has moved on. *)
Theorem parseUri_rejection fuel uri s reason w :
  String.eqb (uri_authority uri) "" = false ->
  idle registry_readDirectory (Uri_toString uri) s ->
  idle registry_readFile (Uri_toString uri) s ->
  parseUri uri (world s) = (Rejected reason, w) ->
  readDirectory (S fuel) uri s = Some (Throw (RemoteFailure reason), with_world w s) /\
  readFile fuel uri s = Some (Throw (RemoteFailure reason), with_world w s) /\
  stat fuel uri s = Some (Throw (RemoteFailure reason), with_world w s).
Proof.
  intros Ha Hd Hf Hp. split; [|split].
  - simpl. apply reuseable_run; [exact Hd| |reflexivity].
    unfold readDirectory_func. rewrite Ha. unfold bind, await_parseUri.
    simpl. by rewrite Hp.
  - unfold readFile. apply reuseable_run; [exact Hf| |reflexivity].
    unfold readFile_func. rewrite Ha. unfold bind, await_parseUri.
    simpl. by rewrite Hp.
  - unfold stat, bind, await_parseUri. by rewrite Hp.
Qed.

(** X5. A listing of a path that leads to a file fails with
    [FileNotADirectory], a read of a path that leads to a directory fails
    with [FileIsADirectory], and both fail with [FileNotFound] on a path that
    stops short in the populated tree; the error names the URI that
    [parseUri] returned.  None of them sends a request or changes the
    store. *)
Theorem wrong_kind_errors fuel uri s state w :
  String.eqb (uri_authority uri) "" = false ->
  idle registry_readDirectory (Uri_toString uri) s ->
  idle registry_readFile (Uri_toString uri) s ->
  parseUri uri (world s) = (Resolved state, w) ->
  (forall l f, resolve s (st_path state) = Some l -> heap s !! l = Some (EFile f) ->
     readDirectory (S fuel) uri s
       = Some (Throw (FileNotADirectory (st_uri state)), with_world w s)) /\
  (forall l d, resolve s (st_path state) = Some l -> heap s !! l = Some (EDirectory d) ->
     readFile fuel uri s
       = Some (Throw (FileIsADirectory (st_uri state)), with_world w s)) /\
  (forall stop, stops_at s (st_path state) stop ->
     readDirectory (S fuel) uri s
       = Some (Throw (FileNotFound (st_uri state)), with_world w s) /\
     readFile fuel uri s
       = Some (Throw (FileNotFound (st_uri state)), with_world w s)).
Proof.
  intros Ha Hd Hf Hp. split; [|split].
  - intros l f Hl He. simpl. apply reuseable_run; [exact Hd| |reflexivity].
    unfold readDirectory_func. rewrite Ha. unfold bind at 1, await_parseUri.
    simpl. rewrite Hp. simpl. unfold bind.
    by erewrite lookupAsDirectory_file; [|exact Hl|exact He].
  - intros l d Hl He. unfold readFile. apply reuseable_run; [exact Hf| |reflexivity].
    unfold readFile_func. rewrite Ha. unfold bind at 1, await_parseUri.
    simpl. rewrite Hp. simpl. unfold bind.
    by erewrite lookupAsFile_directory; [|exact Hl|exact He].
  - intros stop Hstop. split.
    + simpl. apply reuseable_run; [exact Hd| |reflexivity].
      unfold readDirectory_func. rewrite Ha. unfold bind at 1, await_parseUri.
      simpl. rewrite Hp. simpl. unfold bind.
      by erewrite lookupAsDirectory_stops; [|exact Hstop].
    + unfold readFile. apply reuseable_run; [exact Hf| |reflexivity].
      unfold readFile_func. rewrite Ha. unfold bind at 1, await_parseUri.
      simpl. rewrite Hp. simpl. unfold bind.
      by erewrite lookupAsFile_stops; [|exact Hstop].
Qed.

(** ** [stat] *)

(** X6. [stat] of a path that is populated returns its node, file or
    directory, without a request and without a change of the store; it does
    not fetch the content of a file.  On a path that stops short it fails
    with [FileNotFound].  On a new provider, [stat] of a path without
    segments creates the root and returns it, and leaves it unpopulated. *)
Theorem stat_node fuel uri s state w :
  parseUri uri (world s) = (Resolved state, w) ->
  (forall l, resolve s (st_path state) = Some l ->
     stat fuel uri s = Some (Return (Some l), with_world w s)) /\
  (forall stop, stops_at s (st_path state) stop ->
     stat fuel uri s = Some (Throw (FileNotFound (st_uri state)), with_world w s)) /\
  (root s = None -> parts_of (st_path state) = [] ->
     stat fuel uri s
       = Some (Return (Some (length (heap s))), ensure_root state (with_world w s)) /\
     heap (ensure_root state (with_world w s)) !! length (heap s)
       = Some (EDirectory (new_Directory (Date_now w)
                             (Uri_with_path (st_uri state) "/") "" None)) /\
     calls (ensure_root state (with_world w s)) = calls s).
Proof.
  intros Hp. split; [|split].
  - intros l Hl. unfold stat, bind, await_parseUri. rewrite Hp. simpl.
    by apply lookup_resolve.
  - intros stop Hstop. unfold stat, bind, await_parseUri. rewrite Hp. simpl.
    by erewrite lookup_stops; [|exact Hstop].
  - intros Hr Hparts. split; [|split].
    + unfold stat, bind at 1, await_parseUri. rewrite Hp. simpl.
      apply lookup_ensure_root. unfold resolve, ensure_root. simpl.
      by rewrite Hr, Hparts.
    + unfold ensure_root. simpl. rewrite Hr. simpl.
      rewrite lookup_app_r by lia.
      by replace (length (heap s) - length (heap s)) with 0 by lia.
    + exact (ensure_root_calls state (with_world w s)).
Qed.

(** ** What the store keeps *)

Lemma entry_le_refl e : entry_le e e.
Proof. destruct e; simpl; auto. Qed.

Lemma entry_le_trans e1 e2 e3 : entry_le e1 e2 -> entry_le e2 e3 -> entry_le e1 e3.
Proof.
  destruct e1, e2, e3; simpl; try done; intros [H1 H1'] [H2 H2'];
    (split; [congruence|auto]).
Qed.

Lemma entry_le_name e e' : entry_le e e' -> entry_name e' = entry_name e.
Proof.
  destruct e as [f|d], e' as [f'|d']; simpl; try done; intros [H _].
  - by destruct f, f'; simpl in *; inversion H.
  - by destruct d, d'; simpl in *; inversion H.
Qed.

Lemma entry_le_type e e' : entry_le e e' -> entry_type e' = entry_type e.
Proof. by destruct e, e'. Qed.

Lemma entry_le_set_entries d m :
  dir_entries d = None -> entry_le (EDirectory d) (set_entries m (EDirectory d)).
Proof. intros Hd. simpl. split; [done|]. intros m'. by rewrite Hd. Qed.

Lemma entry_le_set_data f b :
  file_data f = None -> entry_le (EFile f) (set_data b (EFile f)).
Proof. intros Hd. simpl. split; [done|]. intros b'. by rewrite Hd. Qed.

Lemma heap_le_refl h : heap_le h h.
Proof. intros l e He. exists e. split; [done|apply entry_le_refl]. Qed.

Lemma heap_le_trans h1 h2 h3 : heap_le h1 h2 -> heap_le h2 h3 -> heap_le h1 h3.
Proof.
  intros H12 H23 l e He. destruct (H12 _ _ He) as (e2 & He2 & Hle2).
  destruct (H23 _ _ He2) as (e3 & He3 & Hle3).
  exists e3. split; [done|]. by eapply entry_le_trans.
Qed.

Lemma heap_le_prefix h h' : h `prefix_of` h' -> heap_le h h'.
Proof.
  intros Hp l e He. exists e. split; [|apply entry_le_refl].
  by eapply prefix_lookup_Some.
Qed.

Lemma heap_le_alter h l f :
  (forall e, h !! l = Some e -> entry_le e (f e)) -> heap_le h (alter f l h).
Proof.
  intros Hf x e He. destruct (decide (l = x)) as [->|Hne].
  - exists (f e). rewrite list_lookup_alter_eq, He. split; [done|]. by apply Hf.
  - exists e. rewrite list_lookup_alter_ne by done. split; [done|apply entry_le_refl].
Qed.

Lemma heap_le_set_entries h l d m :
  h !! l = Some (EDirectory d) -> dir_entries d = None ->
  heap_le h (alter (set_entries m) l h).
Proof.
  intros Hl Hd. apply heap_le_alter. intros e He.
  rewrite Hl in He. inversion He; subst. by apply entry_le_set_entries.
Qed.

Lemma heap_le_set_data h l f b :
  h !! l = Some (EFile f) -> file_data f = None ->
  heap_le h (alter (set_data b) l h).
Proof.
  intros Hl Hd. apply heap_le_alter. intros e He.
  rewrite Hl in He. inversion He; subst. by apply entry_le_set_data.
Qed.

Lemma heap_le_keeps h h' : heap_le h h' -> keeps_populated h h'.
Proof.
  intros Hle l d m Hl Hd. destruct (Hle _ _ Hl) as (e' & He' & Hentry).
  destruct e' as [f'|d']; [done|]. destruct Hentry as [_ Hm].
  exists d'. split; [done|]. by apply Hm.
Qed.

Lemma map_ok_le h h' m : heap_le h h' -> map_ok h m -> map_ok h' m.
Proof.
  intros Hle [Hnd Hm]. split; [done|].
  intros k v Hin. destruct (Hm _ _ Hin) as (e & He & Hname).
  destruct (Hle _ _ He) as (e' & He' & Hentry).
  exists e'. split; [done|]. by rewrite (entry_le_name _ _ Hentry).
Qed.

Lemma map_ok_nil h : map_ok h [].
Proof.
  split; [apply NoDup_nil_2|]. intros k v Hin. by apply elem_of_nil in Hin.
Qed.

Lemma elem_of_map_set k v m k' v' :
  (k', v') ∈ map_set k v m -> (k', v') = (k, v) \/ (k', v') ∈ m.
Proof.
  induction m as [|[k0 v0] m IH]; simpl.
  - intros H. apply list_elem_of_singleton in H. by left.
  - destruct (String.eqb k k0); intros H; apply elem_of_cons in H as [H|H]; auto.
    + right. apply elem_of_cons. by right.
    + right. apply elem_of_cons. by left.
    + destruct (IH H) as [?|?]; auto. right. apply elem_of_cons. by right.
Qed.

Lemma map_set_keys k v m : NoDup m.*1 -> NoDup (map_set k v m).*1.
Proof.
  induction m as [|[k0 v0] m IH]; simpl; intros Hnd.
  - apply NoDup_singleton.
  - apply NoDup_cons in Hnd as [Hk0 Hnd].
    destruct (String.eqb k k0) eqn:Heq; simpl.
    + apply String.eqb_eq in Heq as ->. by apply NoDup_cons.
    + apply String.eqb_neq in Heq. apply NoDup_cons. split; [|by apply IH].
      intros Hin. apply list_elem_of_fmap in Hin as ([k1 v1] & Hk & Hin).
      simpl in Hk. subst k1.
      destruct (elem_of_map_set _ _ _ _ _ Hin) as [[= -> ->]|Hold]; [done|].
      apply Hk0. apply list_elem_of_fmap. by exists (k0, v1).
Qed.

Lemma map_ok_set h k v m e :
  h !! v = Some e -> entry_name e = k -> map_ok h m -> map_ok h (map_set k v m).
Proof.
  intros He Hname [Hnd Hm]. split; [by apply map_set_keys|].
  intros k' v' Hin.
  destruct (elem_of_map_set _ _ _ _ _ Hin) as [[= -> ->]|Hold]; eauto.
Qed.

(** A store stays closed when it grows by nodes whose entries, where it did
    not have them, are nodes of the grown store. *)
Lemma wf_heap_le h h' :
  wf_heap h -> heap_le h h' ->
  (forall l d m, h' !! l = Some (EDirectory d) -> dir_entries d = Some m ->
     (exists d0, h !! l = Some (EDirectory d0) /\ dir_entries d0 = Some m) \/
     map_ok h' m) ->
  wf_heap h'.
Proof.
  intros Hwf Hle Hnew l d m Hl Hd.
  destruct (Hnew _ _ _ Hl Hd) as [(d0 & Hl0 & Hd0)|Hok]; [|done].
  eapply map_ok_le; [exact Hle|]. by eapply Hwf.
Qed.

Lemma wf_heap_app h e :
  wf_heap h ->
  match e with EDirectory d => dir_entries d = None | EFile _ => True end ->
  wf_heap (h ++ [e]).
Proof.
  intros Hwf Hfresh. apply (wf_heap_le h); [done|by apply heap_le_prefix, prefix_app_r|].
  intros l d m Hl Hd. left.
  destruct (decide (l < length h)) as [Hlt|Hge].
  - rewrite lookup_app_l in Hl by done. eauto.
  - rewrite lookup_app_r in Hl by lia.
    destruct (l - length h) as [|n]; simpl in Hl; [|done].
    inversion Hl; subst. congruence.
Qed.

Lemma wf_heap_set_entries h l d m :
  wf_heap h -> h !! l = Some (EDirectory d) -> dir_entries d = None ->
  map_ok h m ->
  wf_heap (alter (set_entries (Some m)) l h).
Proof.
  intros Hwf Hl Hd Hm.
  assert (Hle : heap_le h (alter (set_entries (Some m)) l h))
    by by eapply heap_le_set_entries.
  apply (wf_heap_le h); [done|done|].
  intros x d' m' Hx Hd'. destruct (decide (l = x)) as [->|Hne].
  - right. rewrite list_lookup_alter_eq, Hl in Hx. simpl in Hx.
    inversion Hx; subst. simpl in Hd'. inversion Hd'; subst.
    by eapply map_ok_le.
  - left. rewrite list_lookup_alter_ne in Hx by done. eauto.
Qed.

Lemma wf_heap_set_data h l f b :
  wf_heap h -> h !! l = Some (EFile f) -> file_data f = None ->
  wf_heap (alter (set_data b) l h).
Proof.
  intros Hwf Hl Hd.
  apply (wf_heap_le h); [done|by eapply heap_le_set_data|].
  intros x d' m' Hx Hd'. left. destruct (decide (l = x)) as [->|Hne].
  - rewrite list_lookup_alter_eq, Hl in Hx. by simpl in Hx.
  - rewrite list_lookup_alter_ne in Hx by done. eauto.
Qed.

(** ** [entriesToMap] keeps the store closed *)

Lemma lookup_snoc {A} (h : list A) (e : A) : (h ++ [e]) !! length h = Some e.
Proof.
  rewrite lookup_app_r by lia. by replace (length h - length h) with 0 by lia.
Qed.

Lemma entriesToMap_forEach_wf now : forall item uri m h,
  wf_heap h -> map_ok h m ->
  wf_heap (entriesToMap_forEach now uri item (m, h)).2 /\
  map_ok (entriesToMap_forEach now uri item (m, h)).2
         (entriesToMap_forEach now uri item (m, h)).1.
Proof.
  fix IH 1. intros [type name oid object] uri m h Hwf Hm. simpl.
  assert (Happ : forall e,
            match e with EDirectory d => dir_entries d = None | EFile _ => True end ->
            entry_name e = name ->
            wf_heap (h ++ [e]) /\ map_ok (h ++ [e]) (map_set name (length h) m)).
  { intros e Hfresh Hname. split; [by apply wf_heap_app|].
    eapply map_ok_set; [apply lookup_snoc|exact Hname|].
    eapply map_ok_le; [|exact Hm]. by apply heap_le_prefix, prefix_app_r. }
  destruct (String.eqb type "tree"); [|by apply Happ].
  match goal with |- context [h ++ [?e]] => set (dir := e) end.
  set (h1 := h ++ [dir]).
  assert (Hh1 : wf_heap h1 /\ map_ok h1 (map_set name (length h) m)) by by apply Happ.
  destruct object as [[entries bs ib tx]|]; [|exact Hh1]. simpl.
  destruct entries as [entries|]; [|exact Hh1].
  match goal with |- context [?F entries ([], h1)] =>
    assert (Hsub : forall acc : list (string * nat) * list Entry,
              wf_heap acc.2 -> map_ok acc.2 acc.1 ->
              wf_heap (F entries acc).2 /\ map_ok (F entries acc).2 (F entries acc).1)
  end.
  { induction entries as [|i entries IHe]; intros acc Hwfa Hma; simpl; [done|].
    destruct acc as [m' h'].
    destruct (IH i (Uri_joinPath uri name) m' h' Hwfa Hma) as [Hw Ho].
    by apply IHe. }
  destruct (Hsub ([], h1) (proj1 Hh1) (map_ok_nil h1)) as [Hwf2 Hok2].
  rewrite forEach_fix in *.
  pose proof (forEach_prefix now (Uri_joinPath uri name) entries [] h1) as Hprefix.
  destruct (forEach now (Uri_joinPath uri name) entries ([], h1)) as [sub h2].
  simpl in *.
  assert (Hdir : h2 !! length h = Some dir).
  { eapply prefix_lookup_Some; [|exact Hprefix]. apply lookup_snoc. }
  split.
  - by eapply wf_heap_set_entries.
  - eapply map_ok_set.
    + by rewrite list_lookup_alter_eq, Hdir.
    + reflexivity.
    + eapply map_ok_le; [|exact Hm].
      eapply heap_le_trans; [apply heap_le_prefix, prefix_app_r; reflexivity|].
      eapply heap_le_trans; [apply heap_le_prefix; exact Hprefix|].
      by eapply heap_le_set_entries.
Qed.

Lemma forEach_wf now uri items : forall m h,
  wf_heap h -> map_ok h m ->
  wf_heap (forEach now uri items (m, h)).2 /\
  map_ok (forEach now uri items (m, h)).2 (forEach now uri items (m, h)).1.
Proof.
  induction items as [|i items IH]; intros m h Hwf Hm; simpl; [done|].
  destruct (entriesToMap_forEach_wf now i uri m h Hwf Hm) as [Hw Ho].
  destruct (entriesToMap_forEach now uri i (m, h)) as [m' h']. by apply IH.
Qed.

(** ** The REST branch of [readDirectory] *)

Lemma alter_fixed {A} (f : A -> A) (h : list A) l e :
  h !! l = Some e -> f e = e -> alter f l h = h.
Proof.
  intros He Hf. apply list_eq. intros x. destruct (decide (l = x)) as [->|Hne].
  - by rewrite list_lookup_alter_eq, He; simpl; rewrite Hf.
  - by rewrite list_lookup_alter_ne.
Qed.

Lemma with_heap_id s : with_heap (heap s) s = s.
Proof. by destruct s. Qed.

Lemma set_entries_twice m m' e :
  set_entries m (set_entries m' e) = set_entries m e.
Proof. by destruct e. Qed.

Lemma set_entries_entries_set m k v e :
  set_entries m (entries_set k v e) = set_entries m e.
Proof. by destruct e. Qed.

Lemma rest_entry_name now uri item : entry_name (rest_entry now uri item) = rest_path item.
Proof. unfold rest_entry. by destruct (String.eqb _ _). Qed.

Lemma rest_entry_type now uri item :
  entry_type (rest_entry now uri item) = (rest_pair item).2.
Proof. unfold rest_entry, rest_pair. by destruct (String.eqb _ _). Qed.

(** What the loop over [data.tree] does to a provider in which [parent] has a
    map: the nodes are appended in the order of the answer, and the map of
    [parent] is the one filled by the items in turn. *)
Lemma readDirectory_map_run uri parent tree : forall s d m,
  heap s !! parent = Some (EDirectory d) ->
  dir_entries d = Some m ->
  readDirectory_map uri parent tree s =
    Some (Return (map rest_pair tree),
          with_heap
            (alter (set_entries (Some (rest_fill (length (heap s)) tree m))) parent
               (heap s ++ map (rest_entry (Date_now (world s)) uri) tree)) s).
Proof.
  induction tree as [|item tree IH]; intros s d m Hp Hd.
  - simpl. unfold ret. rewrite app_nil_r.
    rewrite (alter_fixed _ _ _ _ Hp), with_heap_id; [done|].
    simpl. destruct d; simpl in *. by rewrite Hd.
  - assert (Hlt : parent < length (heap s)) by (apply lookup_lt_is_Some; eauto).
    simpl. unfold bind at 1 2 3, now, alloc, update, modify. simpl.
    match goal with |- context [heap s ++ [?e]] =>
      replace e with (rest_entry (Date_now (world s)) uri item)
        by (unfold rest_entry; by destruct (String.eqb _ _))
    end.
    set (node := rest_entry (Date_now (world s)) uri item).
    set (h1 := alter (entries_set (rest_path item) (length (heap s))) parent
                 (heap s ++ [node])).
    assert (Hp1 : h1 !! parent
                  = Some (EDirectory (with_entries d
                            (Some (map_set (rest_path item) (length (heap s)) m))))).
    { subst h1. rewrite list_lookup_alter_eq, lookup_app_l, Hp by done.
      simpl. by rewrite Hd. }
    unfold bind.
    match goal with |- context [readDirectory_map uri parent tree ?s1] =>
      rewrite (IH s1 _ _ Hp1 eq_refl)
    end.
    unfold ret. simpl. fold node. fold h1.
    assert (Hlen : length h1 = S (length (heap s))).
    { subst h1. rewrite length_alter, length_app. simpl. lia. }
    rewrite Hlen.
    assert (Hheap : forall f,
              alter (set_entries f) parent
                (h1 ++ map (rest_entry (Date_now (world s)) uri) tree)
              = alter (set_entries f) parent
                  (heap s ++ node :: map (rest_entry (Date_now (world s)) uri) tree)).
    { intros f. subst h1.
      rewrite <- alter_app_l by (rewrite length_app; simpl; lia).
      rewrite list_alter_alter_eq, <- app_assoc. simpl.
      apply list_alter_ext; [|done]. intros e _. apply set_entries_entries_set. }
    rewrite Hheap. reflexivity.
Qed.

Lemma readDirectory_fetch_rest uri state parent s d data w' :
  heap s !! parent = Some (EDirectory d) ->
  isGraphQLEnabled (world s) = false ->
  readGitHubDirectory state (world s) = (Resolved data, w') ->
  readDirectory_fetch uri state parent s =
    Some (Return (map rest_pair (rest_tree data)),
          with_heap
            (alter (set_entries (Some (rest_fill (length (heap s)) (rest_tree data) [])))
               parent
               (heap s ++ map (rest_entry (Date_now w') uri) (rest_tree data)))
            (with_calls (calls s ++ [CallDirectory state]) (with_world w' s))).
Proof.
  intros Hp Hflag Hq.
  assert (Hlt : parent < length (heap s)) by (apply lookup_lt_is_Some; eauto).
  unfold readDirectory_fetch. unfold bind at 1, get. simpl. rewrite Hflag.
  unfold bind at 1, await_remote. simpl. rewrite Hq. simpl.
  unfold bind at 1, update, modify. simpl.
  set (h1 := alter (set_entries (Some [])) parent (heap s)).
  assert (Hp1 : h1 !! parent = Some (EDirectory (with_entries d (Some [])))).
  { subst h1. by rewrite list_lookup_alter_eq, Hp. }
  match goal with |- readDirectory_map uri parent _ ?s1 = _ =>
    rewrite (readDirectory_map_run uri parent (rest_tree data) s1 _ _ Hp1 eq_refl)
  end.
  simpl. fold h1.
  assert (Hlen : length h1 = length (heap s)) by (subst h1; apply length_alter).
  rewrite Hlen.
  assert (Hheap : forall f es,
            alter (set_entries f) parent (h1 ++ es)
            = alter (set_entries f) parent (heap s ++ es)).
  { intros f es. subst h1.
    rewrite <- alter_app_l by done. rewrite list_alter_alter_eq.
    apply list_alter_ext; [|done]. intros e _. apply set_entries_twice. }
  rewrite Hheap. reflexivity.
Qed.

Lemma wf_heap_app_list es : forall h,
  wf_heap h ->
  Forall (fun e => match e with
                   | EDirectory d => dir_entries d = None
                   | EFile _ => True
                   end) es ->
  wf_heap (h ++ es).
Proof.
  induction es as [|e es IH]; intros h Hwf Hes.
  - by rewrite app_nil_r.
  - inversion Hes; subst.
    replace (h ++ e :: es) with ((h ++ [e]) ++ es) by by rewrite <- app_assoc.
    apply IH; [|done]. by apply wf_heap_app.
Qed.

Lemma rest_fill_ok h tree : forall base m,
  map_ok h m ->
  (forall i item, tree !! i = Some item ->
     exists e, h !! (base + i) = Some e /\ entry_name e = rest_path item) ->
  map_ok h (rest_fill base tree m).
Proof.
  induction tree as [|item tree IH]; intros base m Hm Hnodes; simpl; [done|].
  apply IH.
  - destruct (Hnodes 0 item eq_refl) as (e & He & Hname).
    rewrite Nat.add_0_r in He. by eapply map_ok_set.
  - intros i item' Hi. destruct (Hnodes (S i) item' Hi) as (e & He & Hname).
    exists e. split; [|done]. by replace (S base + i) with (base + S i) by lia.
Qed.

Lemma rest_nodes_fresh now uri tree :
  Forall (fun e => match e with
                   | EDirectory d => dir_entries d = None
                   | EFile _ => True
                   end) (map (rest_entry now uri) tree).
Proof.
  apply Forall_forall. intros e He. apply list_elem_of_In, in_map_iff in He
    as (item & <- & _).
  unfold rest_entry. by destruct (String.eqb _ _).
Qed.

Lemma rest_fill_nodes h now uri tree :
  map_ok (h ++ map (rest_entry now uri) tree) (rest_fill (length h) tree []).
Proof.
  apply rest_fill_ok; [apply map_ok_nil|].
  intros i item Hi. exists (rest_entry now uri item).
  split; [|apply rest_entry_name].
  rewrite lookup_app_r by lia.
  replace (length h + i - length h) with i by lia.
  by rewrite list_lookup_fmap, Hi.
Qed.

(** ** Every run is a sound step *)

Lemma grows_refl s : grows s s.
Proof. split; [|split; [|split]]; auto using heap_le_refl. Qed.

Lemma grows_trans s1 s2 s3 : grows s1 s2 -> grows s2 s3 -> grows s1 s3.
Proof.
  intros (Hh & Hr & Hc & Hi) (Hh' & Hr' & Hc' & Hi'). split; [|split; [|split]].
  - by eapply heap_le_trans.
  - auto.
  - by etrans.
  - intros r. by rewrite Hi', Hi.
Qed.

Lemma sound_step_refl s : sound_step s s.
Proof. split; [apply grows_refl|done]. Qed.

Lemma sound_step_trans s1 s2 s3 :
  sound_step s1 s2 -> sound_step s2 s3 -> sound_step s1 s3.
Proof. intros [Hg Hw] [Hg' Hw']. split; [by eapply grows_trans|auto]. Qed.

Lemma heap_le_directory h h' l d :
  heap_le h h' -> h !! l = Some (EDirectory d) ->
  exists d', h' !! l = Some (EDirectory d').
Proof.
  intros Hle Hl. destruct (Hle _ _ Hl) as (e' & He' & Hentry).
  destruct e' as [f'|d']; [done|]. eauto.
Qed.

(** A step that keeps the root and the registries. *)
Lemma sound_step_intro s s' :
  heap_le (heap s) (heap s') ->
  (wf_heap (heap s) -> wf_heap (heap s')) ->
  root s' = root s ->
  calls s `prefix_of` calls s' ->
  inflight_readDirectory s' = inflight_readDirectory s ->
  inflight_readFile s' = inflight_readFile s ->
  sound_step s s'.
Proof.
  intros Hle Hwf Hroot Hcalls Hd Hf. split.
  - split; [done|split; [|split; [done|]]].
    + intros r. by rewrite Hroot.
    + by intros [].
  - intros [Hr Hw]. split; [|auto].
    intros r Hr'. rewrite Hroot in Hr'. destruct (Hr _ Hr') as [d Hl].
    by eapply heap_le_directory.
Qed.

Lemma sound_step_ensure_root state s : sound_step s (ensure_root state s).
Proof.
  unfold ensure_root. destruct (root s) as [r|] eqn:Hroot; [apply sound_step_refl|].
  split.
  - split; [|split; [|split]]; simpl.
    + by apply heap_le_prefix, prefix_app_r.
    + by rewrite Hroot.
    + done.
    + by intros [].
  - intros [_ Hw]. split; simpl.
    + intros r [= <-]. eexists. apply lookup_snoc.
    + by apply wf_heap_app.
Qed.

Lemma bind_inv {A B} (m : M A) (k : A -> M B) s c s' :
  bind m k s = Some (c, s') ->
  (exists e, m s = Some (Throw e, s') /\ c = Throw e) \/
  (exists a s1, m s = Some (Return a, s1) /\ k a s1 = Some (c, s')).
Proof.
  unfold bind. destruct (m s) as [[[a|e] s1]|]; [eauto| |done].
  intros [= <- <-]. eauto.
Qed.

Lemma deref_inv l s c s' :
  deref l s = Some (c, s') -> s' = s /\ exists e, c = Return e /\ heap s !! l = Some e.
Proof.
  unfold deref. destruct (heap s !! l) as [e|]; [|done]. intros [= <- <-]. eauto.
Qed.

Lemma sound_bind {A B} (m : M A) (k : A -> M B) :
  sound m -> (forall a, sound (k a)) -> sound (bind m k).
Proof.
  intros Hm Hk s c s' Hrun.
  apply bind_inv in Hrun as [(e & Hrun & _)|(a & s1 & Hrun & Hrun')].
  - by eapply Hm.
  - eapply sound_step_trans; [by eapply Hm|by eapply Hk].
Qed.

Lemma sound_ret {A} (a : A) : sound (ret a).
Proof. intros s c s' [= <- <-]. apply sound_step_refl. Qed.

Lemma sound_throw {A} e : sound (throw (A:=A) e).
Proof. intros s c s' [= <- <-]. apply sound_step_refl. Qed.

Lemma sound_deref l : sound (deref l).
Proof. intros s c s' Hrun. apply deref_inv in Hrun as [-> _]. apply sound_step_refl. Qed.

Lemma sound_getNameTypePairs this : sound (getNameTypePairs this).
Proof.
  intros s c s'. unfold getNameTypePairs.
  destruct (heap s !! this) as [[f|d]|]; [done| |done].
  destruct (nameTypePairs _ _); [|done]. intros [= <- <-]. apply sound_step_refl.
Qed.

Lemma sound_step_world s w : sound_step s (with_world w s).
Proof. apply sound_step_intro; simpl; auto using heap_le_refl. Qed.

Lemma sound_await_parseUri uri : sound (await_parseUri uri).
Proof.
  intros s c s'. unfold await_parseUri.
  destruct (parseUri uri (world s)) as [r w]. intros [= <- <-].
  apply sound_step_world.
Qed.

Lemma sound_instanceof_Directory entry : sound (instanceof_Directory entry).
Proof.
  destruct entry as [l|]; simpl; [|apply sound_ret].
  apply sound_bind; [apply sound_deref|]. intros e. apply sound_ret.
Qed.

Lemma sound_instanceof_File entry : sound (instanceof_File entry).
Proof.
  destruct entry as [l|]; simpl; [|apply sound_ret].
  apply sound_bind; [apply sound_deref|]. intros e. apply sound_ret.
Qed.

Section SoundLookup.
Variable rd : Uri -> M (list (string * FileType)).
Hypothesis sound_rd : forall uri, sound (rd uri).

Lemma sound_lookup_for state silent parts : forall entry,
  sound (_lookup_for rd state silent entry parts).
Proof.
  induction parts as [|part parts IH]; intros entry; simpl; [apply sound_ret|].
  apply sound_bind; [apply sound_deref|]. intros e.
  apply sound_bind.
  - destruct e as [f|d]; [apply sound_ret|].
    apply sound_bind.
    + destruct (dir_entries d); [apply sound_ret|].
      apply sound_bind; [apply sound_rd|]. intros _. apply sound_ret.
    + intros _. apply sound_bind; [apply sound_deref|].
      intros [f'|d']; [apply sound_throw|].
      destruct (dir_entries d'); [apply sound_ret|apply sound_throw].
  - intros [c|]; [apply IH|]. destruct silent; [apply sound_ret|apply sound_throw].
Qed.

Lemma lookup_unfold state silent s :
  exists r,
    root (ensure_root state s) = Some r /\
    _lookup rd state silent s
    = _lookup_for rd state silent r (parts_of (st_path state)) (ensure_root state s).
Proof.
  unfold _lookup, ensure_root. unfold bind at 1, get.
  destruct (root s) as [r|] eqn:Hroot.
  - exists r. by rewrite Hroot.
  - exists (length (heap s)). split; [done|]. reflexivity.
Qed.

Lemma sound_lookup state silent : sound (_lookup rd state silent).
Proof.
  intros s c s' Hrun.
  destruct (lookup_unfold state silent s) as (r & _ & Heq). rewrite Heq in Hrun.
  eapply sound_step_trans; [apply sound_step_ensure_root|].
  by eapply sound_lookup_for.
Qed.

Lemma sound_lookupAsDirectory state silent : sound (_lookupAsDirectory rd state silent).
Proof.
  apply sound_bind; [apply sound_lookup|]. intros entry.
  apply sound_bind; [apply sound_instanceof_Directory|].
  intros [|]; [apply sound_ret|]. destruct silent; [apply sound_ret|apply sound_throw].
Qed.

Lemma sound_lookupAsFile state silent : sound (_lookupAsFile rd state silent).
Proof.
  apply sound_bind; [apply sound_lookup|]. intros entry.
  apply sound_bind; [apply sound_instanceof_File|].
  intros [|]; [apply sound_ret|]. destruct silent; [apply sound_ret|apply sound_throw].
Qed.

End SoundLookup.

(** Populating a directory that has no entries is a sound step, whatever the
    strategy and whatever the service answers. *)
Lemma readDirectory_fetch_sound uri state parent s d c s' :
  heap s !! parent = Some (EDirectory d) ->
  dir_entries d = None ->
  readDirectory_fetch uri state parent s = Some (c, s') ->
  sound_step s s'.
Proof.
  intros Hp Hd Hrun.
  destruct (population_failure uri state (world s)) as [[e w']|] eqn:Hfail.
  { rewrite (readDirectory_fetch_failure _ _ _ _ _ _ Hfail) in Hrun.
    injection Hrun as <- <-. apply sound_step_intro; simpl; auto using heap_le_refl.
    by apply prefix_app_r. }
  unfold population_failure in Hfail.
  destruct (isGraphQLEnabled (world s)) eqn:Hflag.
  - destruct (apolloClient_query _ _ _ _) as [[response|reason] w'] eqn:Hq; [|done].
    destruct (response_entries response) as [entries|] eqn:Hent; [|done].
    destruct (readDirectory_fetch_deep uri _ _ _ _ _ _ _ Hp Hflag Hq Hent)
      as [pairs Heq].
    rewrite Heq in Hrun. injection Hrun as <- <-.
    pose proof (forEach_prefix (Date_now w') uri entries [] (heap s)) as Hprefix.
    assert (Hp' : (forEach (Date_now w') uri entries ([], heap s)).2 !! parent
                  = Some (EDirectory d))
      by (eapply prefix_lookup_Some; [exact Hp|exact Hprefix]).
    apply sound_step_intro; simpl; auto.
    + eapply heap_le_trans; [apply heap_le_prefix; exact Hprefix|].
      by eapply heap_le_set_entries.
    + intros Hwf.
      destruct (forEach_wf (Date_now w') uri entries [] (heap s) Hwf (map_ok_nil _))
        as [Hwf' Hok].
      by eapply wf_heap_set_entries.
    + by apply prefix_app_r.
  - destruct (readGitHubDirectory state (world s)) as [[data|reason] w'] eqn:Hq; [|done].
    rewrite (readDirectory_fetch_rest uri _ _ _ _ _ _ Hp Hflag Hq) in Hrun.
    injection Hrun as <- <-.
    assert (Hp' : (heap s ++ map (rest_entry (Date_now w') uri) (rest_tree data)) !! parent
                  = Some (EDirectory d))
      by (rewrite lookup_app_l; [done|apply lookup_lt_is_Some; eauto]).
    apply sound_step_intro; simpl; auto.
    + eapply heap_le_trans; [apply heap_le_prefix, prefix_app_r; reflexivity|].
      by eapply heap_le_set_entries.
    + intros Hwf. eapply wf_heap_set_entries; [|exact Hp'|done|apply rest_fill_nodes].
      apply wf_heap_app_list; [done|apply rest_nodes_fresh].
    + by apply prefix_app_r.
Qed.

Lemma readDirectory_func_sound rd uri :
  (forall u, sound (rd u)) -> sound (readDirectory_func rd uri).
Proof.
  intros Hrd s c s' Hrun. unfold readDirectory_func in Hrun.
  destruct (String.eqb (uri_authority uri) "").
  { by eapply sound_throw. }
  apply bind_inv in Hrun as [(e & Hrun & _)|(state & s1 & Hrun1 & Hrun)].
  { by eapply sound_await_parseUri. }
  eapply sound_step_trans; [by eapply sound_await_parseUri|]. clear Hrun1.
  apply bind_inv in Hrun as [(e & Hrun & _)|(found & s2 & Hrun2 & Hrun)].
  { by eapply sound_lookupAsDirectory. }
  eapply sound_step_trans; [by eapply sound_lookupAsDirectory|]. clear Hrun2.
  destruct found as [parent|]; [|by eapply sound_throw].
  apply bind_inv in Hrun as [(e & Hrun & _)|(e & s3 & Hrun3 & Hrun)].
  { by eapply sound_deref. }
  apply deref_inv in Hrun3 as (-> & e0 & [= <-] & Hp).
  destruct e as [f|d]; [by eapply sound_throw|].
  destruct (dir_entries d) as [m|] eqn:Hd.
  - by eapply sound_getNameTypePairs.
  - by eapply readDirectory_fetch_sound.
Qed.

Lemma readFile_func_sound rd uri :
  (forall u, sound (rd u)) -> sound (readFile_func rd uri).
Proof.
  intros Hrd s c s' Hrun. unfold readFile_func in Hrun.
  destruct (String.eqb (uri_authority uri) "").
  { by eapply sound_throw. }
  apply bind_inv in Hrun as [(e & Hrun & _)|(state & s1 & Hrun1 & Hrun)].
  { by eapply sound_await_parseUri. }
  eapply sound_step_trans; [by eapply sound_await_parseUri|]. clear Hrun1.
  apply bind_inv in Hrun as [(e & Hrun & _)|(found & s2 & Hrun2 & Hrun)].
  { by eapply sound_lookupAsFile. }
  eapply sound_step_trans; [by eapply sound_lookupAsFile|]. clear Hrun2.
  destruct found as [file|]; [|by eapply sound_throw].
  apply bind_inv in Hrun as [(e & Hrun & _)|(e & s3 & Hrun3 & Hrun)].
  { by eapply sound_deref. }
  apply deref_inv in Hrun3 as (-> & e0 & [= <-] & Hp).
  destruct e as [f|d]; [|by eapply sound_throw].
  destruct (file_data f) as [data|] eqn:Hd.
  { by eapply sound_ret. }
  unfold bind, await_remote in Hrun.
  destruct (readGitHubFile state (file_sha f) (world s2)) as [[blob|reason] w'];
    simpl in Hrun; injection Hrun as <- <-.
  - apply sound_step_intro; simpl; auto.
    + by eapply heap_le_set_data.
    + intros Hwf. by eapply wf_heap_set_data.
    + by apply prefix_app_r.
  - apply sound_step_intro; simpl; auto using heap_le_refl. by apply prefix_app_r.
Qed.

Lemma sound_reuseable {A} r (func : M A) key : sound func -> sound (reuseable r func key).
Proof.
  intros Hf s c s' Hrun. unfold reuseable in Hrun.
  destruct (existsb (String.eqb key) (inflight r s)) eqn:Hidle; [done|].
  destruct (func _) as [[c1 s1]|] eqn:Hrun1; [|done]. injection Hrun as <- <-.
  destruct (Hf _ _ _ Hrun1) as [(Hh & Hr & Hc & Hi) Hw].
  assert (Hkeys : remove_key key (inflight r s1) = inflight r s).
  { rewrite Hi. destruct r; simpl; unfold remove_key; simpl;
      rewrite String.eqb_refl; simpl; by apply remove_key_absent. }
  rewrite Hkeys. split.
  - split; [|split; [|split]].
    + destruct r; exact Hh.
    + destruct r; exact Hr.
    + destruct r; exact Hc.
    + intros r'. specialize (Hi r'). destruct r, r'; simpl in *; congruence.
  - intros Hwf. destruct r; apply Hw; exact Hwf.
Qed.

Lemma readDirectory_sound fuel : forall uri, sound (readDirectory fuel uri).
Proof.
  induction fuel as [|fuel IH]; intros uri; simpl; [by intros s c s'|].
  by apply sound_reuseable, readDirectory_func_sound.
Qed.

Lemma readFile_sound fuel uri : sound (readFile fuel uri).
Proof. apply sound_reuseable, readFile_func_sound, readDirectory_sound. Qed.

Lemma stat_sound fuel uri : sound (stat fuel uri).
Proof.
  apply sound_bind; [apply sound_await_parseUri|]. intros state.
  apply sound_lookup, readDirectory_sound.
Qed.

Lemma call_sound s s' : call s s' -> sound_step s s'.
Proof.
  intros [fuel uri c s0 s0' H|fuel uri c s0 s0' H|fuel uri c s0 s0' H
         |uri c s0 s0' H|uri content create overwrite c s0 s0' H
         |uri recursive c s0 s0' H|oldUri newUri overwrite c s0 s0' H
         |source destination overwrite c s0 s0' H].
  - by eapply readDirectory_sound.
  - by eapply readFile_sound.
  - by eapply stat_sound.
  - injection H as <- <-. apply sound_step_refl.
  - injection H as <- <-. apply sound_step_refl.
  - injection H as <- <-. apply sound_step_refl.
  - injection H as <- <-. apply sound_step_refl.
  - injection H as <- <-. apply sound_step_refl.
Qed.

Lemma in_turn_sound s s' : in_turn s s' -> sound_step s s'.
Proof.
  induction 1 as [s _|s s' w _ IH|s s1 s' _ IH Hcall].
  - apply sound_step_refl.
  - eapply sound_step_trans; [exact IH|apply sound_step_world].
  - eapply sound_step_trans; [exact IH|by apply call_sound].
Qed.

Lemma wf_new w : wf (new_GitHub1sFS w).
Proof. split; simpl; [done|]. intros l d m Hl. by rewrite lookup_nil in Hl. Qed.

(** ** What holds of every provider *)

Lemma in_turn_inflight s s' : in_turn s s' -> forall r, inflight r s' = inflight r s.
Proof. intros H. by destruct (in_turn_sound _ _ H) as [(_ & _ & _ & Hi) _]. Qed.

Lemma reachable_wf s : reachable s -> wf s /\ forall r, inflight r s = [].
Proof.
  intros [w H]. destruct (in_turn_sound _ _ H) as [(_ & _ & _ & Hi) Hwf].
  split; [apply Hwf, wf_new|]. intros r. rewrite Hi. by destruct r.
Qed.

Lemma reachable_idle s r key : reachable s -> idle r key s.
Proof. intros H. destruct (reachable_wf s H) as [_ Hi]. unfold idle. by rewrite Hi. Qed.

Lemma reachable_in_turn s s' : reachable s -> in_turn s s' -> reachable s'.
Proof.
  intros [w H] H'. exists w.
  induction H' as [s _|s s' w' _ IH|s s1 s' _ IH Hcall]; [done| |].
  - apply in_turn_world. by apply IH.
  - eapply in_turn_call; [by apply IH|done].
Qed.

Lemma reachable_call s s' : reachable s -> call s s' -> reachable s'.
Proof. intros [w H] Hcall. exists w. by eapply in_turn_call. Qed.

Lemma reachable_quiet s : reachable s -> quiet s.
Proof. intros H. by destruct (reachable_wf s H). Qed.

Lemma nameTypePairs_le h h' m pairs :
  heap_le h h' -> nameTypePairs h m = Some pairs -> nameTypePairs h' m = Some pairs.
Proof.
  intros Hle. unfold nameTypePairs. rewrite !mapM_Some.
  intros H. eapply Forall2_impl; [exact H|]. clear H. simpl.
  intros v p. destruct (h !! v) as [e|] eqn:He; [|done]. intros [= <-].
  destruct (Hle _ _ He) as (e' & -> & Hentry).
  by rewrite (entry_le_name _ _ Hentry), (entry_le_type _ _ Hentry).
Qed.

(** The pairs of a map that is in order: one per key, in the order of the
    map, each with the type of the node that the key is bound to. *)
Lemma nameTypePairs_ok h m :
  map_ok h m ->
  exists pairs,
    nameTypePairs h m = Some pairs /\
    pairs.*1 = m.*1 /\
    forall name type, (name, type) ∈ pairs ->
      exists v e, map_get name m = Some v /\ h !! v = Some e /\
                  entry_name e = name /\ entry_type e = type.
Proof.
  induction m as [|[k v] m IH]; intros [Hnd Hm].
  - exists []. split; [done|]. split; [done|].
    intros name type Hin. by apply elem_of_nil in Hin.
  - rewrite fmap_cons in Hnd. apply NoDup_cons in Hnd as [Hk Hnd].
    destruct IH as (pairs & Hrun & Hkeys & Hall).
    { split; [done|]. intros k' v' Hin. apply Hm. apply elem_of_cons. by right. }
    destruct (Hm k v) as (e & He & Hname); [apply elem_of_cons; by left|].
    exists ((k, entry_type e) :: pairs). split; [|split].
    + unfold nameTypePairs in *. apply mapM_Some. simpl.
      apply Forall2_cons. split; [by rewrite He, Hname|]. by apply mapM_Some.
    + by rewrite !fmap_cons, Hkeys.
    + intros name type Hin. apply elem_of_cons in Hin as [[= -> ->]|Hin].
      * exists v, e. simpl. by rewrite String.eqb_refl.
      * destruct (Hall _ _ Hin) as (v' & e' & Hget & He' & Hn & Ht).
        exists v', e'. simpl.
        assert (Hne : name <> k).
        { intros ->. apply Hk. rewrite <- Hkeys. apply list_elem_of_fmap.
          by exists (k, type). }
        apply String.eqb_neq in Hne. by rewrite Hne.
Qed.

(** X7. Calls made in turn take nothing back.  When no call is in flight and
    the calls of the entry points are made one after the other, each settled
    before the next is made, then, however the world has changed in between:
    every node is still in the store at its place, a file is still a file and
    a directory a directory, with the name, URI, hash, size and times it had;
    entries and data that were present are the same; the root, once created,
    is the same node; the requests sent so far are a prefix of the requests
    sent; and nothing is registered as in flight.  Calls that overlap are not
    spoken of. *)
Theorem calls_in_turn_only_grow s s' : in_turn s s' -> grows s s' /\ quiet s'.
Proof.
  intros H. destruct (in_turn_sound _ _ H) as [Hg _]. split; [exact Hg|].
  assert (Hq : quiet s) by (clear Hg; induction H; auto).
  destruct Hg as (_ & _ & _ & Hi). intros r. by rewrite Hi.
Qed.

(** X8. Every provider that calls have led to from a new one is well formed:
    the root, if it was created, is a directory of the store; no key is twice
    in the entries of a directory, and every key is bound to a node of the
    store that carries the key as its name; and no key is left registered as
    in flight, so that no later call is taken for a repetition. *)
Theorem reachable_well_formed s :
  reachable s ->
  wf s /\ (forall r, inflight r s = []) /\ (forall r key, idle r key s).
Proof.
  intros H. destruct (reachable_wf s H) as [Hwf Hi].
  split; [done|]. split; [done|]. intros r key. by apply reachable_idle.
Qed.

(** X9. Through calls made in turn, each settled before the next is made and
    none in flight at the start, a path that leads to a node goes on leading
    to the same node, and the node is of the same kind and name.  Calls that
    overlap are not spoken of. *)
Theorem resolve_stable_in_turn s s' path l e :
  in_turn s s' ->
  resolve s path = Some l ->
  heap s !! l = Some e ->
  resolve s' path = Some l /\
  exists e', heap s' !! l = Some e' /\
             entry_name e' = entry_name e /\ entry_type e' = entry_type e.
Proof.
  intros H Hres He. destruct (in_turn_sound _ _ H) as [(Hle & Hroot & _ & _) _].
  destruct (resolve_root _ _ _ Hres) as [r Hr]. split.
  - eapply resolve_keeps; [|by apply heap_le_keeps|reflexivity|exact Hres].
    by rewrite Hr, (Hroot _ Hr).
  - destruct (Hle _ _ He) as (e' & He' & Hentry). exists e'.
    by rewrite (entry_le_name _ _ Hentry), (entry_le_type _ _ Hentry).
Qed.

(** X10. Once a directory has its entries, a listing of it is answered from
    the tree, now and after further calls made in turn, each settled before
    the next is made: with the same pairs, one per key of the entries and in
    their order, and without a request.  Calls that overlap are not spoken
    of. *)
Theorem populated_listing_in_turn fuel fuel' uri s s' state w w' l d m :
  reachable s ->
  in_turn s s' ->
  String.eqb (uri_authority uri) "" = false ->
  parseUri uri (world s) = (Resolved state, w) ->
  parseUri uri (world s') = (Resolved state, w') ->
  resolve s (st_path state) = Some l ->
  heap s !! l = Some (EDirectory d) ->
  dir_entries d = Some m ->
  exists pairs,
    readDirectory (S fuel) uri s = Some (Return pairs, with_world w s) /\
    readDirectory (S fuel') uri s' = Some (Return pairs, with_world w' s') /\
    pairs.*1 = m.*1.
Proof.
  intros Hreach Hev Ha Hp Hp' Hres Hl Hd.
  destruct (reachable_wf s Hreach) as [[_ Hwf] _].
  destruct (nameTypePairs_ok (heap s) m (Hwf _ _ _ Hl Hd)) as (pairs & Hpairs & Hkeys & _).
  destruct (in_turn_sound _ _ Hev) as [(Hle & Hroot & _ & _) _].
  destruct (resolve_root _ _ _ Hres) as [r Hr].
  destruct (Hle _ _ Hl) as (e' & Hl' & Hentry).
  destruct e' as [f'|d']; [done|]. destruct Hentry as [_ Hd'].
  exists pairs. split; [|split; [|done]].
  - eapply readDirectory_present; eauto. by apply reachable_idle.
  - eapply readDirectory_present; eauto.
    + eapply reachable_idle, reachable_in_turn; eauto.
    + eapply resolve_keeps; [|by apply heap_le_keeps|reflexivity|exact Hres].
      by rewrite Hr, (Hroot _ Hr).
    + by eapply nameTypePairs_le.
Qed.

(** X11. Once a file has its data, [readFile] returns these bytes, now and
    after further calls made in turn, each settled before the next is made,
    and sends no request.  Calls that overlap are not spoken of. *)
Theorem file_data_in_turn fuel fuel' uri s s' state w w' l f data :
  reachable s ->
  in_turn s s' ->
  String.eqb (uri_authority uri) "" = false ->
  parseUri uri (world s) = (Resolved state, w) ->
  parseUri uri (world s') = (Resolved state, w') ->
  resolve s (st_path state) = Some l ->
  heap s !! l = Some (EFile f) ->
  file_data f = Some data ->
  readFile fuel uri s = Some (Return data, with_world w s) /\
  readFile fuel' uri s' = Some (Return data, with_world w' s').
Proof.
  intros Hreach Hev Ha Hp Hp' Hres Hl Hd.
  destruct (in_turn_sound _ _ Hev) as [(Hle & Hroot & _ & _) _].
  destruct (resolve_root _ _ _ Hres) as [r Hr].
  destruct (Hle _ _ Hl) as (e' & Hl' & Hentry).
  destruct e' as [f'|d']; [|done]. destruct Hentry as [_ Hd'].
  split.
  - eapply readFile_present; eauto. by apply reachable_idle.
  - eapply readFile_present; eauto.
    + eapply reachable_idle, reachable_in_turn; eauto.
    + eapply resolve_keeps; [|by apply heap_le_keeps|reflexivity|exact Hres].
      by rewrite Hr, (Hroot _ Hr).
Qed.

(** X12. What a populated directory lists can be looked up: its pairs are one
    per key of its entries, no name twice, and every listed name that is a
    segment leads, appended to the path of the directory, to a node of that
    name and of the listed type. *)
Theorem listed_children_resolve s path l d m :
  reachable s ->
  resolve s path = Some l ->
  heap s !! l = Some (EDirectory d) ->
  dir_entries d = Some m ->
  exists pairs,
    getNameTypePairs l s = Some (Return pairs, s) /\
    pairs.*1 = m.*1 /\
    NoDup pairs.*1 /\
    forall name type, (name, type) ∈ pairs -> segment name = true ->
      exists c e,
        resolve s (path +:+ "/" +:+ name) = Some c /\
        heap s !! c = Some e /\
        entry_name e = name /\ entry_type e = type.
Proof.
  intros Hreach Hres Hl Hd.
  destruct (reachable_wf s Hreach) as [[_ Hwf] _].
  pose proof (Hwf _ _ _ Hl Hd) as Hok.
  destruct (nameTypePairs_ok (heap s) m Hok) as (pairs & Hpairs & Hkeys & Hall).
  exists pairs. split; [|split; [done|split]].
  - unfold getNameTypePairs. by rewrite Hl, Hd; simpl; rewrite Hpairs.
  - rewrite Hkeys. by destruct Hok.
  - intros name type Hin Hseg.
    destruct (Hall _ _ Hin) as (c & e & Hget & He & Hname & Htype).
    exists c, e. split; [|done].
    unfold resolve in *. destruct (root s) as [r|]; [|done].
    rewrite parts_of_app, (parts_of_segment _ Hseg).
    erewrite follow_app by exact Hres. simpl. by rewrite Hl, Hd, Hget.
Qed.

(** ** The listing of the REST strategy *)

Lemma rest_fill_get_later k tree : forall base m,
  k ∉ map rest_path tree ->
  map_get k (rest_fill base tree m) = map_get k m.
Proof.
  induction tree as [|item tree IH]; intros base m Hk; simpl; [done|].
  rewrite IH.
  - apply map_get_set_ne. intros Heq. apply Hk. apply elem_of_cons. by left.
  - intros Hin. apply Hk. apply elem_of_cons. by right.
Qed.

Lemma rest_fill_get tree : forall base m i item,
  NoDup (map rest_path tree) ->
  tree !! i = Some item ->
  map_get (rest_path item) (rest_fill base tree m) = Some (base + i).
Proof.
  induction tree as [|item0 tree IH]; intros base m i item Hnd Hi; [done|].
  simpl in Hnd. apply NoDup_cons in Hnd as [Hfirst Hnd].
  destruct i as [|i]; simpl in *.
  - injection Hi as ->. rewrite rest_fill_get_later by done.
    rewrite map_get_set_eq. f_equal. lia.
  - rewrite (IH _ _ _ _ Hnd Hi). f_equal. lia.
Qed.

Lemma map_set_fresh k v m : k ∉ m.*1 -> map_set k v m = m ++ [(k, v)].
Proof.
  induction m as [|[k0 v0] m IH]; [done|].
  rewrite fmap_cons. intros Hk. apply not_elem_of_cons in Hk as [Hne Hk].
  apply String.eqb_neq in Hne. simpl in *. by rewrite Hne, IH.
Qed.

Lemma rest_fill_pairs h now uri tree : forall base m pairs,
  NoDup (map rest_path tree) ->
  (forall item, item ∈ tree -> rest_path item ∉ m.*1) ->
  nameTypePairs h m = Some pairs ->
  (forall i item, tree !! i = Some item ->
     h !! (base + i) = Some (rest_entry now uri item)) ->
  nameTypePairs h (rest_fill base tree m) = Some (pairs ++ map rest_pair tree).
Proof.
  induction tree as [|item tree IH]; intros base m pairs Hnd Hfresh Hpairs Hnodes; simpl.
  - by rewrite app_nil_r.
  - simpl in Hnd. apply NoDup_cons in Hnd as [Hfirst Hnd].
    rewrite map_set_fresh by (apply Hfresh, elem_of_cons; by left).
    replace (pairs ++ rest_pair item :: map rest_pair tree)
      with ((pairs ++ [rest_pair item]) ++ map rest_pair tree)
      by (by rewrite <- app_assoc).
    apply IH; [done| | |].
    + intros item' Hin. rewrite fmap_app. intros Hc.
      apply elem_of_app in Hc as [Hc|Hc].
      * eapply Hfresh; [|exact Hc]. apply elem_of_cons. by right.
      * apply list_elem_of_singleton in Hc. simpl in Hc. apply Hfirst.
        rewrite <- Hc. apply list_elem_of_fmap. by exists item'.
    + unfold nameTypePairs, map_values in *. rewrite map_app.
      apply mapM_Some, Forall2_app; [by apply mapM_Some|].
      apply Forall2_cons. split; [|apply Forall2_nil_2].
      simpl. specialize (Hnodes 0 item eq_refl). rewrite Nat.add_0_r in Hnodes.
      rewrite Hnodes, rest_entry_name, rest_entry_type. reflexivity.
    + intros i item' Hi. specialize (Hnodes (S i) item' Hi).
      by replace (S base + i) with (base + S i) by lia.
Qed.

(** X13. The first listing of a directory by the REST strategy sends the
    one request for the directory and returns a pair for every item of the
    answer, in its order, a directory for an item of type tree and a file for
    any other.  Every item has got a node of its own, with the path of the
    item as its name, its hash and its size, and with neither entries nor
    data; the entries of the directory are set item by item.  When no path is
    twice in the answer, a later listing returns the same pairs. *)
Theorem rest_listing fuel uri s state w l d data w' :
  String.eqb (uri_authority uri) "" = false ->
  idle registry_readDirectory (Uri_toString uri) s ->
  parseUri uri (world s) = (Resolved state, w) ->
  resolve (ensure_root state (with_world w s)) (st_path state) = Some l ->
  heap (ensure_root state (with_world w s)) !! l = Some (EDirectory d) ->
  dir_entries d = None ->
  isGraphQLEnabled w = false ->
  readGitHubDirectory state w = (Resolved data, w') ->
  let s0 := ensure_root state (with_world w s) in
  exists s1,
    readDirectory (S fuel) uri s
      = Some (Return (map rest_pair (rest_tree data)), s1) /\
    calls s1 = calls s ++ [CallDirectory state] /\
    heap s1 !! l
      = Some (EDirectory
                (with_entries d
                   (Some (rest_fill (length (heap s0)) (rest_tree data) [])))) /\
    (forall i item, rest_tree data !! i = Some item ->
       heap s1 !! (length (heap s0) + i) = Some (rest_entry (Date_now w') uri item)) /\
    (NoDup (map rest_path (rest_tree data)) ->
       getNameTypePairs l s1 = Some (Return (map rest_pair (rest_tree data)), s1)).
Proof.
  intros Ha Hi Hp Hl He Hd Hflag Hq s0.
  rewrite (readDirectory_unpopulated fuel uri s state w l d Ha Hi Hp Hl He Hd).
  fold s0 in Hl, He |- *.
  assert (Hw : world s0 = w) by exact (ensure_root_world state (with_world w s)).
  assert (Hc : calls s0 = calls s) by exact (ensure_root_calls state (with_world w s)).
  rewrite <- Hw in Hflag, Hq.
  rewrite (readDirectory_fetch_rest uri state l s0 d data w' He Hflag Hq).
  assert (Hlt : l < length (heap s0)) by (apply lookup_lt_is_Some; eauto).
  assert (Hparent :
    alter (set_entries (Some (rest_fill (length (heap s0)) (rest_tree data) []))) l
      (heap s0 ++ map (rest_entry (Date_now w') uri) (rest_tree data)) !! l
    = Some (EDirectory
              (with_entries d
                 (Some (rest_fill (length (heap s0)) (rest_tree data) []))))).
  { by rewrite list_lookup_alter_eq, lookup_app_l, He. }
  assert (Hnodes : forall i item, rest_tree data !! i = Some item ->
    alter (set_entries (Some (rest_fill (length (heap s0)) (rest_tree data) []))) l
      (heap s0 ++ map (rest_entry (Date_now w') uri) (rest_tree data))
      !! (length (heap s0) + i)
    = Some (rest_entry (Date_now w') uri item)).
  { intros i item Hitem. rewrite list_lookup_alter_ne by lia.
    rewrite lookup_app_r by lia.
    replace (length (heap s0) + i - length (heap s0)) with i by lia.
    by rewrite list_lookup_fmap, Hitem. }
  eexists. split; [reflexivity|]. simpl.
  split; [by rewrite Hc|]. split; [exact Hparent|]. split; [exact Hnodes|].
  intros Hnd. unfold getNameTypePairs. simpl. rewrite Hparent. simpl.
  erewrite (rest_fill_pairs _ (Date_now w') uri (rest_tree data) _ [] []);
    [reflexivity|done| |done|exact Hnodes].
  intros item _ Hin. by apply elem_of_nil in Hin.
Qed.

(** ** The listing of the deep strategy *)

Lemma map_set_keys_elem k v m k' :
  k' ∈ (map_set k v m).*1 <-> k' = k \/ k' ∈ m.*1.
Proof.
  induction m as [|[k0 v0] m IH].
  - simpl. rewrite list_elem_of_singleton. rewrite elem_of_nil. tauto.
  - simpl. destruct (String.eqb k k0) eqn:Heq.
    + apply String.eqb_eq in Heq as <-. rewrite !fmap_cons, !elem_of_cons. simpl.
      tauto.
    + rewrite !fmap_cons, !elem_of_cons, IH. simpl. tauto.
Qed.

Lemma forEach_keys now uri items : forall m h k,
  k ∈ (forEach now uri items (m, h)).1.*1 <-> k ∈ m.*1 \/ k ∈ map item_name items.
Proof.
  induction items as [|i items IH]; intros m h k; simpl.
  - rewrite elem_of_nil. tauto.
  - pose proof (entriesToMap_forEach_map now uri i m h) as Hm.
    destruct (entriesToMap_forEach now uri i (m, h)) as [m' h'].
    simpl in Hm. subst m'. rewrite IH, map_set_keys_elem, elem_of_cons. tauto.
Qed.

Lemma entriesToMap_prefix now entries uri h :
  h `prefix_of` (entriesToMap now entries uri h).2.
Proof.
  destruct entries as [items|]; simpl; [|done].
  pose proof (forEach_prefix now uri items [] h) as H.
  by destruct (forEach now uri items ([], h)).
Qed.

Lemma entriesToMap_keys now items uri h :
  exists sub,
    (entriesToMap now (Some items) uri h).1 = Some sub /\
    forall k, k ∈ sub.*1 <-> k ∈ map item_name items.
Proof.
  simpl. pose proof (forEach_keys now uri items [] h) as H.
  destruct (forEach now uri items ([], h)) as [sub h']. exists sub.
  split; [done|]. intros k. rewrite (H k). simpl. rewrite elem_of_nil. tauto.
Qed.

(** The last item of a name that is a tree is the directory under that name,
    with the entries that [entriesToMap] makes of the entries of the item. *)
Lemma forEach_tree now uri before item after h :
  String.eqb (item_type item) "tree" = true ->
  item_name item ∉ map item_name after ->
  exists child h1,
    map_get (item_name item) (forEach now uri (before ++ item :: after) ([], h)).1
      = Some child /\
    (forEach now uri (before ++ item :: after) ([], h)).2 !! child
      = Some (EDirectory
                (with_entries
                   (new_Directory now uri (item_name item)
                      (Some (mkOptions (Some (item_oid item)) None None)))
                   (entriesToMap now (item_entries item)
                      (Uri_joinPath uri (item_name item)) h1).1)) /\
    length h <= child.
Proof.
  intros Htype Hlast. rewrite forEach_app. simpl.
  destruct (forEach now uri before ([], h)) as [m1 h1] eqn:E.
  assert (Hpre : h `prefix_of` h1).
  { pose proof (forEach_prefix now uri before [] h) as H. by rewrite E in H. }
  pose proof (forEach_get now uri after (item_name item)) as Hget.
  pose proof (forEach_prefix now uri after) as Hpost.
  rewrite entriesToMap_forEach_eq in *. simpl. rewrite Htype.
  match goal with |- context [entriesToMap now (item_entries item) ?u ?h0] =>
    set (h0' := h0);
    pose proof (entriesToMap_prefix now (item_entries item) u h0') as Hsub
  end.
  exists (length h1), h0'.
  destruct (entriesToMap now (item_entries item) _ h0') as [sub h2].
  simpl in Hsub |- *.
  rewrite (Hget _ _ Hlast), map_get_set_eq. split; [done|]. split.
  - eapply prefix_lookup_Some; [|apply Hpost].
    rewrite list_lookup_alter_eq.
    erewrite (prefix_lookup_Some h0' h2 (length h1));
      [|subst h0'; apply lookup_snoc|exact Hsub].
    reflexivity.
  - exact (prefix_length _ _ Hpre).
Qed.

Lemma wf_ensure_root state s w : wf s -> wf (ensure_root state (with_world w s)).
Proof.
  intros Hwf. apply sound_step_ensure_root. by apply (sound_step_world s w).
Qed.

Lemma readDirectory_fetch_deep_pairs uri state parent s d response w' entries :
  heap s !! parent = Some (EDirectory d) ->
  isGraphQLEnabled (world s) = true ->
  apolloClient_query (st_owner state) (st_repo state)
    (st_branch state +:+ ":" +:+ substring1 (st_path state)) (world s)
    = (Resolved response, w') ->
  response_entries response = Some entries ->
  exists pairs,
    readDirectory_fetch uri state parent s =
      Some (Return pairs,
            with_heap
              (alter (set_entries (Some (forEach (Date_now w') uri entries ([], heap s)).1))
                 parent (forEach (Date_now w') uri entries ([], heap s)).2)
              (with_calls (calls s ++ [population_request state (world s)])
                 (with_world w' s))) /\
    nameTypePairs
      (alter (set_entries (Some (forEach (Date_now w') uri entries ([], heap s)).1))
         parent (forEach (Date_now w') uri entries ([], heap s)).2)
      (forEach (Date_now w') uri entries ([], heap s)).1 = Some pairs.
Proof.
  intros Hp Hflag Hq Hentries.
  unfold population_request, readDirectory_fetch.
  unfold bind, get, await_remote, now, modify, update, getNameTypePairs.
  simpl. rewrite Hflag, Hq. simpl. rewrite Hentries. simpl.
  fold (forEach (Date_now w') uri entries ([], heap s)).
  pose proof (forEach_parent (Date_now w') uri entries (heap s) parent d Hp) as Hparent.
  pose proof (forEach_values (Date_now w') uri entries [] (heap s)) as Hvalues.
  destruct (forEach (Date_now w') uri entries ([], heap s)) as [map h] eqn:E.
  simpl in *. rewrite Hparent. simpl.
  destruct (nameTypePairs_total (alter (set_entries (Some map)) parent h) map)
    as [pairs Hpairs].
  { intros v Hv. rewrite length_alter. apply Hvalues; [|done].
    intros v' Hv'. by apply elem_of_nil in Hv'. }
  exists pairs. by rewrite Hpairs.
Qed.

(** The listing of an unpopulated directory by the deep strategy, in a
    provider that is well formed. *)
Lemma readDirectory_deep_listing fuel uri s state w l d response w1 entries :
  wf s ->
  String.eqb (uri_authority uri) "" = false ->
  idle registry_readDirectory (Uri_toString uri) s ->
  parseUri uri (world s) = (Resolved state, w) ->
  resolve (ensure_root state (with_world w s)) (st_path state) = Some l ->
  heap (ensure_root state (with_world w s)) !! l = Some (EDirectory d) ->
  dir_entries d = None ->
  isGraphQLEnabled w = true ->
  apolloClient_query (st_owner state) (st_repo state)
    (st_branch state +:+ ":" +:+ substring1 (st_path state)) w
    = (Resolved response, w1) ->
  response_entries response = Some entries ->
  let s0 := ensure_root state (with_world w s) in
  let built := forEach (Date_now w1) uri entries ([], heap s0) in
  let s1 := with_heap (alter (set_entries (Some built.1)) l built.2)
              (with_calls (calls s ++ [population_request state w]) (with_world w1 s0)) in
  exists pairs,
    readDirectory (S fuel) uri s = Some (Return pairs, s1) /\
    nameTypePairs (heap s1) built.1 = Some pairs /\
    map_ok (heap s1) built.1 /\
    heap_le (heap s0) (heap s1) /\
    (forall c, length (heap s0) <= c -> heap s1 !! c = built.2 !! c).
Proof.
  intros Hwf Ha Hi Hp Hl He Hd Hflag Hq Hentries s0 built s1.
  rewrite (readDirectory_unpopulated fuel uri s state w l d Ha Hi Hp Hl He Hd).
  fold s0 in Hl, He |- *.
  assert (Hw : world s0 = w) by exact (ensure_root_world state (with_world w s)).
  assert (Hc : calls s0 = calls s) by exact (ensure_root_calls state (with_world w s)).
  rewrite <- Hw in Hflag, Hq.
  destruct (readDirectory_fetch_deep_pairs uri state l s0 d response w1 entries
              He Hflag Hq Hentries) as (pairs & Hrun & Hpairs).
  fold built in Hrun, Hpairs.
  pose proof (forEach_prefix (Date_now w1) uri entries [] (heap s0)) as Hprefix.
  fold built in Hprefix.
  assert (He' : built.2 !! l = Some (EDirectory d))
    by (eapply prefix_lookup_Some; [exact He|exact Hprefix]).
  assert (Hle : heap_le built.2 (alter (set_entries (Some built.1)) l built.2))
    by by eapply heap_le_set_entries.
  assert (Hlt : l < length (heap s0)) by (apply lookup_lt_is_Some; eauto).
  exists pairs. split; [by rewrite Hrun, Hc, Hw|]. split; [exact Hpairs|].
  split; [|split].
  - simpl. eapply map_ok_le; [exact Hle|].
    destruct (wf_ensure_root state s w Hwf) as [_ Hwf0]. fold s0 in Hwf0.
    by destruct (forEach_wf (Date_now w1) uri entries [] (heap s0) Hwf0 (map_ok_nil _)).
  - simpl. eapply heap_le_trans; [apply heap_le_prefix; exact Hprefix|exact Hle].
  - intros c Hge. simpl. apply list_lookup_alter_ne. lia.
Qed.

Lemma reachable_listing fuel uri s state w l d m :
  reachable s ->
  String.eqb (uri_authority uri) "" = false ->
  parseUri uri (world s) = (Resolved state, w) ->
  resolve s (st_path state) = Some l ->
  heap s !! l = Some (EDirectory d) ->
  dir_entries d = Some m ->
  exists pairs,
    readDirectory (S fuel) uri s = Some (Return pairs, with_world w s) /\
    pairs.*1 = m.*1.
Proof.
  intros Hreach Ha Hp Hres Hl Hd.
  destruct (reachable_wf s Hreach) as [[_ Hwf] _].
  destruct (nameTypePairs_ok (heap s) m (Hwf _ _ _ Hl Hd)) as (pairs & Hpairs & Hkeys & _).
  exists pairs. split; [|done].
  eapply readDirectory_present; eauto. by apply reachable_idle.
Qed.

(** X14. The first listing of a directory by the deep strategy sends the one
    query for the directory and lists the names of the entries of the answer,
    each once; a name is listed as a directory when the last entry of that
    name is of type tree, and as a file when it is of any other type. *)
Theorem deep_listing_pairs fuel uri s state w l d response w1 entries :
  reachable s ->
  String.eqb (uri_authority uri) "" = false ->
  parseUri uri (world s) = (Resolved state, w) ->
  resolve (ensure_root state (with_world w s)) (st_path state) = Some l ->
  heap (ensure_root state (with_world w s)) !! l = Some (EDirectory d) ->
  dir_entries d = None ->
  isGraphQLEnabled w = true ->
  apolloClient_query (st_owner state) (st_repo state)
    (st_branch state +:+ ":" +:+ substring1 (st_path state)) w
    = (Resolved response, w1) ->
  response_entries response = Some entries ->
  exists pairs s1,
    readDirectory (S fuel) uri s = Some (Return pairs, s1) /\
    calls s1 = calls s ++ [CallQuery (st_owner state) (st_repo state)
                             (st_branch state +:+ ":" +:+ substring1 (st_path state))] /\
    NoDup pairs.*1 /\
    (forall name, name ∈ pairs.*1 <-> name ∈ map item_name entries) /\
    forall before item after,
      entries = before ++ item :: after ->
      item_name item ∉ map item_name after ->
      (item_name item,
       if String.eqb (item_type item) "tree"
       then FileType_Directory else FileType_File) ∈ pairs.
Proof.
  intros Hreach Ha Hp Hl He Hd Hflag Hq Hentries.
  destruct (reachable_wf s Hreach) as [Hwf _].
  destruct (readDirectory_deep_listing fuel uri s state w l d response w1 entries
              Hwf Ha (reachable_idle _ _ _ Hreach) Hp Hl He Hd Hflag Hq Hentries)
    as (pairs & Hrun & Hpairs & Hok & _ & Hnew).
  set (s0 := ensure_root state (with_world w s)) in *.
  set (built := forEach (Date_now w1) uri entries ([], heap s0)) in *.
  destruct (nameTypePairs_ok _ _ Hok) as (pairs' & Hpairs' & Hkeys & Hall).
  rewrite Hpairs in Hpairs'. injection Hpairs' as <-.
  assert (Hnames : forall name, name ∈ pairs.*1 <-> name ∈ map item_name entries).
  { intros name. rewrite Hkeys. subst built. rewrite forEach_keys. simpl.
    rewrite elem_of_nil. tauto. }
  eexists pairs, _. split; [exact Hrun|]. split; [|split; [|split; [exact Hnames|]]].
  - simpl. unfold population_request. by rewrite Hflag.
  - rewrite Hkeys. by destruct Hok.
  - intros before item after -> Hlast.
    assert (Hin : item_name item ∈ pairs.*1).
    { apply Hnames. rewrite map_app. apply elem_of_app. right.
      apply elem_of_cons. by left. }
    apply list_elem_of_fmap in Hin as ([name type] & Hname & Hin).
    simpl in Hname. subst name.
    destruct (Hall _ _ Hin) as (v & e & Hget & Hv & _ & Htype).
    destruct (String.eqb (item_type item) "tree") eqn:Hkind.
    + destruct (forEach_tree (Date_now w1) uri before item after (heap s0) Hkind Hlast)
        as (child & h1 & Hget' & Hchild & Hge).
      fold built in Hget', Hchild. rewrite Hget in Hget'. injection Hget' as ->.
      rewrite (Hnew _ Hge), Hchild in Hv. injection Hv as <-.
      simpl in Htype. by subst type.
    + destruct (forEach_file (Date_now w1) uri before item after (heap s0) Hkind Hlast)
        as (child & Hget' & Hchild & Hge).
      fold built in Hget', Hchild. rewrite Hget in Hget'. injection Hget' as ->.
      rewrite (Hnew _ Hge), Hchild in Hv. injection Hv as <-.
      simpl in Htype. by subst type.
Qed.

(** X15. Under the deep strategy the directories of the answer come with the
    entries that the answer inlines.  After the listing, the last entry of a
    name that is of type tree is the directory found under that name, with
    the URI of the listing, the name and the hash of the entry.  When the
    entry has no entries inlined, the directory is left unpopulated; when it
    has, the directory is populated with their names, and a listing of it is
    answered from the tree, without a request. *)
Theorem inlined_tree_populated fuel uri s state w l d response w1 before item after :
  reachable s ->
  String.eqb (uri_authority uri) "" = false ->
  parseUri uri (world s) = (Resolved state, w) ->
  resolve (ensure_root state (with_world w s)) (st_path state) = Some l ->
  heap (ensure_root state (with_world w s)) !! l = Some (EDirectory d) ->
  dir_entries d = None ->
  isGraphQLEnabled w = true ->
  apolloClient_query (st_owner state) (st_repo state)
    (st_branch state +:+ ":" +:+ substring1 (st_path state)) w
    = (Resolved response, w1) ->
  response_entries response = Some (before ++ item :: after) ->
  String.eqb (item_type item) "tree" = true ->
  item_name item ∉ map item_name after ->
  exists pairs s1 child dsub,
    readDirectory (S fuel) uri s = Some (Return pairs, s1) /\
    (forall path, parts_of path = parts_of (st_path state) ++ [item_name item] ->
                  resolve s1 path = Some child) /\
    heap s1 !! child = Some (EDirectory dsub) /\
    dir_uri dsub = uri /\
    dir_name dsub = item_name item /\
    dir_sha dsub = item_oid item /\
    (item_entries item = None -> dir_entries dsub = None) /\
    forall items, item_entries item = Some items ->
      exists sub,
        dir_entries dsub = Some sub /\
        (forall k, k ∈ sub.*1 <-> k ∈ map item_name items) /\
        forall fuel' curi cstate w2,
          String.eqb (uri_authority curi) "" = false ->
          parseUri curi (world s1) = (Resolved cstate, w2) ->
          parts_of (st_path cstate) = parts_of (st_path state) ++ [item_name item] ->
          exists cpairs,
            readDirectory (S fuel') curi s1 = Some (Return cpairs, with_world w2 s1) /\
            cpairs.*1 = sub.*1.
Proof.
  intros Hreach Ha Hp Hl He Hd Hflag Hq Hentries Hkind Hlast.
  destruct (reachable_wf s Hreach) as [Hwf _].
  destruct (readDirectory_deep_listing fuel uri s state w l d response w1 _
              Hwf Ha (reachable_idle _ _ _ Hreach) Hp Hl He Hd Hflag Hq Hentries)
    as (pairs & Hrun & Hpairs & Hok & Hle & Hnew).
  set (s0 := ensure_root state (with_world w s)) in *.
  set (built := forEach (Date_now w1) uri (before ++ item :: after) ([], heap s0)) in *.
  match type of Hrun with _ = Some (_, ?st) => set (s1 := st) in * end.
  destruct (forEach_tree (Date_now w1) uri before item after (heap s0) Hkind Hlast)
    as (child & h1 & Hget & Hchild & Hge).
  fold built in Hget, Hchild.
  assert (Hlt : l < length (heap s0)) by (apply lookup_lt_is_Some; eauto).
  assert (Hparent : heap s1 !! l = Some (EDirectory (with_entries d (Some built.1)))).
  { subst s1. simpl. subst built. by apply forEach_parent. }
  assert (Hroot : root s1 = root s0) by done.
  clearbody s1.
  assert (Hresolve : forall path,
            parts_of path = parts_of (st_path state) ++ [item_name item] ->
            resolve s1 path = Some child).
  { intros path Hparts. unfold resolve in *. rewrite Hroot.
    destruct (root s0) as [r|]; [|done]. rewrite Hparts.
    erewrite follow_app.
    - simpl. rewrite Hparent. simpl. by rewrite Hget.
    - eapply follow_keeps; [|exact Hl]. by apply heap_le_keeps. }
  assert (Hreach1 : reachable s1).
  { eapply reachable_call; [exact Hreach|].
    eapply call_readDirectory. exact Hrun. }
  eexists pairs, s1, child, _.
  split; [exact Hrun|]. split; [exact Hresolve|].
  split; [by rewrite (Hnew _ Hge), Hchild|].
  split; [done|]. split; [done|]. split; [done|]. split.
  - intros Hnone. simpl. by rewrite Hnone.
  - intros items Hitems. simpl. rewrite Hitems.
    destruct (entriesToMap_keys (Date_now w1) items
                (Uri_joinPath uri (item_name item)) h1) as (sub & Hsub & Hkeys).
    exists sub. split; [exact Hsub|]. split; [exact Hkeys|].
    intros fuel' curi cstate w2 Hca Hcp Hcparts.
    eapply reachable_listing; eauto.
    + rewrite (Hnew _ Hge), Hchild. reflexivity.
    + simpl. rewrite Hitems. exact Hsub.
Qed.

(** ** What is not found stays not found *)

Lemma stops_at_grows s s' path stop :
  grows s s' -> stops_at s path stop -> stops_at s' path stop.
Proof.
  intros (Hle & Hroot & _ & _) (r & walked & part & rest & Hr & Hparts & Hfollow & Hstop).
  exists r, walked, part, rest. split; [by apply Hroot|]. split; [done|].
  split; [eapply follow_keeps; [by apply heap_le_keeps|done]|].
  destruct (heap s !! stop) as [e|] eqn:He; [|done].
  destruct (Hle _ _ He) as (e' & -> & Hentry).
  destruct e as [f|d], e' as [f'|d']; try done.
  destruct (dir_entries d) as [m|] eqn:Hd; [|done].
  destruct Hentry as [_ Hm]. by rewrite (Hm _ Hd).
Qed.

(** X16. A path that stops short in the populated tree, at a file or at a
    name that a populated directory does not have, is not found after further
    calls made in turn either, each settled before the next is made:
    [readDirectory], [readFile] and [stat] fail with [FileNotFound] and send
    no request.  Calls made in turn fetch the entries of a directory once;
    what the service would list there later is not asked for.  Calls that
    overlap are not spoken of. *)
Theorem not_found_in_turn fuel uri s s' state w' stop :
  reachable s ->
  in_turn s s' ->
  String.eqb (uri_authority uri) "" = false ->
  parseUri uri (world s') = (Resolved state, w') ->
  stops_at s (st_path state) stop ->
  readDirectory (S fuel) uri s'
    = Some (Throw (FileNotFound (st_uri state)), with_world w' s') /\
  readFile fuel uri s'
    = Some (Throw (FileNotFound (st_uri state)), with_world w' s') /\
  stat fuel uri s'
    = Some (Throw (FileNotFound (st_uri state)), with_world w' s').
Proof.
  intros Hreach Hev Ha Hp Hstop.
  assert (Hreach' : reachable s') by by eapply reachable_in_turn.
  assert (Hstop' : stops_at s' (st_path state) stop).
  { eapply stops_at_grows; [|exact Hstop]. by destruct (in_turn_sound _ _ Hev). }
  split; [|split].
  - simpl. apply reuseable_run; [by apply reachable_idle| |reflexivity].
    unfold readDirectory_func. rewrite Ha. unfold bind at 1, await_parseUri.
    simpl. rewrite Hp. simpl. unfold bind.
    by erewrite lookupAsDirectory_stops; [|exact Hstop'].
  - unfold readFile. apply reuseable_run; [by apply reachable_idle| |reflexivity].
    unfold readFile_func. rewrite Ha. unfold bind at 1, await_parseUri.
    simpl. rewrite Hp. simpl. unfold bind.
    by erewrite lookupAsFile_stops; [|exact Hstop'].
  - unfold stat, bind, await_parseUri. rewrite Hp. simpl.
    by erewrite lookup_stops; [|exact Hstop'].
Qed.

End Further.

(** * Further properties on the scripted remote *)

Section FurtherConcrete.
Import Mock.


(** The providers of the statements below: the root listed by either
    strategy, and then a file read. *)
Lemma shallow_reachable : reachable shallow.
Proof. exists (world shallow). apply in_turn_start. by intros []. Qed.

Lemma deep_reachable : reachable deep.
Proof. exists (world deep). apply in_turn_start. by intros []. Qed.

Lemma readDirectory_in_turn fuel uri s :
  quiet s ->
  is_Some (readDirectory fuel uri s) -> in_turn s (after (readDirectory fuel uri) s).
Proof.
  intros Hq [[c s'] H]. unfold after. rewrite H.
  eapply in_turn_call; [by apply in_turn_start|]. by eapply call_readDirectory.
Qed.

Lemma readFile_in_turn fuel uri s :
  quiet s ->
  is_Some (readFile fuel uri s) -> in_turn s (after (readFile fuel uri) s).
Proof.
  intros Hq [[c s'] H]. unfold after. rewrite H.
  eapply in_turn_call; [by apply in_turn_start|]. by eapply call_readFile.
Qed.

Lemma listed_shallow_reachable : reachable listed_shallow.
Proof.
  eapply reachable_in_turn; [apply shallow_reachable|].
  apply (readDirectory_in_turn 2 (at_path "/") shallow); [by intros []|].
  unfold is_Some. vm_compute. eexists. reflexivity.
Qed.

Lemma listed_deep_reachable : reachable listed_deep.
Proof.
  eapply reachable_in_turn; [apply deep_reachable|].
  apply (readDirectory_in_turn 2 (at_path "/") deep); [by intros []|].
  unfold is_Some. vm_compute. eexists. reflexivity.
Qed.

Lemma read_shallow_in_turn :
  in_turn listed_shallow (after (readFile 1 (at_path "/README.md")) listed_shallow).
Proof.
  apply readFile_in_turn; [by intros []|].
  unfold is_Some. vm_compute. eexists. reflexivity.
Qed.

Lemma read_deep_in_turn :
  in_turn listed_deep (after (readFile 1 (at_path "/logo.png")) listed_deep).
Proof.
  apply readFile_in_turn; [by intros []|].
  unfold is_Some. vm_compute. eexists. reflexivity.
Qed.

Lemma missing_stops : stops_at listed_shallow "/missing" 0.
Proof. exists 0, [], "missing", []. by vm_compute. Qed.

Lemma parts_of_slashes_witness :
  parts_of "/src//github1sfs.ts/" = ["src"; "github1sfs.ts"].
Proof.
  destruct parts_of_slashes as (Hempty & Hsegment & Hjoin & _).
  change (parts_of ("" +:+ "/" +:+ ("src" +:+ "/" +:+ ("" +:+ "/" +:+
            ("github1sfs.ts" +:+ "/" +:+ ""))))
          = [] ++ ["src"] ++ [] ++ ["github1sfs.ts"] ++ []).
  rewrite !Hjoin, Hempty.
  by rewrite (Hsegment "src" eq_refl), (Hsegment "github1sfs.ts" eq_refl).
Defined.

Lemma parts_of_path_of_witness :
  parts_of (path_of ["src"; "github1sfs.ts"]) = ["src"; "github1sfs.ts"].
Proof. apply parts_of_path_of. reflexivity. Defined.

Lemma no_authority_not_found_witness :
  let uri := {| uri_scheme := "github1s"; uri_authority := "";
                uri_path := "/"; uri_query := ""; uri_fragment := "" |} in
  readDirectory 1 uri listed_shallow = Some (Throw (FileNotFound uri), listed_shallow) /\
  readFile 0 uri listed_shallow = Some (Throw (FileNotFound uri), listed_shallow).
Proof.
  exact (no_authority_not_found 0
           {| uri_scheme := "github1s"; uri_authority := "";
              uri_path := "/"; uri_query := ""; uri_fragment := "" |}
           listed_shallow eq_refl eq_refl eq_refl).
Defined.

Lemma parseUri_rejection_witness :
  let s := @new_GitHub1sFS Offline.collaborators tt in
  @readDirectory Offline.collaborators 1 (at_path "/") s
    = Some (Throw (RemoteFailure "no repository"), s) /\
  @readFile Offline.collaborators 0 (at_path "/") s
    = Some (Throw (RemoteFailure "no repository"), s) /\
  @stat Offline.collaborators 0 (at_path "/") s
    = Some (Throw (RemoteFailure "no repository"), s).
Proof.
  exact (@parseUri_rejection Offline.collaborators 0 (at_path "/")
           (@new_GitHub1sFS Offline.collaborators tt) "no repository" tt
           eq_refl eq_refl eq_refl eq_refl).
Defined.

Lemma wrong_kind_errors_witness :
  readDirectory 1 (at_path "/README.md") listed_shallow
    = Some (Throw (FileNotADirectory (at_path "/README.md")), listed_shallow) /\
  readFile 0 (at_path "/src") listed_shallow
    = Some (Throw (FileIsADirectory (at_path "/src")), listed_shallow) /\
  readFile 0 (at_path "/missing") listed_shallow
    = Some (Throw (FileNotFound (at_path "/missing")), listed_shallow).
Proof.
  split; [|split].
  - exact (proj1 (wrong_kind_errors 0 (at_path "/README.md") listed_shallow
                    (state_of "/README.md") (world listed_shallow)
                    eq_refl eq_refl eq_refl eq_refl)
             2 _ eq_refl eq_refl).
  - exact (proj1 (proj2 (wrong_kind_errors 0 (at_path "/src") listed_shallow
                           (state_of "/src") (world listed_shallow)
                           eq_refl eq_refl eq_refl eq_refl))
             1 _ eq_refl eq_refl).
  - exact (proj2 (proj2 (proj2 (wrong_kind_errors 0 (at_path "/missing") listed_shallow
                                  (state_of "/missing") (world listed_shallow)
                                  eq_refl eq_refl eq_refl eq_refl))
                    0 missing_stops)).
Defined.

Lemma stat_node_witness :
  stat 0 (at_path "/README.md") listed_shallow = Some (Return (Some 2), listed_shallow) /\
  stat 0 (at_path "/missing") listed_shallow
    = Some (Throw (FileNotFound (at_path "/missing")), listed_shallow) /\
  stat 0 (at_path "/") shallow
    = Some (Return (Some 0),
            with_root (Some 0)
              (with_heap [EDirectory (new_Directory 0 (at_path "/") "" None)] shallow)).
Proof.
  split; [|split].
  - exact (proj1 (stat_node 0 (at_path "/README.md") listed_shallow
                    (state_of "/README.md") (world listed_shallow) eq_refl)
             2 eq_refl).
  - exact (proj1 (proj2 (stat_node 0 (at_path "/missing") listed_shallow
                           (state_of "/missing") (world listed_shallow) eq_refl))
             0 missing_stops).
  - exact (proj1 (proj2 (proj2 (stat_node 0 (at_path "/") shallow
                                  (state_of "/") (world shallow) eq_refl))
                    eq_refl eq_refl)).
Defined.

Lemma calls_in_turn_only_grow_witness :
  grows listed_shallow (after (readFile 1 (at_path "/README.md")) listed_shallow) /\
  quiet (after (readFile 1 (at_path "/README.md")) listed_shallow).
Proof. exact (calls_in_turn_only_grow _ _ read_shallow_in_turn). Defined.

Lemma reachable_well_formed_witness :
  wf listed_deep /\
  (forall r, inflight r listed_deep = []) /\
  (forall r key, idle r key listed_deep).
Proof. exact (reachable_well_formed listed_deep listed_deep_reachable). Defined.

Lemma resolve_stable_in_turn_witness :
  let s' := after (readFile 1 (at_path "/README.md")) listed_shallow in
  resolve s' "/README.md" = Some 2 /\
  exists e', heap s' !! 2 = Some e' /\
             entry_name e' = "README.md" /\ entry_type e' = FileType_File.
Proof.
  exact (resolve_stable_in_turn listed_shallow _ "/README.md" 2
           (EFile (new_File 0 (at_path "/") "README.md"
                     (Some (mkOptions (Some "sha-readme") (Some (Some 12%Z)) None))))
           read_shallow_in_turn eq_refl eq_refl).
Defined.

Lemma populated_listing_in_turn_witness :
  let s' := after (readFile 1 (at_path "/README.md")) listed_shallow in
  exists pairs,
    readDirectory 1 (at_path "/") listed_shallow = Some (Return pairs, listed_shallow) /\
    readDirectory 1 (at_path "/") s' = Some (Return pairs, s') /\
    pairs.*1 = ["src"; "README.md"; "logo.png"].
Proof.
  exact (populated_listing_in_turn 0 0 (at_path "/") listed_shallow
           (after (readFile 1 (at_path "/README.md")) listed_shallow)
           (state_of "/") (world listed_shallow) (world listed_shallow) 0
           (with_entries (new_Directory 0 (at_path "/") "" None)
              (Some [("src", 1); ("README.md", 2); ("logo.png", 3)]))
           [("src", 1); ("README.md", 2); ("logo.png", 3)]
           listed_shallow_reachable read_shallow_in_turn
           eq_refl eq_refl eq_refl eq_refl eq_refl eq_refl).
Defined.

Lemma file_data_in_turn_witness :
  let s' := after (readFile 1 (at_path "/logo.png")) listed_deep in
  readFile 0 (at_path "/README.md") listed_deep
    = Some (Return (list_byte_of_string "Hello, World"), listed_deep) /\
  readFile 0 (at_path "/README.md") s'
    = Some (Return (list_byte_of_string "Hello, World"), s').
Proof.
  exact (file_data_in_turn 0 0 (at_path "/README.md") listed_deep
           (after (readFile 1 (at_path "/logo.png")) listed_deep)
           (state_of "/README.md") (world listed_deep) (world listed_deep) 2
           (File_of_item 0 (at_path "/")
              (mkGqlItem "blob" "README.md" "sha-readme"
                 (Some (mkGqlObject None (Some 12%Z) (Some false)
                          (js_string "Hello, World")))))
           (list_byte_of_string "Hello, World")
           listed_deep_reachable read_deep_in_turn
           eq_refl eq_refl eq_refl eq_refl eq_refl eq_refl).
Defined.

Lemma listed_children_resolve_witness :
  exists pairs,
    getNameTypePairs 0 listed_shallow = Some (Return pairs, listed_shallow) /\
    pairs.*1 = ["src"; "README.md"; "logo.png"] /\
    NoDup pairs.*1 /\
    forall name type, (name, type) ∈ pairs -> segment name = true ->
      exists c e,
        resolve listed_shallow ("" +:+ "/" +:+ name) = Some c /\
        heap listed_shallow !! c = Some e /\
        entry_name e = name /\ entry_type e = type.
Proof.
  exact (listed_children_resolve listed_shallow "" 0
           (with_entries (new_Directory 0 (at_path "/") "" None)
              (Some [("src", 1); ("README.md", 2); ("logo.png", 3)]))
           [("src", 1); ("README.md", 2); ("logo.png", 3)]
           listed_shallow_reachable eq_refl eq_refl eq_refl).
Defined.


Lemma rest_listing_witness :
  exists s1,
    readDirectory 1 (at_path "/") shallow
      = Some (Return [("src", FileType_Directory); ("README.md", FileType_File);
                      ("logo.png", FileType_File)], s1) /\
    calls s1 = [CallDirectory (state_of "/")] /\
    heap s1 !! 2
      = Some (EFile (new_File 0 (at_path "/") "README.md"
                       (Some (mkOptions (Some "sha-readme") (Some (Some 12%Z)) None)))) /\
    getNameTypePairs 0 s1
      = Some (Return [("src", FileType_Directory); ("README.md", FileType_File);
                      ("logo.png", FileType_File)], s1).
Proof.
  destruct (rest_listing 0 (at_path "/") shallow (state_of "/") (world shallow) 0
              (new_Directory 0 (at_path "/") "" None)
              {| rest_tree := [ mkRestItem "tree" "src" "sha-src" None;
                                mkRestItem "blob" "README.md" "sha-readme" (Some 12%Z);
                                mkRestItem "blob" "logo.png" "sha-logo" (Some 4%Z) ] |}
              (world shallow) eq_refl eq_refl eq_refl eq_refl eq_refl eq_refl
              eq_refl eq_refl)
    as (s1 & Hrun & Hcalls & _ & Hnodes & Hlater).
  exists s1. split; [exact Hrun|]. split; [exact Hcalls|]. split.
  - exact (Hnodes 1 _ eq_refl).
  - apply Hlater. apply (bool_decide_unpack _). vm_compute. exact I.
Defined.

Lemma deep_listing_pairs_witness :
  exists pairs s1,
    readDirectory 1 (at_path "/") deep = Some (Return pairs, s1) /\
    calls s1 = [CallQuery "conwnet" "github1s" "master:"] /\
    NoDup pairs.*1 /\
    ("src", FileType_Directory) ∈ pairs /\
    ("logo.png", FileType_File) ∈ pairs.
Proof.
  destruct (deep_listing_pairs 0 (at_path "/") deep (state_of "/") (world deep) 0
              (new_Directory 0 (at_path "/") "" None)
              (respond (Some
                 [ mkGqlItem "tree" "src" "sha-src"
                     (Some (mkGqlObject (Some []) None None js_undefined));
                   mkGqlItem "blob" "README.md" "sha-readme"
                     (Some (mkGqlObject None (Some 12%Z) (Some false)
                              (js_string "Hello, World")));
                   mkGqlItem "blob" "logo.png" "sha-logo"
                     (Some (mkGqlObject None (Some 4%Z) (Some true) js_null)) ]))
              (world deep) _ deep_reachable
              eq_refl eq_refl eq_refl eq_refl eq_refl eq_refl eq_refl eq_refl)
    as (pairs & s1 & Hrun & Hcalls & Hnd & _ & Hlast).
  exists pairs, s1. split; [exact Hrun|]. split; [exact Hcalls|]. split; [exact Hnd|].
  split.
  - apply (Hlast [] (mkGqlItem "tree" "src" "sha-src"
                       (Some (mkGqlObject (Some []) None None js_undefined)))
             _ eq_refl).
    apply (bool_decide_unpack _). vm_compute. exact I.
  - apply (Hlast [_; _] (mkGqlItem "blob" "logo.png" "sha-logo"
                           (Some (mkGqlObject None (Some 4%Z) (Some true) js_null)))
             [] eq_refl).
    apply not_elem_of_nil.
Defined.

Lemma inlined_tree_populated_witness :
  exists pairs s1 child dsub,
    readDirectory 1 (at_path "/") deep = Some (Return pairs, s1) /\
    resolve s1 "/src" = Some child /\
    heap s1 !! child = Some (EDirectory dsub) /\
    dir_sha dsub = "sha-src" /\
    exists sub cpairs,
      dir_entries dsub = Some sub /\
      readDirectory 1 (at_path "/src") s1 = Some (Return cpairs, with_world (world s1) s1) /\
      cpairs.*1 = sub.*1.
Proof.
  destruct (inlined_tree_populated 0 (at_path "/") deep (state_of "/") (world deep) 0
              (new_Directory 0 (at_path "/") "" None)
              (respond (Some
                 [ mkGqlItem "tree" "src" "sha-src"
                     (Some (mkGqlObject (Some []) None None js_undefined));
                   mkGqlItem "blob" "README.md" "sha-readme"
                     (Some (mkGqlObject None (Some 12%Z) (Some false)
                              (js_string "Hello, World")));
                   mkGqlItem "blob" "logo.png" "sha-logo"
                     (Some (mkGqlObject None (Some 4%Z) (Some true) js_null)) ]))
              (world deep) []
              (mkGqlItem "tree" "src" "sha-src"
                 (Some (mkGqlObject (Some []) None None js_undefined)))
              _ deep_reachable
              eq_refl eq_refl eq_refl eq_refl eq_refl eq_refl eq_refl eq_refl eq_refl)
    as (pairs & s1 & child & dsub & Hrun & Hresolve & Hchild & _ & _ & Hsha & _ & Hsub).
  { apply (bool_decide_unpack _). vm_compute. exact I. }
  destruct (Hsub [] eq_refl) as (sub & Hentries & _ & Hlisting).
  destruct (Hlisting 0 (at_path "/src") (state_of "/src") (world s1)
              eq_refl eq_refl eq_refl) as (cpairs & Hcrun & Hckeys).
  exists pairs, s1, child, dsub. split; [exact Hrun|].
  split; [exact (Hresolve "/src" eq_refl)|]. split; [exact Hchild|].
  split; [exact Hsha|]. exists sub, cpairs. by repeat split.
Defined.

Lemma not_found_in_turn_witness :
  let s' := after (readFile 1 (at_path "/README.md")) listed_shallow in
  readDirectory 1 (at_path "/missing") s'
    = Some (Throw (FileNotFound (at_path "/missing")), s') /\
  readFile 0 (at_path "/missing") s'
    = Some (Throw (FileNotFound (at_path "/missing")), s') /\
  stat 0 (at_path "/missing") s'
    = Some (Throw (FileNotFound (at_path "/missing")), s').
Proof.
  exact (not_found_in_turn 0 (at_path "/missing") listed_shallow
           (after (readFile 1 (at_path "/README.md")) listed_shallow)
           (state_of "/missing") (world listed_shallow) 0
           listed_shallow_reachable read_shallow_in_turn eq_refl eq_refl missing_stops).
Defined.

End FurtherConcrete.

(** * Files that the deep strategy inlines

    [entriesToMap] calls itself for the entries that the answer inlines for
    an entry of type tree, so that one listing makes the files at every depth
    of the answer. *)

Section Inlined.
Context `{C : Collaborators}.

Lemma last_named_None name items :
  last_named name items = None -> name ∉ map item_name items.
Proof.
  induction items as [|i items IH]; simpl; [intros _; apply not_elem_of_nil|].
  destruct (last_named name items); [done|].
  destruct (String.eqb (item_name i) name) eqn:Heq; [done|]. intros _.
  apply String.eqb_neq in Heq. apply not_elem_of_cons. split; [done|by apply IH].
Qed.

Lemma last_named_split name items item :
  last_named name items = Some item ->
  exists before after,
    items = before ++ item :: after /\
    item_name item = name /\
    name ∉ map item_name after.
Proof.
  induction items as [|i items IH]; simpl; [done|].
  destruct (last_named name items) as [later|] eqn:Hl.
  - intros H. destruct (IH H) as (before & after & -> & Hname & Hlast).
    by exists (i :: before), after.
  - destruct (String.eqb (item_name i) name) eqn:Heq; [|done]. intros [= <-].
    apply String.eqb_eq in Heq. exists [], items.
    split; [done|]. split; [done|]. by apply last_named_None.
Qed.

Lemma item_at_cons items n n' ns :
  item_at items (n :: n' :: ns) =
    match last_named n items with
    | None => None
    | Some item =>
        if String.eqb (item_type item) "tree" then
          match item_entries item with
          | Some inlined => item_at inlined (n' :: ns)
          | None => None
          end
        else None
    end.
Proof. reflexivity. Qed.

(** The last item of a name that is a tree with entries inlined: its node is
    the directory under that name, the nodes of its entries are made above
    it, and its entries are set once they are. *)
Lemma forEach_tree_inlined now uri before item after h inlined :
  String.eqb (item_type item) "tree" = true ->
  item_name item ∉ map item_name after ->
  item_entries item = Some inlined ->
  exists hb,
    h `prefix_of` hb /\
    map_get (item_name item) (forEach now uri (before ++ item :: after) ([], h)).1
      = Some (length hb) /\
    alter
      (set_entries
         (Some (forEach now (Uri_joinPath uri (item_name item)) inlined
                  ([], hb ++ [EDirectory
                                (new_Directory now uri (item_name item)
                                   (Some (mkOptions (Some (item_oid item)) None None)))])).1))
      (length hb)
      (forEach now (Uri_joinPath uri (item_name item)) inlined
         ([], hb ++ [EDirectory
                       (new_Directory now uri (item_name item)
                          (Some (mkOptions (Some (item_oid item)) None None)))])).2
    `prefix_of` (forEach now uri (before ++ item :: after) ([], h)).2.
Proof.
  intros Htype Hlast Hent. rewrite forEach_app. simpl.
  destruct (forEach now uri before ([], h)) as [m1 hb] eqn:E.
  assert (Hpre : h `prefix_of` hb).
  { pose proof (forEach_prefix now uri before [] h) as H. by rewrite E in H. }
  exists hb. split; [exact Hpre|].
  pose proof (forEach_get now uri after (item_name item)) as Hget.
  pose proof (forEach_prefix now uri after) as Hpost.
  rewrite entriesToMap_forEach_eq in *. simpl. rewrite Htype, Hent. simpl.
  destruct (forEach now (Uri_joinPath uri (item_name item)) inlined _) as [sub h2].
  simpl. rewrite (Hget _ _ Hlast), map_get_set_eq. split; [done|]. apply Hpost.
Qed.

(** The file that the names lead to in the answer is the node that the names
    lead to in the store that [entriesToMap] builds, with the URI joined on
    the way down. *)
Lemma forEach_item_at now ns : forall n items uri h item,
  item_at items (n :: ns) = Some item ->
  String.eqb (item_type item) "tree" = false ->
  exists c0 child,
    map_get n (forEach now uri items ([], h)).1 = Some c0 /\
    follow (forEach now uri items ([], h)).2 c0 ns = Some child /\
    (forEach now uri items ([], h)).2 !! child
      = Some (EFile (File_of_item now (uri_below uri (removelast (n :: ns))) item)) /\
    length h <= child.
Proof.
  induction ns as [|n' ns IH]; intros n items uri h item Hat Hfile.
  - simpl in Hat. destruct (last_named n items) as [it|] eqn:Hl; [|done].
    injection Hat as ->.
    destruct (last_named_split _ _ _ Hl) as (before & after & -> & <- & Hlast).
    destruct (forEach_file now uri before item after h Hfile Hlast)
      as (child & Hget & Hchild & Hge).
    by exists child, child.
  - rewrite item_at_cons in Hat.
    destruct (last_named n items) as [dir|] eqn:Hl; [|done].
    destruct (String.eqb (item_type dir) "tree") eqn:Htree; [|done].
    destruct (item_entries dir) as [inlined|] eqn:Hent; [|done].
    destruct (last_named_split _ _ _ Hl) as (before & after & -> & <- & Hlast).
    destruct (forEach_tree_inlined now uri before dir after h inlined Htree Hlast Hent)
      as (hb & Hpre & Hget & Hprefix).
    set (node := EDirectory
                   (new_Directory now uri (item_name dir)
                      (Some (mkOptions (Some (item_oid dir)) None None)))) in *.
    destruct (IH n' inlined (Uri_joinPath uri (item_name dir)) (hb ++ [node]) item
                Hat Hfile) as (c1 & child & Hget1 & Hfollow1 & Hchild1 & Hge1).
    pose proof (forEach_prefix now (Uri_joinPath uri (item_name dir)) inlined []
                  (hb ++ [node])) as Hsub.
    set (nested := forEach now (Uri_joinPath uri (item_name dir)) inlined
                     ([], hb ++ [node])) in *.
    set (built := forEach now uri (before ++ dir :: after) ([], h)) in *.
    assert (Hnode : nested.2 !! length hb = Some node).
    { eapply prefix_lookup_Some; [apply lookup_snoc|exact Hsub]. }
    assert (Hlen : length (hb ++ [node]) = S (length hb))
      by (rewrite length_app; simpl; lia).
    assert (Hkeeps : keeps_populated nested.2 built.2).
    { eapply keeps_trans; [|apply keeps_prefix; exact Hprefix].
      by eapply keeps_set_entries. }
    exists (length hb), child. split; [exact Hget|]. split; [|split].
    + simpl.
      erewrite (prefix_lookup_Some _ built.2 (length hb)); [| |exact Hprefix];
        [|by rewrite list_lookup_alter_eq, Hnode].
      simpl. rewrite Hget1. by eapply follow_keeps.
    + erewrite (prefix_lookup_Some _ built.2 child); [| |exact Hprefix];
        [|rewrite list_lookup_alter_ne by lia; exact Hchild1].
      reflexivity.
    + pose proof (prefix_length _ _ Hpre). lia.
Qed.

(** After a listing by the deep strategy, the file that the names lead to in
    the answer is the node that the path of the listing, followed by the
    names, leads to. *)
Lemma readDirectory_deep_item fuel uri s state w l d response w1 entries n ns item :
  String.eqb (uri_authority uri) "" = false ->
  idle registry_readDirectory (Uri_toString uri) s ->
  parseUri uri (world s) = (Resolved state, w) ->
  resolve (ensure_root state (with_world w s)) (st_path state) = Some l ->
  heap (ensure_root state (with_world w s)) !! l = Some (EDirectory d) ->
  dir_entries d = None ->
  isGraphQLEnabled w = true ->
  apolloClient_query (st_owner state) (st_repo state)
    (st_branch state +:+ ":" +:+ substring1 (st_path state)) w
    = (Resolved response, w1) ->
  response_entries response = Some entries ->
  item_at entries (n :: ns) = Some item ->
  String.eqb (item_type item) "tree" = false ->
  let s0 := ensure_root state (with_world w s) in
  let built := forEach (Date_now w1) uri entries ([], heap s0) in
  let s1 := with_heap (alter (set_entries (Some built.1)) l built.2)
              (with_calls (calls s ++ [population_request state w]) (with_world w1 s0)) in
  exists pairs child,
    readDirectory (S fuel) uri s = Some (Return pairs, s1) /\
    heap s1 !! child
      = Some (EFile (File_of_item (Date_now w1)
                       (uri_below uri (removelast (n :: ns))) item)) /\
    forall path, parts_of path = parts_of (st_path state) ++ n :: ns ->
                 resolve s1 path = Some child.
Proof.
  intros Ha Hi Hp Hl He Hd Hflag Hq Hentries Hat Hfile s0 built s1.
  destruct (readDirectory_deep fuel uri s state w l d response w1 _
              Ha Hi Hp Hl He Hd Hflag Hq Hentries) as [pairs Hrun].
  fold s0 in Hl, He.
  destruct (forEach_item_at (Date_now w1) ns n entries uri (heap s0) item Hat Hfile)
    as (c0 & child & Hget & Hfollow & Hchild & Hge).
  fold built in Hget, Hfollow, Hchild.
  pose proof (forEach_prefix (Date_now w1) uri entries [] (heap s0)) as Hprefix.
  fold built in Hprefix.
  pose proof (forEach_parent (Date_now w1) uri entries (heap s0) l d He) as Hparent.
  fold built in Hparent.
  assert (Hlt : l < length (heap s0)) by (apply lookup_lt_is_Some; eauto).
  assert (He' : built.2 !! l = Some (EDirectory d))
    by (eapply prefix_lookup_Some; [exact He|exact Hprefix]).
  assert (Hkeeps : keeps_populated built.2 (alter (set_entries (Some built.1)) l built.2))
    by by eapply keeps_set_entries.
  exists pairs, child. split; [exact Hrun|]. split.
  - subst s1. simpl. rewrite list_lookup_alter_ne by lia. exact Hchild.
  - intros path Hparts. unfold resolve in *. subst s1. simpl.
    destruct (root s0) as [r|]; [|done]. rewrite Hparts.
    erewrite follow_app.
    + simpl. rewrite Hparent. simpl. rewrite Hget. by eapply follow_keeps.
    + eapply follow_keeps; [|exact Hl].
      eapply keeps_trans; [by apply keeps_prefix|exact Hkeeps].
Qed.

(** C5. Under the deep strategy, the [File] made of a child entry that the
    answer flags as binary has no data, and the first [readFile] of it sends
    exactly one content request, for the blob of the child, and stores the
    decoded answer on the node: the node has these bytes as its data
    afterwards, and a second [readFile] returns them without a request.  The
    [File] made of a child entry that is not flagged has the encoded text as
    its data, and [readFile] returns it without a request.  The child is an
    entry at any depth of the answer: [names] lead to it from the entries of
    the listed directory, through the entries that the answer inlines for its
    trees, at every step to the last entry of the name; and it is not a tree
    itself.  The listed directory is found in [s0], the provider with the
    world that [parseUri] leaves and with its root. *)
Theorem binary_file_falls_back fuel uri s state w l d response w1 entries names item :
  String.eqb (uri_authority uri) "" = false ->
  idle registry_readDirectory (Uri_toString uri) s ->
  parseUri uri (world s) = (Resolved state, w) ->
  resolve (ensure_root state (with_world w s)) (st_path state) = Some l ->
  heap (ensure_root state (with_world w s)) !! l = Some (EDirectory d) ->
  dir_entries d = None ->
  isGraphQLEnabled w = true ->
  apolloClient_query (st_owner state) (st_repo state)
    (st_branch state +:+ ":" +:+ substring1 (st_path state)) w
    = (Resolved response, w1) ->
  response_entries response = Some entries ->
  item_at entries names = Some item ->
  String.eqb (item_type item) "tree" = false ->
  let s0 := ensure_root state (with_world w s) in
  let built := forEach (Date_now w1) uri entries ([], heap s0) in
  let s1 := with_heap (alter (set_entries (Some built.1)) l built.2)
              (with_calls (calls s ++ [population_request state w]) (with_world w1 s0)) in
  exists pairs child f,
    readDirectory (S fuel) uri s = Some (Return pairs, s1) /\
    (forall path, parts_of path = parts_of (st_path state) ++ names ->
                  resolve s1 path = Some child) /\
    heap s1 !! child = Some (EFile f) /\
    file_name f = item_name item /\
    file_uri f = uri_below uri (removelast names) /\
    file_sha f = item_oid item /\
    file_data f = (if item_isBinary item then None
                   else Some (textEncoder_encode (item_text item))) /\
    forall fuel' fuel'' furi fstate w2,
      String.eqb (uri_authority furi) "" = false ->
      idle registry_readFile (Uri_toString furi) s ->
      parseUri furi w1 = (Resolved fstate, w2) ->
      parts_of (st_path fstate) = parts_of (st_path state) ++ names ->
      if item_isBinary item then
        forall blob w3 fstate' w4,
          readGitHubFile fstate (item_oid item) w2 = (Resolved blob, w3) ->
          parseUri furi w3 = (Resolved fstate', w4) ->
          parts_of (st_path fstate') = parts_of (st_path fstate) ->
          let data := decodeBase64 (blob_content blob) in
          let s2 := with_heap (alter (set_data (Some data)) child (heap s1))
                      (with_calls (calls s1 ++ [CallFile fstate (item_oid item)])
                         (with_world w3 s1)) in
          readFile fuel' furi s1 = Some (Return data, s2) /\
          calls s2 = calls s ++ [population_request state w;
                                 CallFile fstate (item_oid item)] /\
          (exists f2,
             heap s2 !! child = Some (EFile f2) /\
             file_data f2 = Some data /\
             file_name f2 = item_name item /\
             file_sha f2 = item_oid item) /\
          readFile fuel'' furi s2 = Some (Return data, with_world w4 s2) /\
          calls (with_world w4 s2) = calls s2
      else
        readFile fuel' furi s1
          = Some (Return (textEncoder_encode (item_text item)), with_world w2 s1).
Proof.
  intros Ha Hi Hp Hl He Hd Hflag Hq Hentries Hat Hfile s0 built s1.
  destruct names as [|n ns]; [done|].
  destruct (readDirectory_deep_item fuel uri s state w l d response w1 entries n ns item
              Ha Hi Hp Hl He Hd Hflag Hq Hentries Hat Hfile)
    as (pairs & child & Hrun & Hchild & Hresolve).
  fold s0 in Hrun, Hchild, Hresolve. fold built in Hrun, Hchild, Hresolve.
  fold s1 in Hrun, Hchild, Hresolve.
  set (f := File_of_item (Date_now w1) (uri_below uri (removelast (n :: ns))) item) in *.
  exists pairs, child, f.
  split; [exact Hrun|]. split; [exact Hresolve|]. split; [exact Hchild|].
  split; [reflexivity|]. split; [reflexivity|]. split; [reflexivity|].
  split; [reflexivity|].
  intros fuel' fuel'' furi fstate w2 Hfa Hfi Hfp Hparts.
  specialize (Hresolve _ Hparts).
  assert (Hfi1 : idle registry_readFile (Uri_toString furi) s1).
  { apply (idle_after _ _ s); [|exact Hfi].
    exact (ensure_root_inflight state (with_world w s) registry_readFile). }
  destruct (item_isBinary item) eqn:Hbinary.
  - intros blob w3 fstate' w4 Hblob Hfp' Hparts' data s2.
    assert (Hnone : file_data f = None).
    { subst f. unfold File_of_item. simpl. by rewrite Hbinary. }
    assert (Hstored : heap s2 !! child = Some (EFile (with_data f (Some data)))).
    { change (alter (set_data (Some data)) child (heap s1) !! child
              = Some (EFile (with_data f (Some data)))).
      by rewrite list_lookup_alter_eq, Hchild. }
    split; [|split; [|split; [|split]]].
    + rewrite (readFile_absent fuel' furi s1 fstate w2 child _ Hfa Hfi1 Hfp
                 Hresolve Hchild Hnone).
      change (file_sha f) with (item_oid item). by rewrite Hblob.
    + subst s2 s1. simpl. by rewrite <- app_assoc.
    + exists (with_data f (Some data)). by split.
    + assert (Hfi2 : idle registry_readFile (Uri_toString furi) s2).
      { apply (idle_after _ _ s1); [reflexivity|exact Hfi1]. }
      assert (Hresolve2 : resolve s2 (st_path fstate') = Some child).
      { eapply (resolve_keeps s1 s2); [reflexivity| |exact Hparts'|exact Hresolve].
        apply keeps_set_data. }
      exact (readFile_present fuel'' furi s2 fstate' w4 child
               (with_data f (Some data)) data Hfa Hfi2 Hfp' Hresolve2 Hstored eq_refl).
    + reflexivity.
  - eapply (readFile_present fuel' furi s1 fstate w2 child); try done.
    subst f. unfold File_of_item. simpl. by rewrite Hbinary.
Qed.


End Inlined.

(** * Inlined files on the remote that inlines *)

Section InlinedConcrete.
Import Mock.

Lemma binary_file_falls_back_witness :
  exists pairs child f s2,
    @readDirectory Inlining.collaborators 1 (at_path "/") Inlining.deep
      = Some (Return pairs, Inlining.listed) /\
    @resolve Inlining.collaborators Inlining.listed "/docs/api/icon.ico" = Some child /\
    heap Inlining.listed !! child = Some (EFile f) /\
    file_sha f = "sha-logo" /\
    file_data f = None /\
    @readFile Inlining.collaborators 0 (at_path "/docs/api/icon.ico") Inlining.listed
      = Some (Return (list_byte_of_string "PNG!"), s2) /\
    calls s2 = [CallQuery "conwnet" "github1s" "master:";
                CallFile (state_of "/docs/api/icon.ico") "sha-logo"] /\
    (exists f2, heap s2 !! child = Some (EFile f2) /\
                file_data f2 = Some (list_byte_of_string "PNG!")) /\
    @readFile Inlining.collaborators 0 (at_path "/docs/api/icon.ico") s2
      = Some (Return (list_byte_of_string "PNG!"), s2).
Proof.
  destruct (@binary_file_falls_back Inlining.collaborators
              0 (at_path "/") Inlining.deep (state_of "/")
              {| graphql := true; failures := 0 |} 0
              (new_Directory 0 (at_path "/") "" None)
              (respond (Some Inlining.answer_root))
              {| graphql := true; failures := 0 |}
              Inlining.answer_root ["docs"; "api"; "icon.ico"] Inlining.icon
              eq_refl eq_refl eq_refl eq_refl eq_refl eq_refl eq_refl eq_refl eq_refl
              eq_refl eq_refl)
    as (pairs & child & f & Hrun & Hresolve & Hchild & _ & _ & Hsha & Hdata & Hread).
  specialize (Hread 0 0 (at_path "/docs/api/icon.ico") (state_of "/docs/api/icon.ico")
                {| graphql := true; failures := 0 |} eq_refl eq_refl eq_refl eq_refl).
  simpl in Hread.
  destruct (Hread {| blob_content := "PNG!" |} {| graphql := true; failures := 0 |}
              (state_of "/docs/api/icon.ico") {| graphql := true; failures := 0 |}
              eq_refl eq_refl eq_refl)
    as (Hfetch & Hcalls & (f2 & Hstored & Hbytes & _) & Hagain & _).
  eexists pairs, child, f, _.
  split; [exact Hrun|]. split; [exact (Hresolve "/docs/api/icon.ico" eq_refl)|].
  split; [exact Hchild|]. split; [exact Hsha|]. split; [exact Hdata|].
  split; [exact Hfetch|]. split; [exact Hcalls|].
  split; [exists f2; split; [exact Hstored|exact Hbytes]|exact Hagain].
Defined.


End InlinedConcrete.
